(** * Gaussian-blur tutorial (src/main.cpp): a shallow embedding and its properties

    The development follows the source top to bottom:

    - [gaussian] and [produce2dGaussianKernel] (the weight matrix), with
      [float] and [double] values read as the real numbers they denote and
      every rounding step of the source written out through the rounding
      operators [rd] (to double), [rf] (to float) and [cexp] ([std::exp]);
    - [Image], [RGBtoRGBA] and [RGBAtoRGB] (channel padding);
    - the [std::istream] operations used by [LoadImage], [LoadImage] itself
      and [SaveImage];
    - [CheckError] and [main], run against an oracle for the OpenCL runtime and
      the file system, producing the trace of observable events and the way
      the process ends.

    The embedding comes first, the properties after it. *)

From Stdlib Require Import List ZArith Lia Bool Arith.
From Stdlib Require Import Ascii.
From Stdlib Require String.
From Stdlib Require Import Reals Lra.
From Stdlib Require Import DecimalString.
From Stdlib Require DecimalPos.
Import ListNotations.
Import String.StringSyntax.

Delimit Scope string_scope with string.
Bind Scope string_scope with String.string.

Abbreviation string := String.string.
Infix "+++" := String.append (right associativity, at level 60).

Local Open Scope Z_scope.

(** ** Machine integers *)

Definition INT_MAX : Z := 2147483647.
Definition INT_MIN : Z := -2147483648.
Definition UINT_MOD : Z := 4294967296.

(** [unsigned int] arithmetic wraps modulo 2^32. *)
Definition to_uint (z : Z) : Z := z mod UINT_MOD.

Definition in_int (z : Z) : bool := (INT_MIN <=? z) && (z <=? INT_MAX).

(** ** Lists updated by index *)

(** [v[i] = x] on a [std::vector]; the loops below only write inside the
    bounds, where the source is defined. *)
Fixpoint list_set {A : Type} (l : list A) (i : nat) (x : A) : list A :=
  match l, i with
  | [], _ => []
  | _ :: t, O => x :: t
  | h :: t, S i' => h :: list_set t i' x
  end.

(** [map] that also passes the position, counted from [i]. *)
Fixpoint map_index {A B : Type} (f : nat -> A -> B) (i : nat) (l : list A) : list B :=
  match l with
  | [] => []
  | x :: t => f i x :: map_index f (S i) t
  end.

(** ** The Gaussian kernel *)

(** A [float] or [double] value is read as the real number it denotes.  The
    source's arithmetic is the exact operation followed by rounding to the
    format of the result: [rd] rounds to [double], [rf] to [float], and
    [cexp] is [std::exp] on [double].  They are parameters of the model;
    [exact_rd], [exact_rf] and [exact_exp] below give the arithmetic without
    rounding, and [binary64], [binary32] and [binary64_exp] the one of
    IEEE 754. *)
Section Kernel.

Variables rd rf cexp : R -> R.

Definition kernel_elem : Type := R.
Definition kernel_row : Type := list kernel_elem.
Definition kernel_type : Type := list kernel_row.

(** [double] operations. *)
Definition dadd (x y : R) : R := rd (x + y).
Definition dsub (x y : R) : R := rd (x - y).
Definition dmul (x y : R) : R := rd (x * y).
Definition ddiv (x y : R) : R := rd (x / y).

(** [float] multiplication, and the conversion [double -> float]. *)
Definition fmul (x y : R) : R := rf (x * y).
Definition to_float (x : R) : R := rf x.

(** [kernel_elem gaussian (double x, double mu, double sigma)]:
    [a = (x - mu) / sigma], result [std::exp (-0.5 * a * a)] converted to
    [kernel_elem], which is [float].  The division is the one of the reals,
    so the definition follows the code for [sigma <> 0] only: with
    [sigma = 0] the code divides by zero and gets an infinity or a NaN,
    which the reals do not have.  The program never does:
    [produce2dGaussianKernel] returns before it for the radius 0, and
    passes half a radius that is at least 1 otherwise. *)
Definition gaussian (x mu sigma : R) : kernel_elem :=
  let a := ddiv (dsub x mu) sigma in
  to_float (cexp (dmul (dmul (-0.5) a) a)).

(** [a] and the argument of the exponential, as functions of [x - mu]. *)
Definition scaled (sigma d : R) : R := ddiv (rd d) sigma.
Definition exponent (a : R) : R := dmul (dmul (-0.5) a) a.

Definition get_cell (k : kernel_type) (row col : nat) : kernel_elem :=
  nth col (nth row k []) 0%R.

Definition set_cell (k : kernel_type) (row col : nat) (x : kernel_elem) : kernel_type :=
  list_set k row (list_set (nth row k []) col x).

(** Body of the first pair of loops: [x] is the [float] product of the two
    factors widened to [double], stored in the cell and added to [sum]. *)
Definition compute_cell (kernelRadius : Z) (sigma : R) (row col : nat)
    (st : kernel_type * R) : kernel_type * R :=
  let '(kernel2d, sum) := st in
  let x := fmul (gaussian (IZR (Z.of_nat row)) (IZR kernelRadius) sigma)
                (gaussian (IZR (Z.of_nat col)) (IZR kernelRadius) sigma) in
  (set_cell kernel2d row col (to_float x), dadd sum x).

(** [for (int col = 0; col < kernel2d[row].size(); col++)]; the size is the
    same at every turn. *)
Definition compute_row (kernelRadius : Z) (sigma : R)
    (st : kernel_type * R) (row : nat) : kernel_type * R :=
  fold_left (fun st col => compute_cell kernelRadius sigma row col st)
            (seq 0 (List.length (nth row (fst st) []))) st.

(** [for (int row = 0; row < kernel2d.size(); row++)] *)
Definition compute_values (kernelRadius : Z) (sigma : R)
    (st : kernel_type * R) : kernel_type * R :=
  fold_left (compute_row kernelRadius sigma) (seq 0 (List.length (fst st))) st.

(** Body of the second pair of loops: [kernel2d[row][col] /= sum], a
    [double] division whose result is converted back to [float]. *)
Definition normalize_cell (sum : R) (row col : nat) (kernel2d : kernel_type)
    : kernel_type :=
  set_cell kernel2d row col (to_float (ddiv (get_cell kernel2d row col) sum)).

Definition normalize_row (sum : R) (kernel2d : kernel_type) (row : nat)
    : kernel_type :=
  fold_left (fun k col => normalize_cell sum row col k)
            (seq 0 (List.length (nth row kernel2d []))) kernel2d.

Definition normalize (sum : R) (kernel2d : kernel_type) : kernel_type :=
  fold_left (normalize_row sum) (seq 0 (List.length kernel2d)) kernel2d.

(** [kernel_type produce2dGaussianKernel (unsigned int kernelRadius)].
    The side [2 * kernelRadius + 1] is computed in [unsigned int].  The loop
    counters are [int]s compared with the size of the vector: when the side
    exceeds [INT_MAX] the increment overflows, which is undefined in the
    source ([None]).  Memory is not bounded in the model. *)
Definition produce2dGaussianKernel (kernelRadius : Z) : option kernel_type :=
  if kernelRadius =? 0 then Some [[1%R]]
  else
    let sigma := ddiv (IZR kernelRadius) 2 in
    let side := to_uint (2 * kernelRadius + 1) in
    if INT_MAX <? side then None
    else
      let kernel2d := repeat (repeat 0%R (Z.to_nat side)) (Z.to_nat side) in
      let '(kernel2d, sum) := compute_values kernelRadius sigma (kernel2d, 0%R) in
      Some (normalize sum kernel2d).

(** The claims' reading of the result, cell by cell.  [product] is the
    unnormalised weight of a cell and [total] accumulates the weights in the
    order of the loops, row after row. *)
Definition product (kernelRadius : Z) (row col : nat) : R :=
  let sigma := ddiv (IZR kernelRadius) 2 in
  fmul (gaussian (IZR (Z.of_nat row)) (IZR kernelRadius) sigma)
       (gaussian (IZR (Z.of_nat col)) (IZR kernelRadius) sigma).

Definition all_products (kernelRadius : Z) (side : nat) : list R :=
  flat_map (fun row => map (product kernelRadius row) (seq 0 side)) (seq 0 side).

Definition total (kernelRadius : Z) (side : nat) : R :=
  fold_left dadd (all_products kernelRadius side) 0%R.

(** A row as the first loops leave it. *)
Definition computed_row (kernelRadius : Z) (side row : nat) : kernel_row :=
  map (fun col => to_float (product kernelRadius row col)) (seq 0 side).

Definition normalized_cell (kernelRadius : Z) (row col : nat) : R :=
  let side := Z.to_nat (2 * kernelRadius + 1) in
  to_float (ddiv (to_float (product kernelRadius row col)) (total kernelRadius side)).

End Kernel.

(** The radii for which the source is defined and the side does not wrap:
    [2 * r + 1 <= INT_MAX]. *)
Definition radius_in_range (r : Z) : Prop := 1 <= r < 1073741824.

(** Arithmetic without rounding. *)
Definition exact_rd (x : R) : R := x.
Definition exact_rf (x : R) : R := x.
Definition exact_exp (x : R) : R := exp x.

(** The weight matrix in the words of the specification, over the reals:
    [gaussian (x, mu, sigma) = exp (-0.5 * ((x - mu) / sigma)^2)], each cell
    the product of the row factor and the column factor divided by the sum of
    all such products. *)
Definition gaussian_spec (x mu sigma : R) : R :=
  exp (-0.5 * ((x - mu) / sigma) ^ 2).

Definition product_spec (r : Z) (row col : nat) : R :=
  (gaussian_spec (IZR (Z.of_nat row)) (IZR r) (IZR r / 2)
   * gaussian_spec (IZR (Z.of_nat col)) (IZR r) (IZR r / 2))%R.

Definition sum_list (l : list R) : R := fold_right Rplus 0%R l.

Definition total_spec (r : Z) : R :=
  let side := Z.to_nat (2 * r + 1) in
  sum_list (flat_map (fun row => map (product_spec r row) (seq 0 side)) (seq 0 side)).

Definition kernel_spec (r : Z) (row col : nat) : R :=
  (product_spec r row col / total_spec r)%R.

(** Sum of all the entries of a matrix. *)
Definition sum_matrix (k : kernel_type) : R := sum_list (concat k).

(** Unit roundoffs of [double] and [float], a range of magnitudes well
    inside the normal numbers of both formats (2^-100 to 2^100), and the
    tolerance of the claims. *)
Definition eps_double : R := (/ 9007199254740992)%R.
Definition eps_float : R := (/ 16777216)%R.
Definition tiny : R := (/ 1267650600228229401496703205376)%R.
Definition huge : R := 1267650600228229401496703205376%R.

(** What is assumed of the arithmetic: rounding is to nearest, hence
    monotone, symmetric under change of sign, and accurate to half a unit in
    the last place on numbers that neither underflow nor overflow;
    [std::exp] is monotone, non-negative, and between 1/32 and 2 on
    [[-3, 0]], where the exponential lies between 0.049 and 1. *)
Record float_environment (rd rf cexp : R -> R) : Prop := mkFloatEnvironment {
  rd_monotone : forall x y : R, (x <= y -> rd x <= rd y)%R;
  rd_symmetric : forall x : R, rd (- x)%R = (- rd x)%R;
  rd_accurate :
    forall x : R,
      (tiny <= Rabs x <= huge -> Rabs (rd x - x) <= eps_double * Rabs x)%R;
  rf_monotone : forall x y : R, (x <= y -> rf x <= rf y)%R;
  rf_symmetric : forall x : R, rf (- x)%R = (- rf x)%R;
  rf_accurate :
    forall x : R,
      (tiny <= Rabs x <= huge -> Rabs (rf x - x) <= eps_float * Rabs x)%R;
  cexp_monotone : forall x y : R, (x <= y -> cexp x <= cexp y)%R;
  cexp_nonnegative : forall x : R, (0 <= cexp x)%R;
  cexp_range : forall x : R, (-3 <= x <= 0 -> / 32 <= cexp x <= 2)%R
}.

(** Shape and sign of a matrix. *)
Definition square_of_side (k : kernel_type) (side : nat) : Prop :=
  List.length k = side /\ Forall (fun row => List.length row = side) k.



Definition normalized_products (rd rf cexp : R -> R) (r : Z) : Prop :=
  exists k,
    produce2dGaussianKernel rd rf cexp r = Some k /\
    square_of_side k (Z.to_nat (2 * r + 1)) /\
    forall row col : nat,
      Z.of_nat row <= 2 * r -> Z.of_nat col <= 2 * r ->
      get_cell k row col = normalized_cell rd rf cexp r row col.

Definition peak_at_centre (rd rf cexp : R -> R) (r : Z) : Prop :=
  exists k,
    produce2dGaussianKernel rd rf cexp r = Some k /\
    (Z.to_nat r < List.length k)%nat /\
    (Z.to_nat r < List.length (nth (Z.to_nat r) k []))%nat /\
    (forall row col : nat,
        Z.of_nat row <= 2 * r -> Z.of_nat col <= 2 * r ->
        (get_cell k row col <= get_cell k (Z.to_nat r) (Z.to_nat r))%R) /\
    (forall row col row' col' : nat,
        Z.of_nat row <= 2 * r -> Z.of_nat col <= 2 * r ->
        Z.of_nat row' <= 2 * r -> Z.of_nat col' <= 2 * r ->
        Z.abs (Z.of_nat row - r) <= Z.abs (Z.of_nat row' - r) ->
        Z.abs (Z.of_nat col - r) <= Z.abs (Z.of_nat col' - r) ->
        (get_cell k row' col' <= get_cell k row col)%R).

(** ** Images and channel padding *)

(** [struct Image]: a [std::vector<char>] and two [int]s. *)
Record Image : Type := mkImage {
  pixel : list ascii;
  width : Z;
  height : Z
}.

(** The byte pushed by [push_back (0)]. *)
Definition NUL : ascii := Ascii.zero.

(** The loop of [RGBtoRGBA]:
    [for (i = 0; i < input.pixel.size (); i += 3)], with the three reads
    [input.pixel [i + 0 .. i + 2]] and the four [push_back]s.  A read past
    the end of the vector is undefined behaviour in the source: [None].
    [fuel] bounds the number of iterations; [RGBtoRGBA] passes the size of the
    vector, which the loop can never use up since [i] grows at every turn. *)
Fixpoint RGBtoRGBA_loop (fuel : nat) (src : list ascii) (i : nat)
    (dst : list ascii) : option (list ascii) :=
  if (i <? List.length src)%nat then
    match fuel with
    | O => None
    | S fuel' =>
        match nth_error src (i + 0), nth_error src (i + 1), nth_error src (i + 2) with
        | Some r, Some g, Some b =>
            RGBtoRGBA_loop fuel' src (i + 3) (dst ++ [r; g; b; NUL])
        | _, _, _ => None
        end
    end
  else Some dst.

Definition RGBtoRGBA (input : Image) : option Image :=
  match RGBtoRGBA_loop (List.length (pixel input)) (pixel input) 0 [] with
  | Some p => Some (mkImage p (width input) (height input))
  | None => None
  end.

(** The loop of [RGBAtoRGB]: the index advances by four, three bytes are
    read and pushed, the fourth is never looked at. *)
Fixpoint RGBAtoRGB_loop (fuel : nat) (src : list ascii) (i : nat)
    (dst : list ascii) : option (list ascii) :=
  if (i <? List.length src)%nat then
    match fuel with
    | O => None
    | S fuel' =>
        match nth_error src (i + 0), nth_error src (i + 1), nth_error src (i + 2) with
        | Some r, Some g, Some b =>
            RGBAtoRGB_loop fuel' src (i + 4) (dst ++ [r; g; b])
        | _, _, _ => None
        end
    end
  else Some dst.

Definition RGBAtoRGB (input : Image) : option Image :=
  match RGBAtoRGB_loop (List.length (pixel input)) (pixel input) 0 [] with
  | Some p => Some (mkImage p (width input) (height input))
  | None => None
  end.

(** Closed forms of the two loops, by recursion on the pixel list: one pixel
    is three bytes on the host side and four on the device side. *)
Fixpoint pad_alpha (l : list ascii) : list ascii :=
  match l with
  | r :: g :: b :: rest => r :: g :: b :: NUL :: pad_alpha rest
  | _ => []
  end.

Fixpoint drop_alpha (l : list ascii) : list ascii :=
  match l with
  | r :: g :: b :: _ :: rest => r :: g :: b :: drop_alpha rest
  | _ => []
  end.

(** Two pixels, six bytes. *)
Definition two_pixels : Image :=
  mkImage ["a"; "b"; "c"; "d"; "e"; "f"]%char 2 1.

(** ** Text: characters, numbers in decimal *)

Definition newline : string := String.String "010"%char String.EmptyString.
Definition tab : string := String.String "009"%char String.EmptyString.

(** [operator<<] on an integer, and [%d]. *)
Definition show_Z (z : Z) : string := NilZero.string_of_int (Z.to_int z).

(** [isspace] in the C locale: space, [\t], [\n], [\v], [\f], [\r]. *)
Definition isspace (c : ascii) : bool :=
  let n := nat_of_ascii c in
  (n =? 32)%nat || ((9 <=? n)%nat && (n <=? 13)%nat).

Definition isdigit (c : ascii) : bool :=
  let n := nat_of_ascii c in (48 <=? n)%nat && (n <=? 57)%nat.

Definition digit_value (c : ascii) : Z := Z.of_nat (nat_of_ascii c) - 48.

Definition is_empty (s : string) : bool :=
  match s with String.EmptyString => true | _ => false end.

Fixpoint skip_space (s : string) : string :=
  match s with
  | String.String c t => if isspace c then skip_space t else s
  | String.EmptyString => s
  end.

(** The longest prefix of digits, as a number, and what follows it;
    [seen] tells whether there was a digit at all. *)
Fixpoint read_digits (s : string) (acc : Z) (seen : bool) : Z * bool * string :=
  match s with
  | String.String c t =>
      if isdigit c then read_digits t (10 * acc + digit_value c) true
      else (acc, seen, s)
  | String.EmptyString => (acc, seen, s)
  end.

(** An optional sign and digits, base 10: the subject sequence of [strtol]
    and of [num_get] for an [int].  The result is the value, whether a
    number was read, and the rest of the input. *)
Definition read_signed (s : string) : Z * bool * string :=
  match s with
  | String.String c t =>
      if (c =? "-")%char then
        let '(v, seen, rest) := read_digits t 0 false in (- v, seen, rest)
      else if (c =? "+")%char then read_digits t 0 false
      else read_digits s 0 false
  | String.EmptyString => read_digits s 0 false
  end.

(** [atoi] of the C library, after the C standard ([strtol] in base 10):
    white space is skipped, then the longest number is read; the value is 0
    when there is none.  (A value that does not fit an [int] is undefined in
    C; [main] checks the range.) *)
Definition atoi (s : string) : Z :=
  let '(v, _, _) := read_signed (skip_space s) in v.

(** A string that is a number and nothing else: an optional sign and at
    least one digit. *)
Fixpoint all_digits (s : string) : bool :=
  match s with
  | String.String c t => isdigit c && all_digits t
  | String.EmptyString => true
  end.

Definition unsigned_numeral (s : string) : bool :=
  negb (is_empty s) && all_digits s.

Definition numeric_string (s : string) : bool :=
  match s with
  | String.String c t =>
      if (c =? "-")%char || (c =? "+")%char then unsigned_numeral t
      else unsigned_numeral s
  | String.EmptyString => false
  end.

(** A string in which [atoi] finds a number: after the white space and an
    optional sign comes a digit. *)
Definition first_is_digit (s : string) : bool :=
  match s with
  | String.String c _ => isdigit c
  | String.EmptyString => false
  end.

Definition starts_with_number (s : string) : bool :=
  match skip_space s with
  | String.String c t =>
      if (c =? "-")%char || (c =? "+")%char then first_is_digit t
      else isdigit c
  | String.EmptyString => false
  end.

(** ** Input streams *)

(** A [std::istream], after the C++ standard: the characters not yet read
    and the state bits. *)
Record istream : Type := mkStream {
  buffer : string;
  eofbit : bool;
  failbit : bool
}.

Definition good (s : istream) : bool := negb (eofbit s) && negb (failbit s).

(** [std::ifstream in (path)]: the stream fails at once when the file cannot
    be opened. *)
Definition open_stream (content : option string) : istream :=
  match content with
  | Some c => mkStream c false false
  | None => mkStream String.EmptyString false true
  end.

(** The sentry of a formatted input function: a stream that is not good gets
    [failbit]; otherwise white space is skipped, and reaching the end while
    skipping sets [eofbit] and [failbit]. *)
Definition sentry (s : istream) : bool * istream :=
  if good s then
    let rest := skip_space (buffer s) in
    if is_empty rest then (false, mkStream rest true true)
    else (true, mkStream rest false false)
  else (false, mkStream (buffer s) (eofbit s) true).

(** Characters up to the first white space. *)
Fixpoint read_word (s : string) : string * string :=
  match s with
  | String.String c t =>
      if isspace c then (String.EmptyString, s)
      else let '(w, rest) := read_word t in (String.String c w, rest)
  | String.EmptyString => (String.EmptyString, s)
  end.

(** [in >> str] for a [std::string]: [str] is left alone when the sentry
    fails. *)
Definition read_string (s : istream) (str : string) : string * istream :=
  let '(ok, s1) := sentry s in
  if ok then
    let '(w, rest) := read_word (buffer s1) in
    (w, mkStream rest (is_empty rest) false)
  else (str, s1).

(** Characters up to the first newline; [Some rest] when a newline was found
    (and dropped). *)
Fixpoint read_line (s : string) : string * option string :=
  match s with
  | String.String c t =>
      if (c =? "010")%char then (String.EmptyString, Some t)
      else let '(l, rest) := read_line t in (String.String c l, rest)
  | String.EmptyString => (String.EmptyString, None)
  end.

(** [getline (in, str)]: nothing is skipped; [str] is left alone when the
    stream is not good; the end of the input sets [eofbit], and [failbit] too
    when no character was taken. *)
Definition getline (s : istream) (str : string) : string * istream :=
  if good s then
    match read_line (buffer s) with
    | (l, Some rest) => (l, mkStream rest false false)
    | (l, None) => (l, mkStream String.EmptyString true (is_empty l))
    end
  else (str, mkStream (buffer s) (eofbit s) true).

(** [in >> v] for an [int].  [v] is [None] while the variable is not
    initialised.  When the sentry fails the variable is left alone; when no
    number can be read it becomes 0; an out-of-range number is clamped; both
    set [failbit]. *)
Definition read_int (s : istream) (v : option Z) : option Z * istream :=
  let '(ok, s1) := sentry s in
  if ok then
    let '(n, seen, rest) := read_signed (buffer s1) in
    if negb seen then (Some 0, mkStream rest (is_empty rest) true)
    else if INT_MAX <? n then (Some INT_MAX, mkStream rest (is_empty rest) true)
    else if n <? INT_MIN then (Some INT_MIN, mkStream rest (is_empty rest) true)
    else (Some n, mkStream rest (is_empty rest) false)
  else (v, s1).

(** [in.read (p, n)] into a buffer of [n] zero bytes: the bytes available, at
    most [n], followed by the zeros left untouched. *)
Fixpoint read_bytes (s : string) (n : nat) : list ascii :=
  match n with
  | O => []
  | S n' =>
      match s with
      | String.String c t => c :: read_bytes t n'
      | String.EmptyString => NUL :: read_bytes s n'
      end
  end.

(** ** The process: events, endings, and the monad that threads them *)

(** The three memory objects [main] creates on the device. *)
Inductive mem_object : Type :=
  | InputImage
  | OutputImage
  | FilterWeightsBuffer.

(** The calls to the OpenCL runtime that [main] makes, with the arguments
    that matter. *)
Inductive cl_call : Type :=
  | clGetPlatformIDs (num_entries : nat)
  | clGetPlatformInfo (platform : nat)
  | clGetDeviceIDs (num_entries : nat)
  | clGetDeviceInfo (device : nat)
  | clCreateContext (num_devices : nat)
  | clCreateProgramWithSource (source : string)
  | clBuildProgram (num_devices : nat) (options : string)
  | clCreateKernel (kernel_name : string)
  | clCreateImage2D (image_width image_height : Z) (host_ptr : option (list ascii))
  | clCreateBuffer (host_data : list R)
  | clSetKernelArg (arg_index : nat) (arg_value : mem_object)
  | clCreateCommandQueue
  | clEnqueueNDRangeKernel (global_width global_height : Z)
  | clEnqueueReadImage (region_width region_height : Z)
  | clReleaseMemObject (memobj : mem_object)
  | clReleaseCommandQueue
  | clReleaseKernel
  | clReleaseProgram
  | clReleaseContext.

(** What the process does that can be observed from outside. *)
Inductive event : Type :=
  | Call (c : cl_call)
  | Stdout (text : string)
  | Stderr (text : string)
  | ReadFile (path : string)
  | WriteFile (path : string) (content : string).

(** How the process ends: an exit status, [abort] (an uncaught exception or
    a failed [assert]), behaviour the language leaves undefined, or a loop
    that never ends. *)
Inductive ending : Type :=
  | Exited (status : Z)
  | Aborted
  | Undefined
  | Diverges.

Inductive step (A : Type) : Type :=
  | Continue (a : A)
  | Stop (e : ending).

Arguments Continue {A} a.
Arguments Stop {A} e.

(** A computation: the events it produced and either its value or the way
    the process ended in it. *)
Definition M (A : Type) : Type := (list event * step A)%type.

Definition ret {A : Type} (a : A) : M A := ([], Continue a).

Definition bind {A B : Type} (m : M A) (f : A -> M B) : M B :=
  match m with
  | (tr, Continue a) => let '(tr', r) := f a in (tr ++ tr', r)
  | (tr, Stop e) => (tr, Stop e)
  end.

Definition emit (e : event) : M unit := ([e], Continue tt).
Definition halt {A : Type} (e : ending) : M A := ([], Stop e).

Notation "x <- m ;; k" := (bind m (fun x => k))
  (at level 61, m at next level, right associativity).
Notation "m ;; k" := (bind m (fun _ => k))
  (at level 61, right associativity).

(** The environment of a run: what the OpenCL runtime answers and what the
    files hold. *)
Record World : Type := mkWorld {
  platformIdCount : nat;
  platformName : nat -> string;
  deviceIdCount : nat;
  deviceName : nat -> string;
  (** the status each call returns, directly or through [&error] *)
  cl_status : cl_call -> Z;
  (** [kernels/image.cl] (empty when it cannot be read) *)
  kernel_source : string;
  (** [test.ppm], [None] when it cannot be opened *)
  test_ppm : option string;
  (** the bytes a successful [clEnqueueReadImage] stores *)
  device_pixels : nat -> ascii;
  (** the bytes the host buffer holds after a [clEnqueueReadImage] that
      fails: the interface does not say what such a call leaves there *)
  failed_pixels : nat -> ascii
}.

(** [CL_SUCCESS] of [CL/cl.h]. *)
Definition CL_SUCCESS : Z := 0.

(** The line [CheckError] prints. *)
Definition error_report (error : Z) : event :=
  Stderr ("OpenCL call failed with error " +++ show_Z error +++ newline).

(** [void CheckError (cl_int error)] *)
Definition CheckError (error : Z) : M unit :=
  if negb (error =? CL_SUCCESS) then
    emit (error_report error) ;;
    halt (Exited 1)
  else ret tt.

(** A call to the runtime: the call is recorded and its status returned. *)
Definition call (w : World) (c : cl_call) : M Z :=
  emit (Call c) ;; ret (cl_status w c).

(** ** The image files *)

(** The loop that skips comments in [LoadImage]:
    [for (;;) { getline (in, s); if (s.empty ()) continue;
                if (s [0] != '#') break; }].
    Once the stream is no longer good [getline] changes nothing, so a line
    that is empty or starts with '#' at that point keeps the loop going for
    ever ([None]).  While the stream is good every turn takes at least one
    character or reaches the end, which bounds the number of turns by the
    length of the input plus two: [fuel]. *)
Fixpoint skip_comments (fuel : nat) (s : istream) (str : string)
    : option (string * istream) :=
  match fuel with
  | O => None
  | S fuel' =>
      let '(str', s') := getline s str in
      match str' with
      | String.EmptyString =>
          if good s then skip_comments fuel' s' str' else None
      | String.String c _ =>
          if negb (c =? "#")%char then Some (str', s')
          else if good s then skip_comments fuel' s' str' else None
      end
  end.

(** The turns the loop can still take: a bound on the fuel it needs. *)
Definition turns_left (s : istream) : nat :=
  if good s then (String.length (buffer s) + 2)%nat else 1%nat.

(** The first statements of [LoadImage]: the stream is opened and the magic
    token extracted with [in >> s]. *)
Definition read_magic (content : option string) : string * istream :=
  read_string (open_stream content) String.EmptyString.

(** The header after the magic token: comments are skipped, [width] and
    [height] are read from the line that ends the loop and [maxColor] from
    the file.  A variable is [None] while it is not initialised.  The result
    is [None] when the loop never ends. *)
Record header : Type := mkHeader {
  header_width : option Z;
  header_height : option Z;
  header_maxColor : option Z;
  header_rest : istream
}.

Definition read_header (magic : string) (s1 : istream) : option header :=
  match skip_comments (String.length (buffer s1) + 2) s1 magic with
  | None => None
  | Some (line, s2) =>
      let str := mkStream line false false in
      let '(width, str1) := read_int str None in
      let '(height, _) := read_int str1 None in
      let '(maxColor, s3) := read_int s2 None in
      Some (mkHeader width height maxColor s3)
  end.

(** The pixel data: [std::vector<char> data (width * height * 3)] and
    [in.read].  The size is an [int] expression (overflow is undefined); a
    negative size converts to a [size_t] no vector can have, and the
    exception ends the process. *)
Definition read_pixels (h : header) : M Image :=
  let '(_, s4) := getline (header_rest h) String.EmptyString in
  match header_width h, header_height h with
  | Some width, Some height =>
      if negb (in_int (width * height)) || negb (in_int (width * height * 3))
      then halt Undefined
      else if width * height * 3 <? 0 then halt Aborted
      else
        let size := Z.to_nat (width * height * 3) in
        let data :=
          if good s4 then read_bytes (buffer s4) size else repeat NUL size in
        ret (mkImage data width height)
  | _, _ => halt Undefined
  end.

(** [Image LoadImage (const char* path)], on the content of the file. *)
Definition LoadImage (content : option string) : M Image :=
  let '(magic, s1) := read_magic content in
  if negb (String.eqb magic "P6") then halt (Exited 1)
  else
    match read_header magic s1 with
    | None => halt Diverges
    | Some h =>
        match header_maxColor h with
        | None => halt Undefined
        | Some maxColor =>
            if negb (maxColor =? 255) then halt (Exited 1)
            else read_pixels h
        end
    end.


Definition bad_max_color (content : option string) : Prop :=
  exists h maxColor,
    read_header (fst (read_magic content)) (snd (read_magic content)) = Some h /\
    header_maxColor h = Some maxColor /\
    maxColor <> 255.

(** [void SaveImage (const Image& img, const char* path)]: the bytes written
    to the file. *)
Definition SaveImage (img : Image) : string :=
  "P6" +++ newline
  +++ show_Z (width img) +++ " " +++ show_Z (height img) +++ newline
  +++ "255" +++ newline
  +++ String.string_of_list_ascii (pixel img).

(** ** [main] *)

(** [for (cl_uint i = 0; i < count; ++i) body (i)] *)
Fixpoint for_each (l : list nat) (body : nat -> M unit) : M unit :=
  match l with
  | [] => ret tt
  | i :: rest => body i ;; for_each rest body
  end.

(** [std::string GetPlatformName (cl_platform_id id)]: the size is asked
    for, then the name; neither status is looked at. *)
Definition GetPlatformName (w : World) (id : nat) : M string :=
  _ <- call w (clGetPlatformInfo id) ;;
  _ <- call w (clGetPlatformInfo id) ;;
  ret (platformName w id).

Definition GetDeviceName (w : World) (id : nat) : M string :=
  _ <- call w (clGetDeviceInfo id) ;;
  _ <- call w (clGetDeviceInfo id) ;;
  ret (deviceName w id).

(** [cl_program CreateProgram (const std::string& source, cl_context)] *)
Definition CreateProgram (w : World) (source : string) : M unit :=
  error <- call w (clCreateProgramWithSource source) ;;
  CheckError error.

(** [std::string LoadKernel (const char* name)] *)
Definition LoadKernel (w : World) (name : string) : M string :=
  emit (ReadFile name) ;; ret (kernel_source w).

(** The host buffer after [clEnqueueReadImage]: on success every byte comes
    from the device; after a call that fails it holds what the runtime left
    there, which is the world's to say (untouched, it would still be all
    zero). *)
Definition read_back (w : World) (c : cl_call) (host : list ascii) : list ascii :=
  map (if cl_status w c =? CL_SUCCESS then device_pixels w else failed_pixels w)
      (seq 0 (List.length host)).

(** The seven release calls that end [main], in the order of the source. *)
Definition release_calls : list cl_call :=
  [ clReleaseMemObject OutputImage;
    clReleaseMemObject FilterWeightsBuffer;
    clReleaseMemObject InputImage;
    clReleaseCommandQueue;
    clReleaseKernel;
    clReleaseProgram;
    clReleaseContext ].

Section Main.

Variables rd rf cexp : R -> R.

(** [if (argc != 2) { printf (...); exit (1); }
    int filterSize = atoi (argv [1]);] *)
Definition read_arguments (argv : list string) : M Z :=
  match argv with
  | [] => halt Undefined
  | [_; argv1] =>
      let filterSize := atoi argv1 in
      if in_int filterSize then ret filterSize else halt Undefined
  | argv0 :: _ =>
      emit (Stdout ("Usage: "%string +++ argv0 +++ " <filter size>"%string +++ newline)) ;;
      halt (Exited 1)
  end.

(** Platforms, devices and the context. *)
Definition create_context (w : World) : M unit :=
  _ <- call w (clGetPlatformIDs 0) ;;
  (if (platformIdCount w =? 0)%nat then
     emit (Stderr ("No OpenCL platform found"%string +++ newline)) ;;
     halt (Exited 1)
   else
     emit (Stdout ("Found "%string +++ show_Z (Z.of_nat (platformIdCount w))
                   +++ " platform(s)"%string +++ newline))) ;;
  _ <- call w (clGetPlatformIDs (platformIdCount w)) ;;
  for_each (seq 0 (platformIdCount w)) (fun i =>
    name <- GetPlatformName w i ;;
    emit (Stdout (tab +++ " ("%string +++ show_Z (Z.of_nat i + 1) +++ ") : "%string
                  +++ name +++ newline))) ;;
  _ <- call w (clGetDeviceIDs 0) ;;
  (if (deviceIdCount w =? 0)%nat then
     emit (Stderr ("No OpenCL devices found"%string +++ newline)) ;;
     halt (Exited 1)
   else
     emit (Stdout ("Found "%string +++ show_Z (Z.of_nat (deviceIdCount w))
                   +++ " device(s)"%string +++ newline))) ;;
  _ <- call w (clGetDeviceIDs (deviceIdCount w)) ;;
  for_each (seq 0 (deviceIdCount w)) (fun i =>
    name <- GetDeviceName w i ;;
    emit (Stdout (tab +++ " ("%string +++ show_Z (Z.of_nat i + 1) +++ ") : "%string
                  +++ name +++ newline))) ;;
  error <- call w (clCreateContext (deviceIdCount w)) ;;
  CheckError error ;;
  emit (Stdout ("Context created"%string +++ newline)).

(** [float filter [2 * filterSize + 1][2 * filterSize + 1]], the kernel and
    the [assert] on their sizes.  The array bound is an [int] expression: a
    negative [filterSize] or an overflow is undefined.  The result is
    [filter] after the copy. *)
Definition make_filter (filterSize : Z) : M kernel_type :=
  if (filterSize <? 0) || negb (in_int (2 * filterSize + 1)) then halt Undefined
  else
    match produce2dGaussianKernel rd rf cexp (to_uint filterSize) with
    | None => halt Undefined
    | Some k =>
        if (2 * filterSize + 1) * (2 * filterSize + 1)
           =? Z.of_nat (List.length (nth 0%nat k [])) * Z.of_nat (List.length k)
        then ret k
        else halt Aborted
    end.

(** Program, build and kernel entry point. *)
Definition create_kernel (w : World) (filterSize : Z) : M unit :=
  source <- LoadKernel w "kernels/image.cl"%string ;;
  CreateProgram w source ;;
  let programOptions := "-D RADIUS="%string +++ show_Z filterSize in
  error <- call w (clBuildProgram (deviceIdCount w) programOptions) ;;
  CheckError error ;;
  error <- call w (clCreateKernel "Filter"%string) ;;
  CheckError error.

(** [const auto image = RGBtoRGBA (LoadImage (...));] *)
Definition load_input (w : World) : M Image :=
  emit (ReadFile "test.ppm"%string) ;;
  loaded <- LoadImage (test_ppm w) ;;
  match RGBtoRGBA loaded with
  | Some image => ret image
  | None => halt Undefined
  end.

(** From the creation of the device images to the written output file.
    The calls record the width and the height as the [int]s of the image.
    The interface takes them as [size_t]: the same numbers as long as they
    are not negative, and numbers near [2^64] for negative ones, which the
    recorded calls do not show.  The host pointer of the input image is
    recorded as the bytes of the pixel vector; of an empty vector [data ()]
    need not point to anything. *)
Definition convolve (w : World) (filter : kernel_type) (image : Image) : M unit :=
  error <- call w (clCreateImage2D (width image) (height image) (Some (pixel image))) ;;
  CheckError error ;;
  error <- call w (clCreateImage2D (width image) (height image) None) ;;
  CheckError error ;;
  error <- call w (clCreateBuffer (List.concat filter)) ;;
  CheckError error ;;
  _ <- call w (clSetKernelArg 0 InputImage) ;;
  _ <- call w (clSetKernelArg 1 FilterWeightsBuffer) ;;
  _ <- call w (clSetKernelArg 2 OutputImage) ;;
  error <- call w clCreateCommandQueue ;;
  CheckError error ;;
  error <- call w (clEnqueueNDRangeKernel (width image) (height image)) ;;
  CheckError error ;;
  let result :=
    mkImage (repeat NUL (List.length (pixel image))) (width image) (height image) in
  let read := clEnqueueReadImage (width result) (height result) in
  _ <- call w read ;;
  let result :=
    mkImage (read_back w read (pixel result)) (width result) (height result) in
  match RGBAtoRGB result with
  | Some output => emit (WriteFile "output.ppm"%string (SaveImage output))
  | None => halt Undefined
  end.

(** The release calls; no status is looked at. *)
Definition release_all (w : World) : M unit :=
  _ <- call w (clReleaseMemObject OutputImage) ;;
  _ <- call w (clReleaseMemObject FilterWeightsBuffer) ;;
  _ <- call w (clReleaseMemObject InputImage) ;;
  _ <- call w clReleaseCommandQueue ;;
  _ <- call w clReleaseKernel ;;
  _ <- call w clReleaseProgram ;;
  _ <- call w clReleaseContext ;;
  ret tt.

(** [int main (int argc, char* argv[])] *)
Definition main (w : World) (argv : list string) : M unit :=
  filterSize <- read_arguments argv ;;
  create_context w ;;
  filter <- make_filter filterSize ;;
  create_kernel w filterSize ;;
  image <- load_input w ;;
  convolve w filter image ;;
  release_all w.

(** A run of the program: the events and the ending.  Falling off the end
    of [main] is exit status 0. *)
Definition run (w : World) (argv : list string) : list event * ending :=
  match main w argv with
  | (tr, Stop e) => (tr, e)
  | (tr, Continue _) => (tr, Exited 0)
  end.

End Main.

(** ** Reading traces *)

Definition is_release (c : cl_call) : bool :=
  match c with
  | clReleaseMemObject _ | clReleaseCommandQueue | clReleaseKernel
  | clReleaseProgram | clReleaseContext => true
  | _ => false
  end.

(** The release calls of a trace, in order. *)
Fixpoint releases (tr : list event) : list cl_call :=
  match tr with
  | [] => []
  | Call c :: rest => if is_release c then c :: releases rest else releases rest
  | _ :: rest => releases rest
  end.

Definition not_release (e : event) : bool :=
  match e with
  | Call c => negb (is_release c)
  | _ => true
  end.

Definition not_write (e : event) : bool :=
  match e with
  | WriteFile _ _ => false
  | _ => true
  end.

Definition not_exit_0 (e : ending) : bool :=
  match e with
  | Exited 0 => false
  | _ => true
  end.

Definition is_exit_1 (e : ending) : bool :=
  match e with
  | Exited 1 => true
  | _ => false
  end.

(** The calls whose status [main] hands to [CheckError]. *)
Definition checked_call (c : cl_call) : bool :=
  match c with
  | clCreateContext _ | clCreateProgramWithSource _ | clBuildProgram _ _
  | clCreateKernel _ | clCreateImage2D _ _ _ | clCreateBuffer _
  | clCreateCommandQueue | clEnqueueNDRangeKernel _ _ => true
  | _ => false
  end.

(** Every event of a computation satisfies [P], and if the process ends in
    it, the ending satisfies [Q]. *)
Definition holds {A : Type} (P : event -> bool) (Q : ending -> bool) (m : M A) : Prop :=
  forallb P (fst m) = true /\
  match snd m with
  | Stop e => Q e = true
  | Continue _ => True
  end.


(** The release discipline of [main]: a computation that goes on has ended
    with exactly the seven release calls, in order, and has made no other;
    one in which the process ends has made none and does not end with
    status 0. *)
Definition ends_with_releases (tr : list event) : Prop :=
  exists pre,
    tr = pre ++ map Call release_calls /\ forallb not_release pre = true.

Definition releases_at_end {A : Type} (m : M A) : Prop :=
  match snd m with
  | Continue _ => ends_with_releases (fst m)
  | Stop e => forallb not_release (fst m) = true /\ not_exit_0 e = true
  end.

(** The error discipline of [main]: a computation that goes on has seen no
    checked call fail; one in which the process ends has ended right after
    the report of the first checked call that failed, with status 1. *)
Definition no_failure (w : World) (tr : list event) : Prop :=
  forall c, In (Call c) tr -> checked_call c = true -> cl_status w c = CL_SUCCESS.

Definition reported (w : World) (tr : list event) (e : ending) : Prop :=
  forall c pre post,
    tr = pre ++ Call c :: post ->
    checked_call c = true -> cl_status w c <> CL_SUCCESS ->
    post = [error_report (cl_status w c)] /\ e = Exited 1.

Definition disciplined {A : Type} (w : World) (m : M A) : Prop :=
  match snd m with
  | Continue _ => no_failure w (fst m)
  | Stop e => reported w (fst m) e
  end.

(** The arguments for which [main] is defined: at least the program name,
    and when there is exactly one argument, a radius that [filter] and the
    kernel can be built for. *)
Definition arguments_defined (argv : list string) : Prop :=
  match argv with
  | [] => False
  | [_; argv1] => 0 <= atoi argv1 < 1073741824
  | _ => True
  end.

(** ** Sample worlds *)

(** One platform, one device, a 1x1 image; the statuses are given.  A
    readback that fails leaves the buffer as it was, all zero. *)
Definition sample_ppm : string :=
  "P6" +++ newline +++ "1 1" +++ newline +++ "255" +++ newline +++ "abc".

Definition sample_world (status : cl_call -> Z) (ppm : option string) : World :=
  mkWorld 1 (fun _ => "platform"%string) 1 (fun _ => "device"%string)
          status "kernel source"%string ppm (fun _ => "x"%char) (fun _ => NUL).

Definition all_succeed (c : cl_call) : Z := CL_SUCCESS.

Definition dispatch_fails (c : cl_call) : Z :=
  match c with
  | clEnqueueNDRangeKernel _ _ => -5
  | _ => CL_SUCCESS
  end.

Definition readback_fails (c : cl_call) : Z :=
  match c with
  | clEnqueueReadImage _ _ => -5
  | _ => CL_SUCCESS
  end.

Definition context_fails (c : cl_call) : Z :=
  match c with
  | clCreateContext _ => -6
  | _ => CL_SUCCESS
  end.

Definition not_checked (e : event) : bool :=
  match e with
  | Call c => negb (checked_call c)
  | _ => true
  end.

Definition any_ending (e : ending) : bool := true.


Definition deep_colour_ppm : string :=
  "P6" +++ newline +++ "1 1" +++ newline +++ "65535" +++ newline +++ "abcdef".

(** The first event of a computation. *)
Definition starts_with {A : Type} (e : event) (m : M A) : Prop :=
  exists tr, fst m = e :: tr.

(** ** More ways to read the kernel, the files and the runs *)

(** The index opposite to [i] in a row or column of [2 * r + 1] cells. *)
Definition mirror (r : Z) (i : nat) : nat := (Z.to_nat (2 * r) - i)%nat.

(** The one-dimensional weights over the reals: the Gaussian at each of the
    [2 * r + 1] positions, divided by the sum over all positions. *)
Definition weights_sum (r : Z) : R :=
  sum_list (map (fun i => gaussian_spec (IZR (Z.of_nat i)) (IZR r) (IZR r / 2))
                (seq 0 (Z.to_nat (2 * r + 1)))).

Definition weight_spec (r : Z) (i : nat) : R :=
  (gaussian_spec (IZR (Z.of_nat i)) (IZR r) (IZR r / 2) / weights_sum r)%R.

Definition entries_positive (k : kernel_type) : Prop :=
  Forall (Forall (fun x => (0 < x)%R)) k.

(** Lines of text, as [getline] sees them. *)
Fixpoint no_newline (s : string) : bool :=
  match s with
  | String.String c t => negb (c =? "010")%char && no_newline t
  | String.EmptyString => true
  end.

(** A line the loop of [LoadImage] skips: empty, or starting with '#'. *)
Definition skipped_line (l : string) : bool :=
  no_newline l &&
  match l with
  | String.EmptyString => true
  | String.String c _ => (c =? "#")%char
  end.

(** Lines, each followed by a newline. *)
Fixpoint lines (ls : list string) : string :=
  match ls with
  | [] => String.EmptyString
  | l :: rest => l +++ newline +++ lines rest
  end.

(** An image whose dimensions are [int]s and whose pixel vector has room
    for [width * height] pixels of three bytes, the size being an [int]
    too. *)
Definition well_sized (img : Image) : Prop :=
  in_int (width img) = true /\
  in_int (height img) = true /\
  0 <= width img * height img * 3 <= INT_MAX.

Definition data_size (img : Image) : nat :=
  Z.to_nat (width img * height img * 3).

(** Every call whose status [main] checks succeeds. *)
Definition all_checked_succeed (w : World) : Prop :=
  forall c, checked_call c = true -> cl_status w c = CL_SUCCESS.

(** The line printed for entry [i] of the list of platforms or devices. *)
Definition listing_line (i : nat) (name : string) : string :=
  tab +++ " (" +++ show_Z (Z.of_nat i + 1) +++ ") : " +++ name +++ newline.

(** The events of the enumeration of the platforms. *)
Definition platform_query (e : event) : bool :=
  match e with
  | Call (clGetPlatformIDs _) | Call (clGetPlatformInfo _) | Stdout _ => true
  | _ => false
  end.

(** A trace in which one file is written, [output.ppm], once. *)
Definition written_once (tr : list event) : Prop :=
  exists pre content post,
    tr = pre ++ WriteFile "output.ppm" content :: post /\
    forallb not_write pre = true /\ forallb not_write post = true.

(** The write discipline of [main]: a computation that goes on has written
    [output.ppm] and nothing else; one in which the process ends has written
    nothing and does not end with status 0. *)
Definition writes_output {A : Type} (m : M A) : Prop :=
  match snd m with
  | Continue _ => written_once (fst m)
  | Stop e => forallb not_write (fst m) = true /\ not_exit_0 e = true
  end.

(** The number of pixels of an image, by its dimensions. *)
Definition pixel_count (img : Image) : nat := Z.to_nat (width img * height img).

(** [create_context] from the query for the number of devices on: the part
    that follows the list of the platforms. *)
Definition create_context_devices (w : World) : M unit :=
  _ <- call w (clGetDeviceIDs 0) ;;
  (if (deviceIdCount w =? 0)%nat then
     emit (Stderr ("No OpenCL devices found"%string +++ newline)) ;;
     halt (Exited 1)
   else
     emit (Stdout ("Found "%string +++ show_Z (Z.of_nat (deviceIdCount w))
                   +++ " device(s)"%string +++ newline))) ;;
  _ <- call w (clGetDeviceIDs (deviceIdCount w)) ;;
  for_each (seq 0 (deviceIdCount w)) (fun i =>
    name <- GetDeviceName w i ;;
    emit (Stdout (tab +++ " ("%string +++ show_Z (Z.of_nat i + 1) +++ ") : "%string
                  +++ name +++ newline))) ;;
  error <- call w (clCreateContext (deviceIdCount w)) ;;
  CheckError error ;;
  emit (Stdout ("Context created"%string +++ newline)).

(** A file on which [LoadImage] returns an image or exits with status 1. *)
Definition loads_or_rejects (content : option string) : Prop :=
  match snd (LoadImage content) with
  | Continue _ => True
  | Stop e => e = Exited 1
  end.

(** No condition on the events. *)
Definition any_event (e : event) : bool := true.
(** ** IEEE 754 arithmetic: rounding to nearest, ties to even *)

Section Rounding.

Local Open Scope R_scope.

Definition pow2 (e : Z) : R := powerRZ 2 e.






End Rounding.
(** * Properties *)

(** ** Index loops over lists *)

Section IndexLoops.

Local Open Scope nat_scope.

Context {A : Type}.

Lemma list_set_length (l : list A) :
  forall i x, List.length (list_set l i x) = List.length l.
Proof.
  induction l as [|h t IH]; intros [|i] x; simpl; auto.
Qed.

Lemma list_set_app (pre suf : list A) (a x : A) :
  list_set (pre ++ a :: suf) (List.length pre) x = pre ++ x :: suf.
Proof.
  induction pre as [|h t IH]; simpl; [reflexivity | now rewrite IH].
Qed.

Lemma list_set_twice (l : list A) :
  forall i x y, list_set (list_set l i x) i y = list_set l i y.
Proof.
  induction l as [|h t IH]; intros [|i] x y; simpl; auto.
  now rewrite IH.
Qed.

Lemma list_set_nth (l : list A) (d : A) :
  forall i x, i < List.length l -> nth i (list_set l i x) d = x.
Proof.
  induction l as [|h t IH]; intros [|i] x Hi; simpl in *; try lia; auto.
  apply IH. lia.
Qed.

Lemma nth_app_at (pre suf : list A) (a d : A) :
  nth (List.length pre) (pre ++ a :: suf) d = a.
Proof.
  induction pre as [|h t IH]; simpl; auto.
Qed.

Lemma map_index_const {B : Type} (f : A -> B) (l : list A) :
  forall i, map_index (fun _ x => f x) i l = map f l.
Proof.
  induction l as [|h t IH]; intros i; simpl; [reflexivity | now rewrite IH].
Qed.

Lemma map_index_seq {B : Type} (f : nat -> B) (l : list A) :
  forall i, map_index (fun j _ => f j) i l = map f (seq i (List.length l)).
Proof.
  induction l as [|h t IH]; intros i; simpl; [reflexivity | now rewrite IH].
Qed.

(** A loop [for (i = start; i < size; i++) v[i] = H (i, v[i])], entered with
    the part [pre] of the vector already treated, rewrites the rest [suf]
    element by element. *)
Lemma index_loop (G : list A -> nat -> list A) (H : nat -> A -> A) (d : A) :
  (forall l i, i < List.length l -> G l i = list_set l i (H i (nth i l d))) ->
  forall suf pre,
    fold_left G (seq (List.length pre) (List.length suf)) (pre ++ suf)
    = pre ++ map_index H (List.length pre) suf.
Proof.
  intros HG. induction suf as [|a suf IH]; intros pre.
  - reflexivity.
  - simpl. rewrite HG by (rewrite length_app; simpl; lia).
    rewrite nth_app_at, list_set_app.
    replace (pre ++ H (List.length pre) a :: suf)
      with ((pre ++ [H (List.length pre) a]) ++ suf)
      by (rewrite <- app_assoc; reflexivity).
    replace (S (List.length pre)) with (List.length (pre ++ [H (List.length pre) a]))
      by (rewrite length_app; simpl; lia).
    rewrite IH. rewrite <- app_assoc. reflexivity.
Qed.

Lemma index_loop_all (G : list A -> nat -> list A) (H : nat -> A -> A) (d : A) :
  (forall l i, i < List.length l -> G l i = list_set l i (H i (nth i l d))) ->
  forall l, fold_left G (seq 0 (List.length l)) l = map_index H 0 l.
Proof.
  intros HG l. exact (index_loop G H d HG l []).
Qed.

End IndexLoops.

Section MoreLoops.

Local Open Scope nat_scope.

(** A loop that only touches row [row] of a matrix is a loop on that row. *)
Lemma row_loop {A : Type} (f : list A -> nat -> list A) (row : nat) (cols : list nat) :
  forall k : list (list A),
    row < List.length k ->
    fold_left (fun k col => list_set k row (f (nth row k []) col)) cols k
    = list_set k row (fold_left f cols (nth row k [])).
Proof.
  induction cols as [|c cols IH]; intros k Hrow; simpl.
  - clear -Hrow. revert row Hrow.
    induction k as [|h t IHk]; intros [|row] Hrow; simpl in *; try lia; auto.
    f_equal. apply IHk. lia.
  - rewrite IH by (rewrite list_set_length; exact Hrow).
    rewrite list_set_nth by exact Hrow.
    apply list_set_twice.
Qed.

Lemma fold_left_pair {S1 S2 I : Type} (F : S1 -> I -> S1) (G : S2 -> I -> S2)
    (body : S1 * S2 -> I -> S1 * S2) :
  (forall a b i, body (a, b) i = (F a i, G b i)) ->
  forall l a b, fold_left body l (a, b) = (fold_left F l a, fold_left G l b).
Proof.
  intros Hbody. induction l as [|i l IH]; intros a b; simpl; [reflexivity|].
  rewrite Hbody. apply IH.
Qed.

Lemma fold_left_map {S1 I J : Type} (G : S1 -> J -> S1) (f : I -> J) :
  forall l s, fold_left (fun s i => G s (f i)) l s = fold_left G (map f l) s.
Proof.
  induction l as [|i l IH]; intros s; simpl; [reflexivity | apply IH].
Qed.

End MoreLoops.

(** ** The weight matrix: what the loops compute *)

Section KernelStructure.

Variables rd rf cexp : R -> R.

Local Open Scope nat_scope.

Local Abbreviation product := (product rd rf cexp).
Local Abbreviation computed_row := (computed_row rd rf cexp).
Local Abbreviation normalize_step sum := (fun x : R => to_float rf (ddiv rd x sum)).

Lemma normalize_row_spec (sum : R) (k : kernel_type) (row : nat) :
  row < List.length k ->
  normalize_row rd rf sum k row
  = list_set k row (map (normalize_step sum) (nth row k [])).
Proof.
  intros Hrow. unfold normalize_row, normalize_cell, set_cell, get_cell.
  rewrite (row_loop
             (fun rw col => list_set rw col (normalize_step sum (nth col rw 0%R)))
             row _ k Hrow).
  apply (f_equal (list_set k row)).
  rewrite (index_loop_all _ (fun _ x => normalize_step sum x) 0%R)
    by (intros; reflexivity).
  apply map_index_const.
Qed.

Lemma normalize_spec (sum : R) (k : kernel_type) :
  normalize rd rf sum k = map (map (normalize_step sum)) k.
Proof.
  unfold normalize.
  rewrite (index_loop_all _ (fun _ rw => map (normalize_step sum) rw) []).
  - apply map_index_const.
  - intros l i Hi. apply normalize_row_spec. exact Hi.
Qed.

(** One cell of the first loops, with [sigma] as [produce2dGaussianKernel]
    sets it. *)
Lemma compute_cell_spec (r : Z) (row col : nat) (k : kernel_type) (s : R) :
  compute_cell rd rf cexp r (ddiv rd (IZR r) 2) row col (k, s)
  = (set_cell k row col (to_float rf (product r row col)),
     dadd rd s (product r row col)).
Proof. reflexivity. Qed.

Lemma compute_row_spec (r : Z) (k : kernel_type) (s : R) (row : nat) :
  row < List.length k ->
  compute_row rd rf cexp r (ddiv rd (IZR r) 2) (k, s) row
  = (list_set k row
       (map (fun col => to_float rf (product r row col))
            (seq 0 (List.length (nth row k [])))),
     fold_left (dadd rd)
       (map (product r row) (seq 0 (List.length (nth row k [])))) s).
Proof.
  intros Hrow. unfold compute_row. simpl fst.
  rewrite (fold_left_pair
             (fun k col => set_cell k row col (to_float rf (product r row col)))
             (fun s col => dadd rd s (product r row col)))
    by (intros; apply compute_cell_spec).
  f_equal.
  - unfold set_cell.
    rewrite (row_loop
               (fun rw col => list_set rw col (to_float rf (product r row col)))
               row _ k Hrow).
    apply (f_equal (list_set k row)).
    rewrite (index_loop_all _ (fun col _ => to_float rf (product r row col)) 0%R)
      by (intros; reflexivity).
    apply map_index_seq.
  - apply fold_left_map.
Qed.

Lemma cons_middle {A : Type} (pre : list A) (x : A) (l : list A) :
  pre ++ x :: l = (pre ++ [x]) ++ l.
Proof. rewrite <- app_assoc. reflexivity. Qed.

Lemma compute_rows_spec (r : Z) (side : nat) :
  forall m pre s,
    fold_left (compute_row rd rf cexp r (ddiv rd (IZR r) 2))
      (seq (List.length pre) m) (pre ++ repeat (repeat 0%R side) m, s)
    = (pre ++ map (computed_row r side) (seq (List.length pre) m),
       fold_left (dadd rd)
         (flat_map (fun row => map (product r row) (seq 0 side))
                   (seq (List.length pre) m)) s).
Proof.
  induction m as [|m IH]; intros pre s.
  - reflexivity.
  - simpl seq. simpl repeat. simpl fold_left at 1.
    rewrite compute_row_spec by (rewrite length_app; simpl; lia).
    rewrite nth_app_at, list_set_app, repeat_length.
    fold (computed_row r side (List.length pre)).
    rewrite (cons_middle pre).
    replace (S (List.length pre))
      with (List.length (pre ++ [computed_row r side (List.length pre)]))
      by (rewrite length_app; simpl; lia).
    rewrite IH.
    rewrite <- app_assoc. simpl. rewrite fold_left_app. reflexivity.
Qed.

Lemma compute_values_spec (r : Z) (side : nat) :
  compute_values rd rf cexp r (ddiv rd (IZR r) 2)
    (repeat (repeat 0%R side) side, 0%R)
  = (map (computed_row r side) (seq 0 side), total rd rf cexp r side).
Proof.
  unfold compute_values. simpl fst. rewrite repeat_length.
  exact (compute_rows_spec r side side [] 0%R).
Qed.

Lemma side_in_range (r : Z) :
  radius_in_range r ->
  to_uint (2 * r + 1) = (2 * r + 1)%Z /\ (INT_MAX <? 2 * r + 1)%Z = false.
Proof.
  unfold radius_in_range, to_uint, UINT_MOD, INT_MAX. intros H. split.
  - apply Z.mod_small. lia.
  - apply Z.ltb_ge. lia.
Qed.

(** The matrix returned for any non-zero radius whose wrapped side fits an
    [int], in closed form. *)
Lemma produce2dGaussianKernel_general (r : Z) :
  r <> 0%Z -> (to_uint (2 * r + 1) <= INT_MAX)%Z ->
  produce2dGaussianKernel rd rf cexp r
  = Some (map (fun row =>
                 map (fun col =>
                        to_float rf
                          (ddiv rd (to_float rf (product r row col))
                             (total rd rf cexp r (Z.to_nat (to_uint (2 * r + 1))))))
                     (seq 0 (Z.to_nat (to_uint (2 * r + 1)))))
              (seq 0 (Z.to_nat (to_uint (2 * r + 1))))).
Proof.
  intros Hr Hside.
  unfold produce2dGaussianKernel.
  replace (r =? 0)%Z with false by (symmetry; apply Z.eqb_neq; exact Hr).
  cbv zeta.
  replace (INT_MAX <? to_uint (2 * r + 1))%Z with false
    by (symmetry; apply Z.ltb_ge; exact Hside).
  rewrite compute_values_spec.
  rewrite normalize_spec. rewrite map_map. f_equal.
  apply map_ext. intros row. unfold computed_row.
  rewrite map_map. reflexivity.
Qed.

(** The matrix returned for a radius in range. *)
Lemma produce2dGaussianKernel_spec (r : Z) :
  radius_in_range r ->
  produce2dGaussianKernel rd rf cexp r
  = Some (map (fun row => map (normalized_cell rd rf cexp r row)
                               (seq 0 (Z.to_nat (2 * r + 1))))
              (seq 0 (Z.to_nat (2 * r + 1)))).
Proof.
  intros Hr. destruct (side_in_range r Hr) as [Hside Hmax].
  rewrite produce2dGaussianKernel_general.
  - rewrite Hside. reflexivity.
  - unfold radius_in_range in Hr. lia.
  - rewrite Hside. apply Z.ltb_ge. exact Hmax.
Qed.

End KernelStructure.

(** ** The weight matrix: shape and cell formula *)

Section KernelFormula.

Local Open Scope nat_scope.

Lemma fold_left_Rplus (l : list R) :
  forall s, fold_left Rplus l s = (s + sum_list l)%R.
Proof.
  induction l as [|x l IH]; intros s; simpl.
  - lra.
  - rewrite IH. lra.
Qed.

Lemma gaussian_exact (x mu sigma : R) :
  gaussian exact_rd exact_rf exact_exp x mu sigma = gaussian_spec x mu sigma.
Proof.
  unfold gaussian, gaussian_spec, to_float, dmul, ddiv, dsub,
    exact_rd, exact_rf, exact_exp.
  f_equal. simpl. lra.
Qed.

Lemma product_exact (r : Z) (row col : nat) :
  product exact_rd exact_rf exact_exp r row col = product_spec r row col.
Proof.
  unfold product, product_spec, fmul. rewrite !gaussian_exact. reflexivity.
Qed.

Lemma total_exact (r : Z) :
  total exact_rd exact_rf exact_exp r (Z.to_nat (2 * r + 1)) = total_spec r.
Proof.
  unfold total, total_spec, all_products.
  change (dadd exact_rd) with Rplus.
  rewrite fold_left_Rplus, Rplus_0_l.
  f_equal. apply flat_map_ext. intros row. apply map_ext. intros col.
  apply product_exact.
Qed.

Lemma normalized_cell_exact (r : Z) (row col : nat) :
  normalized_cell exact_rd exact_rf exact_exp r row col = kernel_spec r row col.
Proof.
  unfold normalized_cell, kernel_spec. rewrite total_exact, product_exact.
  reflexivity.
Qed.

Lemma nth_map_seq {B : Type} (f : nat -> B) (n i : nat) (d : B) :
  i < n -> nth i (map f (seq 0 n)) d = f i.
Proof.
  intros Hi.
  rewrite (nth_indep _ d (f 0)) by (rewrite length_map, length_seq; exact Hi).
  rewrite (map_nth f (seq 0 n) 0 i). rewrite seq_nth by exact Hi. reflexivity.
Qed.

Lemma index_in_side (r : Z) (i : nat) :
  radius_in_range r -> (Z.of_nat i <= 2 * r)%Z -> i < Z.to_nat (2 * r + 1).
Proof. unfold radius_in_range. lia. Qed.

End KernelFormula.

(** C3.  For radius 0 the result is exactly the 1x1 matrix [[1.0]]: the
    early return is taken, whatever the arithmetic does, so neither [sigma]
    nor any division is computed. *)
Theorem produce2dGaussianKernel_radius_0 (rd rf cexp : R -> R) :
  produce2dGaussianKernel rd rf cexp 0 = Some [[1%R]].
Proof. reflexivity. Qed.

Lemma matrix_is_square {B : Type} (f : nat -> nat -> B) (side : nat) :
  List.length (map (fun row => map (f row) (seq 0 side)) (seq 0 side)) = side /\
  Forall (fun row => List.length row = side)
         (map (fun row => map (f row) (seq 0 side)) (seq 0 side)).
Proof.
  split; [rewrite length_map, length_seq; reflexivity|].
  apply Forall_forall. intros rw Hin.
  apply in_map_iff in Hin. destruct Hin as (row & <- & _).
  rewrite length_map, length_seq. reflexivity.
Qed.

(** At radius 2^31 the side [2 * r + 1] wraps to 1 in [unsigned int]: the
    matrix has a single cell. *)
Lemma produce2dGaussianKernel_wrapped (rd rf cexp : R -> R) :
  exists x : R, produce2dGaussianKernel rd rf cexp 2147483648 = Some [[x]].
Proof.
  eexists. rewrite produce2dGaussianKernel_general.
  - change (to_uint (2 * 2147483648 + 1)) with 1%Z.
    change (Z.to_nat 1) with 1%nat. simpl map. reflexivity.
  - discriminate.
  - discriminate.
Qed.

(** C2, for the radii the source is defined on (1 <= r < 2^30).  The matrix
    is square of side [2r+1].  With [sigma = r / 2] (a [double] division),
    each cell [(row, col)] is the product
    [gaussian (row, r, sigma) * gaussian (col, r, sigma)] divided by the sum
    of all the products, every operation rounded as the source rounds it
    ([normalized_cell]); without rounding this is
    [exp (-0.5 * ((row - r) / sigma)^2) * exp (-0.5 * ((col - r) / sigma)^2)]
    over the sum of these products ([kernel_spec]). *)
Theorem kernel_cells_are_normalized_products (rd rf cexp : R -> R) (r : Z) :
  radius_in_range r ->
  normalized_products rd rf cexp r /\
  (forall row col : nat,
      normalized_cell exact_rd exact_rf exact_exp r row col
      = kernel_spec r row col).
Proof.
  intros Hr. split; [|intros; apply normalized_cell_exact].
  eexists. split; [apply produce2dGaussianKernel_spec; exact Hr|].
  split; [apply matrix_is_square|].
  intros row col Hrow Hcol.
  pose proof (index_in_side r row Hr Hrow) as Hrow'.
  pose proof (index_in_side r col Hr Hcol) as Hcol'.
  unfold get_cell.
  rewrite (nth_map_seq _ _ _ _ Hrow').
  apply nth_map_seq. exact Hcol'.
Qed.

Lemma kernel_cells_are_normalized_products_witness :
  radius_in_range 1 /\
  (normalized_products exact_rd exact_rf exact_exp 1 /\
   (forall row col : nat,
      normalized_cell exact_rd exact_rf exact_exp 1 row col
      = kernel_spec 1 row col)).
Proof.
  assert (H : radius_in_range 1) by (unfold radius_in_range; lia).
  split; [exact H|].
  exact (kernel_cells_are_normalized_products exact_rd exact_rf exact_exp 1 H).
Defined.

(** C2 as stated fails at radius 2^31: the matrix returned has one row, not
    [2r+1]. *)
Lemma normalized_products_fails_when_side_wraps :
  ~ normalized_products exact_rd exact_rf exact_exp 2147483648.
Proof.
  intros (k & Hk & [Hlen _] & _).
  destruct (produce2dGaussianKernel_wrapped exact_rd exact_rf exact_exp) as (x & Hx).
  rewrite Hx in Hk. injection Hk as <-.
  simpl List.length in Hlen. lia.
Qed.

(** ** The weight matrix: the peak is at the centre *)

(** Rounding to nearest is monotone and symmetric under change of sign; the
    exponential is taken to be monotone and non-negative. *)
Section KernelMonotone.

Variables rd rf cexp : R -> R.

Hypothesis rd_mono : forall x y : R, (x <= y)%R -> (rd x <= rd y)%R.
Hypothesis rd_odd : forall x : R, rd (- x) = (- rd x)%R.
Hypothesis rf_mono : forall x y : R, (x <= y)%R -> (rf x <= rf y)%R.
Hypothesis rf_zero : rf 0 = 0%R.
Hypothesis cexp_mono : forall x y : R, (x <= y)%R -> (cexp x <= cexp y)%R.
Hypothesis cexp_nonneg : forall x : R, (0 <= cexp x)%R.

Local Open Scope R_scope.

Lemma rd_zero : rd 0 = 0.
Proof.
  pose proof (rd_odd 0) as H. rewrite Ropp_0 in H. lra.
Qed.

Lemma rd_nonneg (x : R) : 0 <= x -> 0 <= rd x.
Proof. intros H. rewrite <- rd_zero. apply rd_mono. exact H. Qed.

Lemma rd_nonpos (x : R) : x <= 0 -> rd x <= 0.
Proof. intros H. rewrite <- rd_zero. apply rd_mono. exact H. Qed.

Lemma rf_nonneg (x : R) : 0 <= x -> 0 <= rf x.
Proof. intros H. rewrite <- rf_zero. apply rf_mono. exact H. Qed.

Lemma quotient_lower (a b d : R) : 0 < d -> b * d <= a -> b <= a / d.
Proof.
  intros Hd H. apply (Rmult_le_reg_r d); [exact Hd|].
  replace (a / d * d) with a by (field; lra). exact H.
Qed.

Lemma quotient_upper (a b d : R) : 0 < d -> a <= b * d -> a / d <= b.
Proof.
  intros Hd H. apply (Rmult_le_reg_r d); [exact Hd|].
  replace (a / d * d) with a by (field; lra). exact H.
Qed.

Lemma Rinv_nonneg (x : R) : 0 <= x -> 0 <= / x.
Proof.
  intros [H | H].
  - left. apply Rinv_0_lt_compat. exact H.
  - subst x. rewrite Rinv_0. lra.
Qed.

Local Abbreviation scaled := (scaled rd).
Local Abbreviation exponent := (exponent rd).

Lemma gaussian_unfold (x mu sigma : R) :
  gaussian rd rf cexp x mu sigma = rf (cexp (exponent (scaled sigma (x - mu)))).
Proof. reflexivity. Qed.

Lemma scaled_odd (sigma d : R) : scaled sigma (- d) = - scaled sigma d.
Proof.
  unfold scaled, ddiv. rewrite rd_odd.
  replace (- rd d / sigma) with (- (rd d / sigma)) by (unfold Rdiv; ring).
  apply rd_odd.
Qed.

Lemma exponent_even (a : R) : exponent (- a) = exponent a.
Proof.
  unfold exponent, dmul.
  replace (-0.5 * - a) with (- (-0.5 * a)) by ring.
  rewrite rd_odd. f_equal. ring.
Qed.

Lemma scaled_mono (sigma d1 d2 : R) :
  0 <= sigma -> 0 <= d1 <= d2 ->
  0 <= scaled sigma d1 <= scaled sigma d2.
Proof.
  intros Hs [H1 H2]. unfold scaled, ddiv.
  pose proof (Rinv_nonneg sigma Hs) as Hinv.
  pose proof (rd_nonneg d1 H1) as Hd1.
  pose proof (rd_mono d1 d2 H2) as Hd12.
  split.
  - apply rd_nonneg. unfold Rdiv. apply Rmult_le_pos; assumption.
  - apply rd_mono. unfold Rdiv. apply Rmult_le_compat_r; assumption.
Qed.

Lemma exponent_antitone (a1 a2 : R) :
  0 <= a1 <= a2 -> exponent a2 <= exponent a1.
Proof.
  intros [H1 H2]. unfold exponent, dmul.
  assert (Hu : rd (-0.5 * a2) <= rd (-0.5 * a1)) by (apply rd_mono; lra).
  assert (Hu1 : rd (-0.5 * a1) <= 0) by (apply rd_nonpos; lra).
  apply rd_mono.
  apply Rle_trans with (rd (-0.5 * a1) * a2).
  - apply Rmult_le_compat_r; lra.
  - nra.
Qed.

Lemma gaussian_abs (x mu sigma : R) :
  gaussian rd rf cexp x mu sigma
  = rf (cexp (exponent (scaled sigma (Rabs (x - mu))))).
Proof.
  rewrite gaussian_unfold. unfold Rabs.
  destruct (Rcase_abs (x - mu)); [|reflexivity].
  rewrite scaled_odd, exponent_even. reflexivity.
Qed.

(** The factor decreases with the distance to the centre. *)
Lemma gaussian_antitone (x1 x2 mu sigma : R) :
  0 <= sigma -> Rabs (x1 - mu) <= Rabs (x2 - mu) ->
  gaussian rd rf cexp x2 mu sigma <= gaussian rd rf cexp x1 mu sigma.
Proof.
  intros Hs Habs. rewrite !gaussian_abs.
  apply rf_mono, cexp_mono, exponent_antitone.
  apply scaled_mono; [exact Hs|].
  split; [apply Rabs_pos | exact Habs].
Qed.

Lemma gaussian_nonneg (x mu sigma : R) : 0 <= gaussian rd rf cexp x mu sigma.
Proof. rewrite gaussian_unfold. apply rf_nonneg, cexp_nonneg. Qed.

Lemma sigma_nonneg (r : Z) : (0 <= r)%Z -> 0 <= ddiv rd (IZR r) 2.
Proof.
  intros Hr. unfold ddiv. apply rd_nonneg.
  apply IZR_le in Hr. lra.
Qed.

Lemma index_distance (r : Z) (i j : nat) :
  (Z.abs (Z.of_nat i - r) <= Z.abs (Z.of_nat j - r))%Z ->
  Rabs (IZR (Z.of_nat i) - IZR r) <= Rabs (IZR (Z.of_nat j) - IZR r).
Proof.
  intros H. rewrite <- !minus_IZR, <- !abs_IZR. apply IZR_le. exact H.
Qed.

Lemma product_antitone (r : Z) (row col row' col' : nat) :
  (0 <= r)%Z ->
  (Z.abs (Z.of_nat row - r) <= Z.abs (Z.of_nat row' - r))%Z ->
  (Z.abs (Z.of_nat col - r) <= Z.abs (Z.of_nat col' - r))%Z ->
  product rd rf cexp r row' col' <= product rd rf cexp r row col.
Proof.
  intros Hr Hrow Hcol. unfold product, fmul. apply rf_mono.
  pose proof (sigma_nonneg r Hr) as Hs.
  apply Rmult_le_compat.
  - apply gaussian_nonneg.
  - apply gaussian_nonneg.
  - apply gaussian_antitone; [exact Hs | apply index_distance; exact Hrow].
  - apply gaussian_antitone; [exact Hs | apply index_distance; exact Hcol].
Qed.

Lemma product_nonneg (r : Z) (row col : nat) :
  0 <= product rd rf cexp r row col.
Proof.
  unfold product, fmul. apply rf_nonneg.
  apply Rmult_le_pos; apply gaussian_nonneg.
Qed.

Lemma dadd_fold_nonneg (l : list R) :
  Forall (fun x => 0 <= x) l ->
  forall s, 0 <= s -> 0 <= fold_left (dadd rd) l s.
Proof.
  induction 1 as [|x l Hx Hl IH]; intros s Hs; simpl.
  - exact Hs.
  - apply IH. unfold dadd. apply rd_nonneg. lra.
Qed.

Lemma all_products_nonneg (r : Z) (side : nat) :
  Forall (fun x => 0 <= x) (all_products rd rf cexp r side).
Proof.
  apply Forall_forall. intros x Hx. unfold all_products in Hx.
  apply in_flat_map in Hx. destruct Hx as (row & _ & Hx).
  apply in_map_iff in Hx. destruct Hx as (col & <- & _).
  apply product_nonneg.
Qed.

Lemma total_nonneg (r : Z) (side : nat) : 0 <= total rd rf cexp r side.
Proof.
  unfold total. apply dadd_fold_nonneg; [apply all_products_nonneg | lra].
Qed.

Lemma normalized_cell_antitone (r : Z) (row col row' col' : nat) :
  (0 <= r)%Z ->
  (Z.abs (Z.of_nat row - r) <= Z.abs (Z.of_nat row' - r))%Z ->
  (Z.abs (Z.of_nat col - r) <= Z.abs (Z.of_nat col' - r))%Z ->
  normalized_cell rd rf cexp r row' col' <= normalized_cell rd rf cexp r row col.
Proof.
  intros Hr Hrow Hcol. unfold normalized_cell, to_float, ddiv.
  apply rf_mono, rd_mono. unfold Rdiv.
  apply Rmult_le_compat_r.
  - apply Rinv_nonneg, total_nonneg.
  - apply rf_mono. apply product_antitone; assumption.
Qed.

End KernelMonotone.

(** ** The weight matrix: sign and sum of the entries *)

Section KernelRounding.

Variables rd rf cexp : R -> R.

Hypothesis env : float_environment rd rf cexp.

Local Open Scope R_scope.

Local Abbreviation ud := eps_double.
Local Abbreviation uf := eps_float.

(** *** Consequences of the assumptions on rounding *)

Lemma env_rd_zero : rd 0 = 0.
Proof. exact (rd_zero rd (rd_symmetric _ _ _ env)). Qed.

Lemma env_rf_zero : rf 0 = 0.
Proof. exact (rd_zero rf (rf_symmetric _ _ _ env)). Qed.

Lemma rd_keeps_sign (y : R) : 0 <= y -> 0 <= rd y.
Proof.
  exact (rd_nonneg rd (rd_monotone _ _ _ env) (rd_symmetric _ _ _ env) y).
Qed.

Lemma rf_keeps_sign (y : R) : 0 <= y -> 0 <= rf y.
Proof.
  exact (rf_nonneg rf (rf_monotone _ _ _ env) env_rf_zero y).
Qed.

Lemma Rabs_bound_inv (x b : R) : Rabs x <= b -> - b <= x <= b.
Proof.
  intros H. pose proof (Rle_abs x). pose proof (Rle_abs (- x)) as H'.
  rewrite Rabs_Ropp in H'. lra.
Qed.

Lemma relative_bounds (rnd : R -> R) (u : R) :
  (forall y, tiny <= Rabs y <= huge -> Rabs (rnd y - y) <= u * Rabs y) ->
  forall y, tiny <= y <= huge -> (1 - u) * y <= rnd y <= (1 + u) * y.
Proof.
  intros Herr y Hy. specialize (Herr y).
  assert (H0 : 0 <= y) by (unfold tiny in Hy; lra).
  rewrite (Rabs_pos_eq y H0) in Herr. specialize (Herr Hy).
  apply Rabs_bound_inv in Herr. lra.
Qed.

Lemma rd_bounds (y : R) :
  tiny <= y <= huge -> (1 - ud) * y <= rd y <= (1 + ud) * y.
Proof. apply relative_bounds. exact (rd_accurate _ _ _ env). Qed.

Lemma rf_bounds (y : R) :
  tiny <= y <= huge -> (1 - uf) * y <= rf y <= (1 + uf) * y.
Proof. apply relative_bounds. exact (rf_accurate _ _ _ env). Qed.

(** *** Sign of the weights *)

Lemma gaussian_keeps_sign (x mu sigma : R) :
  0 <= gaussian rd rf cexp x mu sigma.
Proof.
  unfold gaussian, to_float. apply rf_keeps_sign, (cexp_nonnegative _ _ _ env).
Qed.

Lemma product_keeps_sign (r : Z) (row col : nat) :
  0 <= product rd rf cexp r row col.
Proof.
  unfold product, fmul. apply rf_keeps_sign.
  apply Rmult_le_pos; apply gaussian_keeps_sign.
Qed.

Lemma all_products_keep_sign (r : Z) (side : nat) :
  Forall (fun x => 0 <= x) (all_products rd rf cexp r side).
Proof.
  apply Forall_forall. intros x Hx. unfold all_products in Hx.
  apply in_flat_map in Hx. destruct Hx as (row & _ & Hx).
  apply in_map_iff in Hx. destruct Hx as (col & <- & _).
  apply product_keeps_sign.
Qed.



(** *** Size of the weights, for radii up to 100000 *)

(** [a] at the edge of the matrix, where [x - mu] is the radius: about 2. *)
Lemma scaled_at_edge (r : Z) :
  (1 <= r <= 100000)%Z ->
  19 / 10 <= scaled rd (ddiv rd (IZR r) 2) (IZR r) <= 21 / 10.
Proof.
  intros Hr. unfold scaled, ddiv.
  assert (H1 : 1 <= IZR r) by (apply IZR_le; lia).
  assert (H2 : IZR r <= 100000) by (apply IZR_le; lia).
  destruct (rd_bounds (IZR r)) as [Hn1 Hn2]; [unfold tiny, huge; lra|].
  destruct (rd_bounds (IZR r / 2)) as [Hs1 Hs2]; [unfold tiny, huge; lra|].
  unfold eps_double in *.
  set (n := rd (IZR r)) in *. set (s := rd (IZR r / 2)) in *.
  assert (Hs : 0 < s) by lra.
  assert (Hq1 : 199 / 100 <= n / s).
  { apply quotient_lower; [exact Hs | lra]. }
  assert (Hq2 : n / s <= 201 / 100).
  { apply quotient_upper; [exact Hs | lra]. }
  destruct (rd_bounds (n / s)) as [Ha1 Ha2]; [unfold tiny, huge; lra|].
  unfold eps_double in *. lra.
Qed.

(** The argument of the exponential stays in [[-3, 0]]. *)
Lemma exponent_at_edge : -3 <= exponent rd (21 / 10).
Proof.
  unfold exponent, dmul.
  replace (-0.5 * (21 / 10)) with (- (21 / 20)) by lra.
  rewrite (rd_symmetric _ _ _ env).
  destruct (rd_bounds (21 / 20)) as [H1 H2]; [unfold tiny, huge; lra|].
  replace (- rd (21 / 20) * (21 / 10)) with (- (rd (21 / 20) * (21 / 10))) by ring.
  rewrite (rd_symmetric _ _ _ env).
  unfold eps_double in *.
  destruct (rd_bounds (rd (21 / 20) * (21 / 10))) as [H3 H4];
    [unfold tiny, huge; lra|].
  unfold eps_double in *. lra.
Qed.

Lemma exponent_of_zero : exponent rd 0 = 0.
Proof.
  unfold exponent, dmul.
  replace (-0.5 * 0) with 0 by lra. rewrite env_rd_zero.
  replace (0 * 0) with 0 by lra. exact env_rd_zero.
Qed.

Lemma exponent_range (r : Z) (d : R) :
  (1 <= r <= 100000)%Z -> 0 <= d <= IZR r ->
  -3 <= exponent rd (scaled rd (ddiv rd (IZR r) 2) d) <= 0.
Proof.
  intros Hr Hd.
  pose proof (rd_monotone _ _ _ env) as Hmono.
  pose proof (rd_symmetric _ _ _ env) as Hodd.
  assert (Hs : 0 <= ddiv rd (IZR r) 2) by (apply (sigma_nonneg rd Hmono Hodd); lia).
  destruct (scaled_mono rd Hmono Hodd _ _ _ Hs Hd) as [Ha0 Ha1].
  destruct (scaled_at_edge r Hr) as [_ Hedge].
  split.
  - apply Rle_trans with (1 := exponent_at_edge).
    apply (exponent_antitone rd Hmono Hodd). lra.
  - rewrite <- exponent_of_zero.
    apply (exponent_antitone rd Hmono Hodd). lra.
Qed.

Lemma gaussian_range (r : Z) (row : nat) :
  (1 <= r <= 100000)%Z -> (Z.of_nat row <= 2 * r)%Z ->
  / 33 <= gaussian rd rf cexp (IZR (Z.of_nat row)) (IZR r) (ddiv rd (IZR r) 2)
  <= 21 / 10.
Proof.
  intros Hr Hrow.
  rewrite (gaussian_abs rd rf cexp (rd_symmetric _ _ _ env)).
  assert (Hd : 0 <= Rabs (IZR (Z.of_nat row) - IZR r) <= IZR r).
  { split; [apply Rabs_pos|].
    rewrite <- minus_IZR, <- abs_IZR. apply IZR_le. lia. }
  pose proof (exponent_range r _ Hr Hd) as Ht.
  destruct (cexp_range _ _ _ env _ Ht) as [Hc1 Hc2].
  destruct (rf_bounds (cexp (exponent rd
              (scaled rd (ddiv rd (IZR r) 2) (Rabs (IZR (Z.of_nat row) - IZR r))))))
    as [Hg1 Hg2]; [unfold tiny, huge; lra|].
  unfold eps_float in *. lra.
Qed.

Lemma product_range (r : Z) (row col : nat) :
  (1 <= r <= 100000)%Z ->
  (Z.of_nat row <= 2 * r)%Z -> (Z.of_nat col <= 2 * r)%Z ->
  / 1100 <= product rd rf cexp r row col <= 9 / 2.
Proof.
  intros Hr Hrow Hcol. unfold product, fmul.
  pose proof (gaussian_range r row Hr Hrow) as [Hr1 Hr2].
  pose proof (gaussian_range r col Hr Hcol) as [Hc1 Hc2].
  set (g1 := gaussian rd rf cexp (IZR (Z.of_nat row)) (IZR r) (ddiv rd (IZR r) 2)) in *.
  set (g2 := gaussian rd rf cexp (IZR (Z.of_nat col)) (IZR r) (ddiv rd (IZR r) 2)) in *.
  assert (Hlo : / 1089 <= g1 * g2) by nra.
  assert (Hhi : g1 * g2 <= 441 / 100) by nra.
  destruct (rf_bounds (g1 * g2)) as [Hp1 Hp2]; [unfold tiny, huge; lra|].
  unfold eps_float in *. lra.
Qed.

(** *** Sums *)

Lemma sum_list_app (l1 l2 : list R) :
  sum_list (l1 ++ l2) = sum_list l1 + sum_list l2.
Proof.
  induction l1 as [|x l1 IH]; simpl; [lra | rewrite IH; lra].
Qed.

Lemma sum_list_nonneg (l : list R) :
  Forall (fun x => 0 <= x) l -> 0 <= sum_list l.
Proof.
  induction 1 as [|x l Hx Hl IH]; simpl; lra.
Qed.

Lemma sum_list_ge_member (l : list R) (x : R) :
  Forall (fun y => 0 <= y) l -> In x l -> x <= sum_list l.
Proof.
  induction 1 as [|y l Hy Hl IH]; intros Hin; simpl in *.
  - contradiction.
  - pose proof (sum_list_nonneg l Hl).
    destruct Hin as [-> | Hin]; [lra | specialize (IH Hin); lra].
Qed.

Lemma sum_list_le_length (l : list R) (hi : R) :
  Forall (fun x => x <= hi) l -> sum_list l <= INR (List.length l) * hi.
Proof.
  induction 1 as [|x l Hx Hl IH].
  - simpl. lra.
  - simpl List.length. rewrite S_INR. simpl sum_list. lra.
Qed.





Lemma ud_range : 0 <= ud < 1.
Proof. unfold eps_double. lra. Qed.

Lemma bernoulli_lower (n : nat) : 1 - INR n * ud <= (1 - ud) ^ n.
Proof.
  pose proof ud_range as Hu.
  induction n as [|n IH].
  - simpl. lra.
  - rewrite S_INR, <- tech_pow_Rmult.
    pose proof (pos_INR n) as Hn.
    assert (0 <= INR n * ud * ud)
      by (apply Rmult_le_pos; [apply Rmult_le_pos|]; lra).
    apply Rle_trans with ((1 - ud) * (1 - INR n * ud)); [lra|].
    apply Rmult_le_compat_l; lra.
Qed.

Lemma pow_product_le_1 (n : nat) : (1 + ud) ^ n * (1 - ud) ^ n <= 1.
Proof.
  pose proof ud_range as Hu.
  rewrite <- Rpow_mult_distr.
  apply Rle_trans with (1 ^ n); [|rewrite pow1; lra].
  apply pow_incr. split; nra.
Qed.

Lemma pow_upper (n : nat) :
  INR n * ud < 1 -> (1 + ud) ^ n <= / (1 - INR n * ud).
Proof.
  intros Hc. pose proof ud_range as Hu.
  pose proof (bernoulli_lower n) as Hb.
  pose proof (pow_product_le_1 n) as Hp.
  assert (H1 : 0 < (1 - ud) ^ n) by (apply pow_lt; lra).
  assert (H2 : 0 <= (1 + ud) ^ n) by (apply pow_le; lra).
  apply (Rmult_le_reg_r (1 - INR n * ud)); [lra|].
  rewrite Rinv_l by lra.
  apply Rle_trans with (2 := Hp).
  apply Rmult_le_compat_l; assumption.
Qed.

(** Recursive summation in [double] of numbers that are not tiny, as long
    as the sum stays below [huge]: each addition is off by a factor in
    [1 - ud, 1 + ud]. *)
Lemma dadd_fold_bounds (l : list R) :
  Forall (fun x => tiny <= x) l ->
  forall s, 0 <= s ->
    (1 + ud) ^ List.length l * (s + sum_list l) <= huge ->
    (1 - ud) ^ List.length l * (s + sum_list l) <= fold_left (dadd rd) l s
    /\ fold_left (dadd rd) l s <= (1 + ud) ^ List.length l * (s + sum_list l).
Proof.
  pose proof ud_range as Hu.
  induction 1 as [|x l Hx Hl IH]; intros s Hs Hhuge.
  - simpl. lra.
  - simpl fold_left. simpl List.length in *. simpl sum_list in *.
    assert (Hsum : 0 <= sum_list l).
    { apply sum_list_nonneg. revert Hl. apply Forall_impl.
      intros y Hy. unfold tiny in Hy. lra. }
    assert (Hx0 : 0 < x) by (unfold tiny in Hx; lra).
    assert (Hp1 : 0 <= (1 - ud) ^ List.length l) by (apply pow_le; lra).
    assert (Hp2 : 1 <= (1 + ud) ^ List.length l) by (apply pow_R1_Rle; lra).
    rewrite <- tech_pow_Rmult in Hhuge.
    assert (Hin : tiny <= s + x <= huge).
    { split; [lra|].
      apply Rle_trans with (2 := Hhuge).
      assert (HK : 1 <= (1 + ud) * (1 + ud) ^ List.length l) by nra.
      apply Rle_trans with (1 * (s + (x + sum_list l))); [lra|].
      apply Rmult_le_compat_r; lra. }
    destruct (rd_bounds (s + x) Hin) as [Hlo Hhi].
    assert (Hus : 0 <= ud * sum_list l) by (apply Rmult_le_pos; lra).
    assert (Hs' : 0 <= dadd rd s x) by (apply rd_keeps_sign; lra).
    assert (Hhuge' : (1 + ud) ^ List.length l * (dadd rd s x + sum_list l) <= huge).
    { apply Rle_trans with (2 := Hhuge).
      rewrite Rmult_assoc, (Rmult_comm (1 + ud)), Rmult_assoc.
      apply Rmult_le_compat_l; [lra|]. unfold dadd. lra. }
    destruct (IH (dadd rd s x) Hs' Hhuge') as [IHlo IHhi].
    unfold dadd in *.
    split.
    + apply Rle_trans with ((1 - ud) ^ List.length l * (rd (s + x) + sum_list l));
        [|exact IHlo].
      rewrite <- tech_pow_Rmult, Rmult_assoc, (Rmult_comm (1 - ud)), Rmult_assoc.
      apply Rmult_le_compat_l; [exact Hp1 | lra].
    + apply Rle_trans with ((1 + ud) ^ List.length l * (rd (s + x) + sum_list l));
        [exact IHhi|].
      rewrite <- tech_pow_Rmult, Rmult_assoc, (Rmult_comm (1 + ud)), Rmult_assoc.
      apply Rmult_le_compat_l; [lra | lra].
Qed.

(** *** The sum of the weights, for radii up to 100000 *)

Lemma side_squared_bound (r : Z) :
  (1 <= r <= 100000)%Z ->
  INR (Z.to_nat (2 * r + 1) * Z.to_nat (2 * r + 1)) <= 40000400001.
Proof.
  intros Hr. rewrite mult_INR, INR_IZR_INZ, Z2Nat.id by lia.
  assert (H1 : 0 <= IZR (2 * r + 1)) by (apply IZR_le; lia).
  assert (H2 : IZR (2 * r + 1) <= 200001) by (apply IZR_le; lia).
  nra.
Qed.

Lemma all_products_length (r : Z) (side : nat) :
  List.length (all_products rd rf cexp r side) = (side * side)%nat.
Proof.
  unfold all_products.
  rewrite (flat_map_constant_length (c := side)).
  - rewrite length_seq. reflexivity.
  - intros row _. rewrite length_map, length_seq. reflexivity.
Qed.

Lemma all_products_in_range (r : Z) :
  (1 <= r <= 100000)%Z ->
  Forall (fun x => / 1100 <= x <= 9 / 2)
         (all_products rd rf cexp r (Z.to_nat (2 * r + 1))).
Proof.
  intros Hr. apply Forall_forall. intros x Hx. unfold all_products in Hx.
  apply in_flat_map in Hx. destruct Hx as (row & Hrow & Hx).
  apply in_map_iff in Hx. destruct Hx as (col & <- & Hcol).
  apply in_seq in Hrow. apply in_seq in Hcol.
  apply product_range; [exact Hr | lia | lia].
Qed.

(** The exact sum [T] of the products and the sum [S] the loop computes. *)
Lemma total_bounds (r : Z) :
  (1 <= r <= 100000)%Z ->
  let side := Z.to_nat (2 * r + 1) in
  let T := sum_list (all_products rd rf cexp r side) in
  let S := total rd rf cexp r side in
  (/ 1100 <= T <= 180001800005) /\
  ((1 - ud) ^ (side * side) * T <= S <= (1 + ud) ^ (side * side) * T) /\
  (/ 1200 <= S <= 200000000000).
Proof.
  intros Hr side T S.
  pose proof (side_squared_bound r Hr) as HN. fold side in HN.
  pose proof (all_products_in_range r Hr) as Hrange. fold side in Hrange.
  pose proof (pos_INR (side * side)) as HN0.
  assert (Hc : INR (side * side) * ud <= 40000400001 * ud)
    by (apply Rmult_le_compat_r; [unfold eps_double; lra | exact HN]).
  assert (Hc1 : 40000400001 * ud <= / 200000) by (unfold eps_double; lra).
  assert (Hc0 : 0 <= INR (side * side) * ud)
    by (apply Rmult_le_pos; [exact HN0 | unfold eps_double; lra]).
  assert (HT : / 1100 <= T <= 180001800005).
  { split.
    - apply Rle_trans with (product rd rf cexp r 0 0).
      + apply product_range; [exact Hr | lia | lia].
      + apply sum_list_ge_member; [apply all_products_keep_sign|].
        unfold all_products. apply in_flat_map. exists 0%nat. split.
        * apply in_seq. unfold side. lia.
        * apply in_map. apply in_seq. unfold side. lia.
    - apply Rle_trans with (INR (List.length (all_products rd rf cexp r side)) * (9 / 2)).
      + apply sum_list_le_length. revert Hrange. apply Forall_impl. intros; lra.
      + rewrite all_products_length. lra. }
  pose proof (pow_upper (side * side) ltac:(lra)) as Hup.
  pose proof (bernoulli_lower (side * side)) as Hlow.
  assert (Hup' : (1 + ud) ^ (side * side) <= 100001 / 100000).
  { apply Rle_trans with (1 := Hup).
    rewrite <- (Rinv_inv (100001 / 100000)).
    apply Rinv_le_contravar; lra. }
  assert (Hp0 : 0 <= (1 + ud) ^ (side * side))
    by (apply pow_le; unfold eps_double; lra).
  assert (Hfold :
            (1 - ud) ^ (side * side) * T <= S <= (1 + ud) ^ (side * side) * T).
  { unfold S, total.
    destruct (dadd_fold_bounds (all_products rd rf cexp r side)) with (s := 0)
      as [H1 H2].
    - revert Hrange. apply Forall_impl. intros y Hy. unfold tiny. lra.
    - lra.
    - rewrite all_products_length, Rplus_0_l. fold T.
      apply Rle_trans with (100001 / 100000 * 180001800005); [|unfold huge; lra].
      apply Rmult_le_compat; lra.
    - rewrite all_products_length, Rplus_0_l in H1, H2. fold T in H1, H2.
      split; assumption. }
  split; [exact HT|]. split; [exact Hfold|].
  destruct Hfold as [H1 H2]. split.
  - apply Rle_trans with (2 := H1).
    apply Rle_trans with ((1 - / 200000) * / 1100); [lra|].
    apply Rmult_le_compat; lra.
  - apply Rle_trans with (1 := H2).
    apply Rle_trans with (100001 / 100000 * 180001800005); [|lra].
    apply Rmult_le_compat; lra.
Qed.

(** One normalised entry: three roundings around the exact quotient. *)
Lemma normalized_entry_bounds (p S : R) :
  / 1100 <= p <= 9 / 2 -> / 1200 <= S <= 200000000000 ->
  (1 - uf) * (1 - ud) * (1 - uf) / S * p
  <= to_float rf (ddiv rd (to_float rf p) S)
  /\ to_float rf (ddiv rd (to_float rf p) S)
     <= (1 + uf) * (1 + ud) * (1 + uf) / S * p.
Proof.
  intros Hp HS. unfold to_float, ddiv.
  assert (HS0 : 0 < S) by lra.
  pose proof (Rinv_0_lt_compat S HS0) as Hi.
  destruct (rf_bounds p) as [Hp1 Hp2]; [unfold tiny, huge; lra|].
  unfold eps_float in Hp1, Hp2.
  assert (Hq1 : / 300000000000000 <= rf p / S).
  { apply quotient_lower; [exact HS0 | lra]. }
  assert (Hq2 : rf p / S <= 6000).
  { apply quotient_upper; [exact HS0 | lra]. }
  destruct (rd_bounds (rf p / S)) as [Hd1 Hd2]; [unfold tiny, huge; lra|].
  unfold eps_double in Hd1, Hd2.
  destruct (rf_bounds (rd (rf p / S))) as [He1 He2]; [unfold tiny, huge; lra|].
  assert (Hlo : (1 - uf) * p / S <= rf p / S)
    by (unfold Rdiv; apply Rmult_le_compat_r; unfold eps_float; lra).
  assert (Hhi : rf p / S <= (1 + uf) * p / S)
    by (unfold Rdiv; apply Rmult_le_compat_r; unfold eps_float; lra).
  pose proof ud_range as Hu.
  assert (Hf : 0 <= uf < 1) by (unfold eps_float; lra).
  split.
  - apply Rle_trans with (2 := He1).
    replace ((1 - uf) * (1 - ud) * (1 - uf) / S * p)
      with ((1 - uf) * ((1 - ud) * ((1 - uf) * p / S))) by (unfold Rdiv; ring).
    apply Rmult_le_compat_l; [lra|].
    apply Rle_trans with ((1 - ud) * (rf p / S)); [|unfold eps_double; lra].
    apply Rmult_le_compat_l; [lra | exact Hlo].
  - apply Rle_trans with (1 := He2).
    replace ((1 + uf) * (1 + ud) * (1 + uf) / S * p)
      with ((1 + uf) * ((1 + ud) * ((1 + uf) * p / S))) by (unfold Rdiv; ring).
    apply Rmult_le_compat_l; [lra|].
    apply Rle_trans with ((1 + ud) * (rf p / S)); [unfold eps_double; lra|].
    apply Rmult_le_compat_l; [lra | exact Hhi].
Qed.



End KernelRounding.

(** ** The weight matrix: claims on sign, sum and peak *)

Section ExactArithmetic.

Local Open Scope R_scope.

Lemma exact_exp_mono (x y : R) : x <= y -> exact_exp x <= exact_exp y.
Proof.
  unfold exact_exp. intros [H | ->]; [left; apply exp_increasing; exact H | lra].
Qed.

Lemma exp_3_le_27 : exp 3 <= 27.
Proof.
  replace 3 with (1 + (1 + 1)) by ring.
  rewrite !exp_plus.
  pose proof exp_le_3 as H. pose proof (exp_pos 1) as H0.
  nra.
Qed.

Lemma exact_exp_range (x : R) : -3 <= x <= 0 -> / 32 <= exact_exp x <= 2.
Proof.
  intros [H1 H2]. split.
  - apply Rle_trans with (exact_exp (-3)); [|apply exact_exp_mono; exact H1].
    unfold exact_exp.
    replace (exp (-3)) with (exp (- (3))) by (f_equal; lra).
    rewrite exp_Ropp.
    apply Rinv_le_contravar; [apply exp_pos|].
    pose proof exp_3_le_27. lra.
  - apply Rle_trans with (exact_exp 0); [apply exact_exp_mono; exact H2|].
    unfold exact_exp. rewrite exp_0. lra.
Qed.

Lemma exact_rounding_error (u x : R) : 0 <= u -> Rabs (x - x) <= u * Rabs x.
Proof.
  intros Hu. rewrite Rminus_diag, Rabs_R0.
  apply Rmult_le_pos; [exact Hu | apply Rabs_pos].
Qed.

(** Arithmetic without rounding meets every assumption made on the
    arithmetic. *)
Lemma exact_environment : float_environment exact_rd exact_rf exact_exp.
Proof.
  constructor; unfold exact_rd, exact_rf.
  - intros x y H. exact H.
  - reflexivity.
  - intros x _. apply exact_rounding_error. unfold eps_double. lra.
  - intros x y H. exact H.
  - reflexivity.
  - intros x _. apply exact_rounding_error. unfold eps_float. lra.
  - exact exact_exp_mono.
  - intros x. unfold exact_exp. left. apply exp_pos.
  - exact exact_exp_range.
Qed.

Lemma sum_cells_scaled (G : nat -> nat -> R) (T : R) (rows cols : list nat) :
  sum_list (flat_map (fun row => map (fun col => G row col / T) cols) rows)
  = sum_list (flat_map (fun row => map (G row) cols) rows) / T.
Proof.
  induction rows as [|row rows IH]; simpl.
  - unfold Rdiv. ring.
  - rewrite !sum_list_app, IH.
    assert (Hrow : sum_list (map (fun col => G row col / T) cols)
                   = sum_list (map (G row) cols) / T).
    { clear IH. induction cols as [|col cols IHc]; simpl.
      + unfold Rdiv. ring.
      + rewrite IHc. unfold Rdiv. ring. }
    rewrite Hrow. unfold Rdiv. ring.
Qed.

Lemma product_spec_pos (r : Z) (row col : nat) : 0 < product_spec r row col.
Proof.
  unfold product_spec, gaussian_spec. apply Rmult_lt_0_compat; apply exp_pos.
Qed.

Lemma total_spec_pos (r : Z) : (0 <= r)%Z -> 0 < total_spec r.
Proof.
  intros Hr. unfold total_spec.
  apply Rlt_le_trans with (product_spec r 0 0); [apply product_spec_pos|].
  apply sum_list_ge_member.
  - apply Forall_forall. intros x Hx.
    apply in_flat_map in Hx. destruct Hx as (row & _ & Hx).
    apply in_map_iff in Hx. destruct Hx as (col & <- & _).
    left. apply product_spec_pos.
  - apply in_flat_map. exists 0%nat. split.
    + apply in_seq. lia.
    + apply in_map. apply in_seq. lia.
Qed.

End ExactArithmetic.

(** Without rounding the entries add up to exactly 1, for every radius in
    range. *)
Lemma kernel_sum_exact (r : Z) :
  radius_in_range r ->
  exists k,
    produce2dGaussianKernel exact_rd exact_rf exact_exp r = Some k /\
    sum_matrix k = 1%R.
Proof.
  intros Hr.
  eexists. split; [apply produce2dGaussianKernel_spec; exact Hr|].
  unfold sum_matrix. rewrite <- flat_map_concat_map.
  rewrite (flat_map_ext _ (fun row =>
             map (fun col => (product_spec r row col / total_spec r)%R)
                 (seq 0 (Z.to_nat (2 * r + 1)))))
    by (intros row; apply map_ext; intros col; apply normalized_cell_exact).
  rewrite sum_cells_scaled.
  fold (total_spec r).
  unfold radius_in_range in Hr.
  pose proof (total_spec_pos r ltac:(lia)).
  field. lra.
Qed.



(** C8, for the radii the source is defined on (1 <= r < 2^30), for
    arithmetic rounded to nearest ([float_environment]): the matrix has a
    centre entry [kernel[r][r]], no entry exceeds it, and an entry does not
    grow when [|row - r|] or [|col - r|] grows. *)
Theorem kernel_peaks_at_centre (rd rf cexp : R -> R) (r : Z) :
  float_environment rd rf cexp ->
  radius_in_range r ->
  peak_at_centre rd rf cexp r.
Proof.
  intros env Hr.
  assert (Hmono : forall row col row' col' : nat,
             Z.of_nat row <= 2 * r -> Z.of_nat col <= 2 * r ->
             Z.of_nat row' <= 2 * r -> Z.of_nat col' <= 2 * r ->
             Z.abs (Z.of_nat row - r) <= Z.abs (Z.of_nat row' - r) ->
             Z.abs (Z.of_nat col - r) <= Z.abs (Z.of_nat col' - r) ->
             (get_cell (map (fun row => map (normalized_cell rd rf cexp r row)
                                         (seq 0 (Z.to_nat (2 * r + 1))))
                            (seq 0 (Z.to_nat (2 * r + 1)))) row' col'
              <= get_cell (map (fun row => map (normalized_cell rd rf cexp r row)
                                         (seq 0 (Z.to_nat (2 * r + 1))))
                            (seq 0 (Z.to_nat (2 * r + 1)))) row col)%R).
  { intros row col row' col' Hrow Hcol Hrow' Hcol' Hdr Hdc.
    unfold get_cell.
    rewrite !(nth_map_seq _ _ _ _ (index_in_side r _ Hr Hrow)).
    rewrite !(nth_map_seq _ _ _ _ (index_in_side r _ Hr Hrow')).
    rewrite !(nth_map_seq _ _ _ _ (index_in_side r _ Hr Hcol)).
    rewrite !(nth_map_seq _ _ _ _ (index_in_side r _ Hr Hcol')).
    apply (normalized_cell_antitone rd rf cexp
             (rd_monotone _ _ _ env) (rd_symmetric _ _ _ env)
             (rf_monotone _ _ _ env) (env_rf_zero rd rf cexp env)
             (cexp_monotone _ _ _ env) (cexp_nonnegative _ _ _ env));
      [unfold radius_in_range in Hr; lia | exact Hdr | exact Hdc]. }
  unfold radius_in_range in Hr.
  eexists. split; [apply produce2dGaussianKernel_spec; exact Hr|].
  split; [rewrite length_map, length_seq; lia|].
  split.
  { assert (Hc : (Z.to_nat r < Z.to_nat (2 * r + 1))%nat) by lia.
    rewrite (nth_map_seq _ _ _ _ Hc).
    rewrite length_map, length_seq. lia. }
  split.
  - intros row col Hrow Hcol. apply Hmono; lia.
  - exact Hmono.
Qed.

Lemma kernel_peaks_at_centre_witness :
  float_environment exact_rd exact_rf exact_exp /\
  radius_in_range 1 /\
  peak_at_centre exact_rd exact_rf exact_exp 1.
Proof.
  assert (H : radius_in_range 1) by (unfold radius_in_range; lia).
  split; [exact exact_environment|]. split; [exact H|].
  exact (kernel_peaks_at_centre exact_rd exact_rf exact_exp 1 exact_environment H).
Defined.

(** C8 as stated fails at radius 2^31, where the side wraps: the matrix
    returned is 1x1 and has no entry [kernel[r][r]]. *)
Lemma peak_at_centre_fails_when_side_wraps :
  ~ peak_at_centre exact_rd exact_rf exact_exp 2147483648.
Proof.
  intros (k & Hk & Hlen & _).
  destruct (produce2dGaussianKernel_wrapped exact_rd exact_rf exact_exp) as (x & Hx).
  rewrite Hx in Hk. injection Hk as <-.
  simpl List.length in Hlen. lia.
Qed.

(** ** Rounding to nearest, ties to even *)

Section RoundingLemmas.

Local Open Scope R_scope.

Lemma pow2_pos (e : Z) : 0 < pow2 e.
Proof. apply powerRZ_lt. lra. Qed.

Lemma pow2_add (a b : Z) : pow2 (a + b) = pow2 a * pow2 b.
Proof. apply powerRZ_add. lra. Qed.

Lemma pow2_0 : pow2 0 = 1.
Proof. reflexivity. Qed.

Lemma pow2_1 : pow2 1 = 2.
Proof. unfold pow2. simpl. lra. Qed.

Lemma pow2_succ (a : Z) : pow2 (a + 1) = 2 * pow2 a.
Proof. rewrite pow2_add, pow2_1. ring. Qed.


Lemma pow2_IZR (n : Z) : (0 <= n)%Z -> pow2 n = IZR (2 ^ n).
Proof.
  intros Hn. unfold pow2.
  rewrite <- (Z2Nat.id n Hn) at 1.
  rewrite <- pow_powerRZ, pow_IZR, Z2Nat.id by exact Hn. reflexivity.
Qed.

Lemma pow2_ge_1 (n : Z) : (0 <= n)%Z -> 1 <= pow2 n.
Proof.
  intros Hn. rewrite (pow2_IZR n Hn). apply IZR_le.
  pose proof (Z.pow_pos_nonneg 2 n ltac:(lia) Hn). lia.
Qed.

Lemma pow2_le (a b : Z) : (a <= b)%Z -> pow2 a <= pow2 b.
Proof.
  intros H. replace b with (a + (b - a))%Z by lia. rewrite pow2_add.
  pose proof (pow2_pos a). pose proof (pow2_ge_1 (b - a) ltac:(lia)). nra.
Qed.

Lemma pow2_lt (a b : Z) : (a < b)%Z -> pow2 a < pow2 b.
Proof.
  intros H. apply Rlt_le_trans with (pow2 (a + 1)).
  - rewrite pow2_succ. pose proof (pow2_pos a). lra.
  - apply pow2_le. lia.
Qed.










Section Precision.

Variable p : Z.
Hypothesis precision_pos : (1 <= p)%Z.














End Precision.

(** *** [double] and [float] *)









End RoundingLemmas.
(** ** The weight matrix for very large radii: the sum stops growing *)

Section Saturation.

Variables rd rf cexp : R -> R.

Hypothesis env : float_environment rd rf cexp.

(** What the argument uses of the arithmetic beyond [float_environment]:
    [2^53 + 1] is not rounded above [2^53], 1 is not rounded above 1, and
    [std::exp] is at most 1 on numbers that are not positive and not below
    the exponential by more than the unit roundoff. *)
Hypothesis rd_absorbs : (rd (9007199254740992 + 1) <= 9007199254740992)%R.
Hypothesis rf_one : (rf 1 <= 1)%R.
Hypothesis cexp_le_1 : forall x : R, (x <= 0 -> cexp x <= 1)%R.
Hypothesis cexp_lower : forall x : R, ((1 - eps_double) * exp x <= cexp x)%R.

Local Open Scope R_scope.

Local Abbreviation ud := eps_double.
Local Abbreviation uf := eps_float.


















End Saturation.



(** ** Channel padding *)

Section ChannelAdapter.

Local Open Scope nat_scope.

Lemma nth_error_app_at (A : Type) (pre suf : list A) (k : nat) :
  nth_error (pre ++ suf) (List.length pre + k) = nth_error suf k.
Proof.
  induction pre as [|x pre IH]; simpl; auto.
Qed.

Lemma length3_inv (A : Type) (l : list A) (n : nat) :
  List.length l = 3 * S n ->
  exists r g b rest, l = r :: g :: b :: rest /\ List.length rest = 3 * n.
Proof.
  destruct l as [|r [|g [|b rest]]]; simpl; intros H; try lia.
  exists r, g, b, rest. split; [reflexivity | lia].
Qed.

Lemma length4_inv (A : Type) (l : list A) (n : nat) :
  List.length l = 4 * S n ->
  exists r g b a rest, l = r :: g :: b :: a :: rest /\ List.length rest = 4 * n.
Proof.
  destruct l as [|r [|g [|b [|a rest]]]]; simpl; intros H; try lia.
  exists r, g, b, a, rest. split; [reflexivity | lia].
Qed.

(** The loop of [RGBtoRGBA], started at the boundary between the bytes
    already converted and [3 * n] bytes still to convert, ends after [n]
    iterations with the padded bytes appended. *)
Lemma RGBtoRGBA_loop_spec (n : nat) :
  forall (pre suf dst : list ascii) (fuel : nat),
    List.length suf = 3 * n -> n <= fuel ->
    RGBtoRGBA_loop fuel (pre ++ suf) (List.length pre) dst
    = Some (dst ++ pad_alpha suf).
Proof.
  induction n as [|n IH]; intros pre suf dst fuel Hlen Hfuel.
  - destruct suf; [|discriminate].
    rewrite !app_nil_r. destruct fuel; simpl; rewrite Nat.ltb_irrefl; reflexivity.
  - destruct (length3_inv _ _ _ Hlen) as (r & g & b & rest & -> & Hrest).
    destruct fuel as [|fuel]; [lia|].
    simpl RGBtoRGBA_loop.
    replace (List.length pre <? List.length (pre ++ r :: g :: b :: rest)) with true
      by (symmetry; apply Nat.ltb_lt; rewrite length_app; simpl; lia).
    rewrite !nth_error_app_at. simpl nth_error.
    replace (pre ++ r :: g :: b :: rest) with ((pre ++ [r; g; b]) ++ rest)
      by (rewrite <- app_assoc; reflexivity).
    replace (List.length pre + 3) with (List.length (pre ++ [r; g; b]))
      by (rewrite length_app; reflexivity).
    rewrite IH by lia.
    simpl pad_alpha. rewrite <- app_assoc. reflexivity.
Qed.

Lemma RGBAtoRGB_loop_spec (n : nat) :
  forall (pre suf dst : list ascii) (fuel : nat),
    List.length suf = 4 * n -> n <= fuel ->
    RGBAtoRGB_loop fuel (pre ++ suf) (List.length pre) dst
    = Some (dst ++ drop_alpha suf).
Proof.
  induction n as [|n IH]; intros pre suf dst fuel Hlen Hfuel.
  - destruct suf; [|discriminate].
    rewrite !app_nil_r. destruct fuel; simpl; rewrite Nat.ltb_irrefl; reflexivity.
  - destruct (length4_inv _ _ _ Hlen) as (r & g & b & a & rest & -> & Hrest).
    destruct fuel as [|fuel]; [lia|].
    simpl RGBAtoRGB_loop.
    replace (List.length pre <? List.length (pre ++ r :: g :: b :: a :: rest)) with true
      by (symmetry; apply Nat.ltb_lt; rewrite length_app; simpl; lia).
    rewrite !nth_error_app_at. simpl nth_error.
    replace (pre ++ r :: g :: b :: a :: rest) with ((pre ++ [r; g; b; a]) ++ rest)
      by (rewrite <- app_assoc; reflexivity).
    replace (List.length pre + 4) with (List.length (pre ++ [r; g; b; a]))
      by (rewrite length_app; reflexivity).
    rewrite IH by lia.
    simpl drop_alpha. rewrite <- app_assoc. reflexivity.
Qed.

(** With one or two bytes left over, the loop reads past the end. *)
Lemma RGBtoRGBA_loop_partial (n : nat) :
  forall (pre suf dst : list ascii) (fuel : nat) (extra : nat),
    List.length suf = 3 * n + extra -> 1 <= extra <= 2 -> n < fuel ->
    RGBtoRGBA_loop fuel (pre ++ suf) (List.length pre) dst = None.
Proof.
  induction n as [|n IH]; intros pre suf dst fuel extra Hlen Hextra Hfuel.
  - destruct fuel as [|fuel]; [lia|].
    simpl RGBtoRGBA_loop.
    replace (List.length pre <? List.length (pre ++ suf)) with true
      by (symmetry; apply Nat.ltb_lt; rewrite length_app; lia).
    rewrite !nth_error_app_at.
    destruct suf as [|r [|g [|b rest]]]; simpl in *; try lia; reflexivity.
  - destruct suf as [|r [|g [|b rest]]]; simpl in Hlen; try lia.
    destruct fuel as [|fuel]; [lia|].
    simpl RGBtoRGBA_loop.
    replace (List.length pre <? List.length (pre ++ r :: g :: b :: rest)) with true
      by (symmetry; apply Nat.ltb_lt; rewrite length_app; simpl; lia).
    rewrite !nth_error_app_at. simpl nth_error.
    replace (pre ++ r :: g :: b :: rest) with ((pre ++ [r; g; b]) ++ rest)
      by (rewrite <- app_assoc; reflexivity).
    replace (List.length pre + 3) with (List.length (pre ++ [r; g; b]))
      by (rewrite length_app; reflexivity).
    apply (IH _ _ _ _ extra); lia.
Qed.

(** [RGBtoRGBA] is defined exactly on the buffers of whole pixels. *)
Lemma RGBtoRGBA_undefined (input : Image) :
  List.length (pixel input) mod 3 <> 0 -> RGBtoRGBA input = None.
Proof.
  intros H. unfold RGBtoRGBA.
  pose proof (Nat.div_mod_eq (List.length (pixel input)) 3) as Hdiv.
  pose proof (Nat.mod_upper_bound (List.length (pixel input)) 3 ltac:(lia)) as Hlt.
  set (n := List.length (pixel input) / 3) in *.
  set (extra := List.length (pixel input) mod 3) in *.
  assert (E : RGBtoRGBA_loop (List.length (pixel input)) ([] ++ pixel input)
                (List.length (@nil ascii)) [] = None)
    by (apply (RGBtoRGBA_loop_partial n _ _ _ _ extra); lia).
  simpl in E. rewrite E. reflexivity.
Qed.

Lemma multiple_of_3 (l : list ascii) :
  List.length l mod 3 = 0 -> exists n, List.length l = 3 * n /\ n <= List.length l.
Proof.
  intros H. exists (List.length l / 3). split.
  - pose proof (Nat.div_mod_eq (List.length l) 3). lia.
  - apply Nat.Div0.div_le_upper_bound. lia.
Qed.

Lemma RGBtoRGBA_pixels (input : Image) :
  List.length (pixel input) mod 3 = 0 ->
  RGBtoRGBA input
  = Some (mkImage (pad_alpha (pixel input)) (width input) (height input)).
Proof.
  intros H. destruct (multiple_of_3 _ H) as (n & Hn & Hle).
  unfold RGBtoRGBA.
  pose proof (RGBtoRGBA_loop_spec n [] (pixel input) [] _ Hn Hle) as E.
  simpl in E. rewrite E. reflexivity.
Qed.

Lemma pad_alpha_length (n : nat) :
  forall l, List.length l = 3 * n -> List.length (pad_alpha l) = 4 * n.
Proof.
  induction n as [|n IH]; intros l Hl.
  - destruct l; [reflexivity | discriminate].
  - destruct (length3_inv _ _ _ Hl) as (r & g & b & rest & -> & Hrest).
    simpl. rewrite (IH rest Hrest). lia.
Qed.

Lemma RGBAtoRGB_pixels (input : Image) (n : nat) :
  List.length (pixel input) = 4 * n ->
  RGBAtoRGB input
  = Some (mkImage (drop_alpha (pixel input)) (width input) (height input)).
Proof.
  intros Hn. unfold RGBAtoRGB.
  assert (Hle : n <= List.length (pixel input)) by lia.
  pose proof (RGBAtoRGB_loop_spec n [] (pixel input) [] _ Hn Hle) as E.
  simpl in E. rewrite E. reflexivity.
Qed.

(** Whatever stands in the fourth byte of each pixel, the colour bytes come
    back: [q] agrees with the padded list outside the alpha positions. *)
Lemma drop_alpha_ignores_alpha (n : nat) :
  forall l q,
    List.length l = 3 * n -> List.length q = 4 * n ->
    (forall k, k mod 4 <> 3 -> nth_error q k = nth_error (pad_alpha l) k) ->
    drop_alpha q = l.
Proof.
  induction n as [|n IH]; intros l q Hl Hq Hagree.
  - destruct l; [|discriminate]. destruct q; [reflexivity | discriminate].
  - destruct (length3_inv _ _ _ Hl) as (r & g & b & rest & -> & Hrest).
    destruct (length4_inv _ _ _ Hq) as (r' & g' & b' & a' & rest' & -> & Hrest').
    pose proof (Hagree 0 ltac:(simpl; lia)) as H0.
    pose proof (Hagree 1 ltac:(simpl; lia)) as H1.
    pose proof (Hagree 2 ltac:(simpl; lia)) as H2.
    simpl in H0, H1, H2. injection H0 as ->. injection H1 as ->. injection H2 as ->.
    simpl. f_equal. f_equal. f_equal.
    apply IH; auto.
    intros k Hk.
    assert (Hk4 : (4 + k) mod 4 <> 3).
    { replace (4 + k) with (k + 1 * 4) by lia.
      rewrite Nat.Div0.mod_add. exact Hk. }
    exact (Hagree (4 + k) Hk4).
Qed.

Lemma drop_pad_alpha (n : nat) :
  forall l, List.length l = 3 * n -> drop_alpha (pad_alpha l) = l.
Proof.
  intros l Hl. apply (drop_alpha_ignores_alpha n); auto.
  apply pad_alpha_length; assumption.
Qed.

Lemma pad_alpha_nth (n : nat) :
  forall l k, List.length l = 3 * n -> 3 * k < List.length l ->
    nth_error (pad_alpha l) (4 * k) = nth_error l (3 * k) /\
    nth_error (pad_alpha l) (4 * k + 1) = nth_error l (3 * k + 1) /\
    nth_error (pad_alpha l) (4 * k + 2) = nth_error l (3 * k + 2) /\
    nth_error (pad_alpha l) (4 * k + 3) = Some NUL.
Proof.
  induction n as [|n IH]; intros l k Hl Hk.
  - lia.
  - destruct (length3_inv _ _ _ Hl) as (r & g & b & rest & -> & Hrest).
    destruct k as [|k].
    + simpl. auto.
    + replace (4 * S k) with (4 + 4 * k) by lia.
      replace (3 * S k) with (3 + 3 * k) by lia.
      simpl in Hk.
      specialize (IH rest k Hrest ltac:(lia)).
      exact IH.
Qed.

End ChannelAdapter.

(** C7.  For every 3-channel pixel buffer (byte count a multiple of 3),
    [RGBtoRGBA] succeeds and [RGBAtoRGB] applied to its result gives back the
    original image: same width, same height, same bytes.  The alpha bytes
    have no effect on the colour bytes: any 4-channel image that agrees with
    the padded one everywhere except at the alpha positions (indices
    congruent to 3 modulo 4) is converted back to the same original. *)
Theorem RGBAtoRGB_RGBtoRGBA_roundtrip (img : Image) :
  (List.length (pixel img) mod 3 = 0)%nat ->
  exists rgba,
    RGBtoRGBA img = Some rgba /\
    RGBAtoRGB rgba = Some img /\
    forall other : Image,
      width other = width rgba ->
      height other = height rgba ->
      List.length (pixel other) = List.length (pixel rgba) ->
      (forall k, (k mod 4 <> 3)%nat ->
                 nth_error (pixel other) k = nth_error (pixel rgba) k) ->
      RGBAtoRGB other = Some img.
Proof.
  intros H.
  destruct (multiple_of_3 _ H) as (n & Hn & _).
  exists (mkImage (pad_alpha (pixel img)) (width img) (height img)).
  split; [apply RGBtoRGBA_pixels; assumption|].
  pose proof (pad_alpha_length n _ Hn) as Hpad.
  split.
  - rewrite (RGBAtoRGB_pixels _ n) by exact Hpad.
    simpl. rewrite (drop_pad_alpha n _ Hn). destruct img; reflexivity.
  - intros other Hw Hh Hlen Hagree. simpl in *.
    rewrite Hpad in Hlen.
    rewrite (RGBAtoRGB_pixels _ n) by exact Hlen.
    rewrite (drop_alpha_ignores_alpha n (pixel img) (pixel other) Hn Hlen Hagree).
    rewrite Hw, Hh. destruct img; reflexivity.
Qed.

Lemma RGBAtoRGB_RGBtoRGBA_roundtrip_witness :
  (List.length (pixel two_pixels) mod 3 = 0)%nat /\
  exists rgba,
    RGBtoRGBA two_pixels = Some rgba /\
    RGBAtoRGB rgba = Some two_pixels /\
    forall other : Image,
      width other = width rgba ->
      height other = height rgba ->
      List.length (pixel other) = List.length (pixel rgba) ->
      (forall k, (k mod 4 <> 3)%nat ->
                 nth_error (pixel other) k = nth_error (pixel rgba) k) ->
      RGBAtoRGB other = Some two_pixels.
Proof.
  split; [reflexivity | apply (RGBAtoRGB_RGBtoRGBA_roundtrip two_pixels); reflexivity].
Defined.

(** C9.  For every 3-channel input buffer, [RGBtoRGBA] keeps width and
    height, produces four bytes for every three of the input (output length
    = 4/3 of the input length), copies the colour bytes of pixel [k] in order
    (output bytes [4k], [4k+1], [4k+2] are input bytes [3k], [3k+1], [3k+2])
    and sets every inserted fourth byte to 0. *)
Theorem RGBtoRGBA_layout (img : Image) :
  (List.length (pixel img) mod 3 = 0)%nat ->
  exists rgba,
    RGBtoRGBA img = Some rgba /\
    width rgba = width img /\
    height rgba = height img /\
    (3 * List.length (pixel rgba) = 4 * List.length (pixel img))%nat /\
    forall k, (3 * k < List.length (pixel img))%nat ->
      nth_error (pixel rgba) (4 * k) = nth_error (pixel img) (3 * k) /\
      nth_error (pixel rgba) (4 * k + 1) = nth_error (pixel img) (3 * k + 1) /\
      nth_error (pixel rgba) (4 * k + 2) = nth_error (pixel img) (3 * k + 2) /\
      nth_error (pixel rgba) (4 * k + 3) = Some NUL.
Proof.
  intros H.
  destruct (multiple_of_3 _ H) as (n & Hn & _).
  exists (mkImage (pad_alpha (pixel img)) (width img) (height img)).
  split; [apply RGBtoRGBA_pixels; assumption|].
  simpl. repeat split; try reflexivity.
  - rewrite (pad_alpha_length n _ Hn). lia.
  - apply (pad_alpha_nth n); assumption.
  - apply (pad_alpha_nth n); assumption.
  - apply (pad_alpha_nth n); assumption.
  - apply (pad_alpha_nth n); assumption.
Qed.

Lemma RGBtoRGBA_layout_witness :
  (List.length (pixel two_pixels) mod 3 = 0)%nat /\
  exists rgba,
    RGBtoRGBA two_pixels = Some rgba /\
    width rgba = width two_pixels /\
    height rgba = height two_pixels /\
    (3 * List.length (pixel rgba) = 4 * List.length (pixel two_pixels))%nat /\
    forall k, (3 * k < List.length (pixel two_pixels))%nat ->
      nth_error (pixel rgba) (4 * k) = nth_error (pixel two_pixels) (3 * k) /\
      nth_error (pixel rgba) (4 * k + 1) = nth_error (pixel two_pixels) (3 * k + 1) /\
      nth_error (pixel rgba) (4 * k + 2) = nth_error (pixel two_pixels) (3 * k + 2) /\
      nth_error (pixel rgba) (4 * k + 3) = Some NUL.
Proof.
  split; [reflexivity | apply (RGBtoRGBA_layout two_pixels); reflexivity].
Defined.

(** ** Computations and their traces *)

Section MonadLemmas.

Context {A B : Type}.

Lemma bind_continue (m : M A) (f : A -> M B) (tr : list event) (a : A) :
  m = (tr, Continue a) -> bind m f = (tr ++ fst (f a), snd (f a)).
Proof. intros ->. unfold bind. destruct (f a). reflexivity. Qed.

Lemma bind_stop (m : M A) (f : A -> M B) (tr : list event) (e : ending) :
  m = (tr, Stop e) -> bind m f = (tr, Stop e).
Proof. intros ->. reflexivity. Qed.

Lemma bind_ret_l (a : A) (f : A -> M B) : bind (ret a) f = f a.
Proof. unfold bind, ret. destruct (f a). reflexivity. Qed.

Lemma holds_bind (P : event -> bool) (Q : ending -> bool) (m : M A) (f : A -> M B) :
  holds P Q m -> (forall a, holds P Q (f a)) -> holds P Q (bind m f).
Proof.
  destruct m as [tr [a | e]]; intros [Hm1 Hm2] Hf.
  - rewrite (bind_continue _ f tr a eq_refl).
    destruct (Hf a) as [Hf1 Hf2]. split; simpl.
    + rewrite forallb_app. simpl in Hm1. rewrite Hm1, Hf1. reflexivity.
    + exact Hf2.
  - rewrite (bind_stop _ f tr e eq_refl). split; assumption.
Qed.


Lemma releases_app (tr1 tr2 : list event) :
  releases (tr1 ++ tr2) = releases tr1 ++ releases tr2.
Proof.
  induction tr1 as [|e tr1 IH]; simpl; [reflexivity|].
  destruct e as [c | | | |]; try exact IH.
  destruct (is_release c); simpl; rewrite IH; reflexivity.
Qed.

Lemma releases_none (tr : list event) :
  forallb not_release tr = true -> releases tr = [].
Proof.
  induction tr as [|e tr IH]; simpl; [reflexivity|].
  intros H. apply andb_prop in H. destruct H as [He Htr].
  destruct e as [c | | | |]; try (apply IH; exact Htr).
  simpl in He. destruct (is_release c); [discriminate | apply IH; exact Htr].
Qed.

Lemma releases_at_end_bind (m : M A) (f : A -> M B) :
  holds not_release not_exit_0 m ->
  (forall a, releases_at_end (f a)) ->
  releases_at_end (bind m f).
Proof.
  destruct m as [tr [a | e]]; intros [Hm1 Hm2] Hf.
  - rewrite (bind_continue _ f tr a eq_refl).
    specialize (Hf a). unfold releases_at_end in *. simpl in *.
    destruct (snd (f a)) as [b | e].
    + destruct Hf as (pre & Hpre & Hquiet).
      exists (tr ++ pre). split.
      * rewrite Hpre, app_assoc. reflexivity.
      * rewrite forallb_app, Hm1, Hquiet. reflexivity.
    + destruct Hf as [Hquiet He]. split; [|exact He].
      rewrite forallb_app, Hm1, Hquiet. reflexivity.
  - rewrite (bind_stop _ f tr e eq_refl). unfold releases_at_end. simpl in *.
    split; assumption.
Qed.

End MonadLemmas.

Section HoldsLemmas.

Variables (P : event -> bool) (Q : ending -> bool).

Lemma holds_ret {A : Type} (a : A) : holds P Q (ret a).
Proof. split; simpl; auto. Qed.

Lemma holds_halt {A : Type} (e : ending) : Q e = true -> holds P Q (@halt A e).
Proof. intros H. split; simpl; auto. Qed.

Lemma holds_emit (e : event) : P e = true -> holds P Q (emit e).
Proof. intros H. split; simpl; [rewrite H; reflexivity | exact I]. Qed.

Lemma holds_call (w : World) (c : cl_call) :
  P (Call c) = true -> holds P Q (call w c).
Proof. intros H. split; simpl; [rewrite H; reflexivity | exact I]. Qed.

Lemma holds_CheckError (error : Z) :
  P (error_report error) = true -> Q (Exited 1) = true ->
  holds P Q (CheckError error).
Proof.
  intros HP HQ. unfold CheckError.
  destruct (negb (error =? CL_SUCCESS)); split; simpl; auto.
  rewrite HP. reflexivity.
Qed.

Lemma holds_for_each (l : list nat) (body : nat -> M unit) :
  (forall i, holds P Q (body i)) -> holds P Q (for_each l body).
Proof.
  intros Hbody. induction l as [|i l IH]; simpl.
  - apply holds_ret.
  - apply holds_bind; [apply Hbody | intros _; exact IH].
Qed.

End HoldsLemmas.

(** Walks through a computation built from the operations of the monad. *)
Ltac holds_step :=
  match goal with
  | |- holds _ _ (bind _ _) => apply holds_bind; [|intros]
  | |- holds _ _ (ret _) => apply holds_ret
  | |- holds _ _ (emit _) => apply holds_emit; reflexivity
  | |- holds _ _ (halt _) => apply holds_halt; reflexivity
  | |- holds _ _ (call _ _) => apply holds_call; reflexivity
  | |- holds _ _ (CheckError _) => apply holds_CheckError; reflexivity
  | |- holds _ _ (for_each _ _) => apply holds_for_each; intros
  | |- holds _ _ (if ?c then _ else _) => destruct c
  | |- holds _ _ (match ?x with _ => _ end) => destruct x
  | |- holds _ _ (let '(_, _) := ?x in _) => destruct x
  end.

Ltac holds_walk := repeat holds_step.

(** ** [main]: the release calls *)

Section Release.

Variables rd rf cexp : R -> R.

Lemma read_arguments_quiet (argv : list string) :
  holds not_release not_exit_0 (read_arguments argv).
Proof. unfold read_arguments. holds_walk. Qed.

Lemma create_context_quiet (w : World) :
  holds not_release not_exit_0 (create_context w).
Proof. unfold create_context, GetPlatformName, GetDeviceName. holds_walk. Qed.

Lemma make_filter_quiet (filterSize : Z) :
  holds not_release not_exit_0 (make_filter rd rf cexp filterSize).
Proof. unfold make_filter. holds_walk. Qed.

Lemma create_kernel_quiet (w : World) (filterSize : Z) :
  holds not_release not_exit_0 (create_kernel w filterSize).
Proof. unfold create_kernel, LoadKernel, CreateProgram. holds_walk. Qed.

Lemma LoadImage_quiet (P : event -> bool) (content : option string) :
  holds P not_exit_0 (LoadImage content).
Proof. unfold LoadImage, read_pixels. holds_walk. Qed.

Lemma load_input_quiet (w : World) :
  holds not_release not_exit_0 (load_input w).
Proof.
  unfold load_input.
  apply holds_bind; [holds_walk | intros _].
  apply holds_bind; [apply LoadImage_quiet | intros loaded].
  holds_walk.
Qed.

Lemma convolve_quiet (w : World) (filter : kernel_type) (image : Image) :
  holds not_release not_exit_0 (convolve w filter image).
Proof. unfold convolve. holds_walk. Qed.

Lemma release_all_releases (w : World) : releases_at_end (release_all w).
Proof.
  unfold releases_at_end. simpl. exists []. split; reflexivity.
Qed.

Lemma main_releases_at_end (w : World) (argv : list string) :
  releases_at_end (main rd rf cexp w argv).
Proof.
  unfold main.
  apply releases_at_end_bind; [apply read_arguments_quiet | intros filterSize].
  apply releases_at_end_bind; [apply create_context_quiet | intros _].
  apply releases_at_end_bind; [apply make_filter_quiet | intros filter].
  apply releases_at_end_bind; [apply create_kernel_quiet | intros _].
  apply releases_at_end_bind; [apply load_input_quiet | intros image].
  apply releases_at_end_bind; [apply convolve_quiet | intros _].
  apply release_all_releases.
Qed.

End Release.

(** C4, as the code has it.  A run that reaches the end of [main] (exit
    status 0) ends with the release of the output image, the weights buffer,
    the input image, the command queue, the kernel, the program and the
    context, in that order, and makes no other release call; the status of
    the readback plays no part in this.  A run that ends in any other way
    (a failed dispatch, for one, ends in [CheckError]) makes no release call
    at all. *)
Theorem releases_on_complete_runs_only
    (rd rf cexp : R -> R) (w : World) (argv : list string) :
  if not_exit_0 (snd (run rd rf cexp w argv))
  then forallb not_release (fst (run rd rf cexp w argv)) = true
  else ends_with_releases (fst (run rd rf cexp w argv)).
Proof.
  pose proof (main_releases_at_end rd rf cexp w argv) as H.
  unfold run, releases_at_end in *.
  destruct (main rd rf cexp w argv) as [tr [[] | e]]; simpl in *.
  - exact H.
  - destruct H as [Hq He]. rewrite He. exact Hq.
Qed.

(** The run of the sample world in which the dispatch fails. *)
Lemma run_dispatch_fails :
  run exact_rd exact_rf exact_exp
      (sample_world dispatch_fails (Some sample_ppm)) ["blur"; "0"]%string
  = ([Call (clGetPlatformIDs 0);
      Stdout ("Found 1 platform(s)" +++ newline);
      Call (clGetPlatformIDs 1);
      Call (clGetPlatformInfo 0); Call (clGetPlatformInfo 0);
      Stdout (tab +++ " (1) : platform" +++ newline);
      Call (clGetDeviceIDs 0);
      Stdout ("Found 1 device(s)" +++ newline);
      Call (clGetDeviceIDs 1);
      Call (clGetDeviceInfo 0); Call (clGetDeviceInfo 0);
      Stdout (tab +++ " (1) : device" +++ newline);
      Call (clCreateContext 1);
      Stdout ("Context created" +++ newline);
      ReadFile "kernels/image.cl";
      Call (clCreateProgramWithSource "kernel source");
      Call (clBuildProgram 1 "-D RADIUS=0");
      Call (clCreateKernel "Filter");
      ReadFile "test.ppm";
      Call (clCreateImage2D 1 1 (Some ["a"; "b"; "c"; NUL]%char));
      Call (clCreateImage2D 1 1 None);
      Call (clCreateBuffer [1%R]);
      Call (clSetKernelArg 0 InputImage);
      Call (clSetKernelArg 1 FilterWeightsBuffer);
      Call (clSetKernelArg 2 OutputImage);
      Call clCreateCommandQueue;
      Call (clEnqueueNDRangeKernel 1 1);
      error_report (-5)],
     Exited 1).
Proof. vm_compute. reflexivity. Qed.

(** C4 as stated fails when the dispatch fails: the process ends in
    [CheckError] with status 1 and not one release call has been made. *)
Lemma dispatch_failure_releases_nothing :
  cl_status (sample_world dispatch_fails (Some sample_ppm))
            (clEnqueueNDRangeKernel 1 1) <> CL_SUCCESS /\
  In (Call (clEnqueueNDRangeKernel 1 1))
     (fst (run exact_rd exact_rf exact_exp
               (sample_world dispatch_fails (Some sample_ppm))
               ["blur"; "0"]%string)) /\
  releases (fst (run exact_rd exact_rf exact_exp
                     (sample_world dispatch_fails (Some sample_ppm))
                     ["blur"; "0"]%string)) = [] /\
  snd (run exact_rd exact_rf exact_exp
           (sample_world dispatch_fails (Some sample_ppm))
           ["blur"; "0"]%string) = Exited 1.
Proof.
  rewrite run_dispatch_fails. split; [discriminate|].
  split; [simpl; tauto|].
  split; reflexivity.
Qed.

(** ** [main]: the calls that go through [CheckError] *)

Section ErrorDiscipline.

Variable w : World.

Lemma not_checked_in (tr : list event) (c : cl_call) :
  forallb not_checked tr = true -> In (Call c) tr -> checked_call c = false.
Proof.
  intros Hall Hin. rewrite forallb_forall in Hall.
  specialize (Hall _ Hin). simpl in Hall.
  destruct (checked_call c); [discriminate | reflexivity].
Qed.

(** A computation without checked calls meets the discipline, however it
    ends. *)
Lemma disciplined_quiet {A : Type} (m : M A) :
  holds not_checked any_ending m -> disciplined w m.
Proof.
  intros [Hall _]. unfold disciplined. destruct (snd m) as [a | e].
  - intros c Hin Hc. rewrite (not_checked_in _ _ Hall Hin) in Hc. discriminate.
  - intros c pre post Htr Hc _.
    assert (Hin : In (Call c) (fst m)) by (rewrite Htr; apply in_elt).
    rewrite (not_checked_in _ _ Hall Hin) in Hc. discriminate.
Qed.

Lemma split_after (tr1 tr2 pre post : list event) (x : event) :
  tr1 ++ tr2 = pre ++ x :: post -> ~ In x tr1 ->
  exists pre', pre = tr1 ++ pre' /\ tr2 = pre' ++ x :: post.
Proof.
  revert pre. induction tr1 as [|y tr1 IH]; intros pre Heq Hnot.
  - exists pre. split; [reflexivity | exact Heq].
  - destruct pre as [|p pre]; simpl in Heq.
    + injection Heq as <- _. exfalso. apply Hnot. left. reflexivity.
    + injection Heq as <- Heq.
      destruct (IH pre Heq) as (pre' & -> & ->).
      * intros Hin. apply Hnot. right. exact Hin.
      * exists pre'. split; reflexivity.
Qed.

Lemma disciplined_bind {A B : Type} (m : M A) (f : A -> M B) :
  disciplined w m -> (forall a, disciplined w (f a)) -> disciplined w (bind m f).
Proof.
  destruct m as [tr [a | e]]; intros Hm Hf.
  - rewrite (bind_continue _ f tr a eq_refl).
    specialize (Hf a). unfold disciplined in *. simpl in *.
    destruct (snd (f a)) as [b | e].
    + intros c Hin Hc. apply in_app_or in Hin.
      destruct Hin as [Hin | Hin]; [apply Hm | apply Hf]; assumption.
    + intros c pre post Htr Hc Hfail.
      destruct (split_after _ _ _ _ _ Htr) as (pre' & _ & Htr2).
      * intros Hin. apply Hfail. apply Hm; assumption.
      * exact (Hf c pre' post Htr2 Hc Hfail).
  - rewrite (bind_stop _ f tr e eq_refl). exact Hm.
Qed.

(** A checked call followed by [CheckError]. *)
Lemma disciplined_checked_last (c : cl_call) :
  disciplined w (error <- call w c ;; CheckError error).
Proof.
  unfold disciplined, call, CheckError, bind, emit, ret, halt. simpl.
  destruct (cl_status w c =? CL_SUCCESS) eqn:E; simpl.
  - apply Z.eqb_eq in E. intros c' [Hin | []] _. injection Hin as <-. exact E.
  - intros c' pre post Htr Hc Hfail.
    destruct pre as [|p [|q pre]]; simpl in Htr.
    + injection Htr as <- <-. split; reflexivity.
    + injection Htr as _ Hq _. discriminate Hq.
    + injection Htr as _ _ Htr. destruct pre; discriminate Htr.
Qed.

Lemma bind_assoc {A B C : Type} (m : M A) (f : A -> M B) (g : B -> M C) :
  bind m (fun a => bind (f a) g) = bind (bind m f) g.
Proof.
  destruct m as [tr [a | e]]; [|reflexivity].
  unfold bind. destruct (f a) as [tr1 [b | e]].
  - destruct (g b) as [tr2 r]. rewrite app_assoc. reflexivity.
  - reflexivity.
Qed.

Lemma disciplined_checked {B : Type} (c : cl_call) (k : unit -> M B) :
  (forall u, disciplined w (k u)) ->
  disciplined w (error <- call w c ;; x <- CheckError error ;; k x).
Proof.
  intros Hk.
  change (disciplined w (bind (call w c) (fun error => bind (CheckError error) k))).
  rewrite (bind_assoc (call w c) CheckError k).
  apply disciplined_bind; [apply disciplined_checked_last | exact Hk].
Qed.

End ErrorDiscipline.

Ltac disciplined_step :=
  match goal with
  | |- disciplined _ (bind (call _ _) (fun error => bind (CheckError error) _)) =>
      apply disciplined_checked; intros
  | |- disciplined _ (bind (call _ _) (fun error => CheckError error)) =>
      apply disciplined_checked_last
  | |- disciplined _ (bind _ _) => apply disciplined_bind; [|intros]
  | |- disciplined _ _ => apply disciplined_quiet; solve [holds_walk]
  end.

Section ErrorDisciplineOfMain.

Variables rd rf cexp : R -> R.
Variable w : World.

Lemma LoadImage_no_call (content : option string) :
  holds not_checked any_ending (LoadImage content).
Proof. unfold LoadImage, read_pixels. holds_walk. Qed.

Lemma create_context_disciplined : disciplined w (create_context w).
Proof.
  unfold create_context, GetPlatformName, GetDeviceName.
  repeat disciplined_step.
Qed.

Lemma create_kernel_disciplined (filterSize : Z) :
  disciplined w (create_kernel w filterSize).
Proof.
  unfold create_kernel, LoadKernel, CreateProgram.
  repeat disciplined_step.
Qed.

Lemma load_input_disciplined : disciplined w (load_input w).
Proof.
  unfold load_input. apply disciplined_quiet.
  apply holds_bind; [holds_walk | intros _].
  apply holds_bind; [apply LoadImage_no_call | intros loaded].
  holds_walk.
Qed.

Lemma convolve_disciplined (filter : kernel_type) (image : Image) :
  disciplined w (convolve w filter image).
Proof. unfold convolve. repeat disciplined_step. Qed.

Lemma main_disciplined (argv : list string) :
  disciplined w (main rd rf cexp w argv).
Proof.
  unfold main.
  apply disciplined_bind;
    [apply disciplined_quiet; unfold read_arguments; holds_walk | intros filterSize].
  apply disciplined_bind; [apply create_context_disciplined | intros _].
  apply disciplined_bind;
    [apply disciplined_quiet; unfold make_filter; holds_walk | intros filter].
  apply disciplined_bind; [apply create_kernel_disciplined | intros _].
  apply disciplined_bind; [apply load_input_disciplined | intros image].
  apply disciplined_bind; [apply convolve_disciplined | intros _].
  apply disciplined_quiet. unfold release_all. holds_walk.
Qed.

End ErrorDisciplineOfMain.

(** C5, for the calls the code does check.  Whenever a run makes one of the
    calls that create the context, the program, the kernel, an image, the
    weights buffer or the queue, that build the program or that enqueue the
    dispatch, and the call returns a status other than [CL_SUCCESS], the
    next and last event of the run is the report of that numeric status on
    the diagnostic stream and the process ends with status 1. *)
Theorem checked_calls_are_fatal
    (rd rf cexp : R -> R) (w : World) (argv : list string)
    (c : cl_call) (pre post : list event) :
  fst (run rd rf cexp w argv) = pre ++ Call c :: post ->
  checked_call c = true ->
  cl_status w c <> CL_SUCCESS ->
  post = [error_report (cl_status w c)] /\
  snd (run rd rf cexp w argv) = Exited 1.
Proof.
  intros Htr Hc Hfail.
  pose proof (main_disciplined rd rf cexp w argv) as H.
  unfold run, disciplined in *.
  destruct (main rd rf cexp w argv) as [tr [[] | e]]; simpl in *.
  - exfalso. apply Hfail. apply H; [|exact Hc].
    rewrite Htr. apply in_elt.
  - exact (H c pre post Htr Hc Hfail).
Qed.

(** The run of the sample world in which the context cannot be created. *)
Lemma run_context_fails :
  run exact_rd exact_rf exact_exp
      (sample_world context_fails (Some sample_ppm)) ["blur"; "0"]%string
  = ([Call (clGetPlatformIDs 0);
      Stdout ("Found 1 platform(s)" +++ newline);
      Call (clGetPlatformIDs 1);
      Call (clGetPlatformInfo 0); Call (clGetPlatformInfo 0);
      Stdout (tab +++ " (1) : platform" +++ newline);
      Call (clGetDeviceIDs 0);
      Stdout ("Found 1 device(s)" +++ newline);
      Call (clGetDeviceIDs 1);
      Call (clGetDeviceInfo 0); Call (clGetDeviceInfo 0);
      Stdout (tab +++ " (1) : device" +++ newline)]
     ++ Call (clCreateContext 1) :: [error_report (-6)],
     Exited 1).
Proof. vm_compute. reflexivity. Qed.

Lemma checked_calls_are_fatal_witness :
  let w := sample_world context_fails (Some sample_ppm) in
  let argv := ["blur"; "0"]%string in
  let pre :=
    [Call (clGetPlatformIDs 0);
     Stdout ("Found 1 platform(s)" +++ newline);
     Call (clGetPlatformIDs 1);
     Call (clGetPlatformInfo 0); Call (clGetPlatformInfo 0);
     Stdout (tab +++ " (1) : platform" +++ newline);
     Call (clGetDeviceIDs 0);
     Stdout ("Found 1 device(s)" +++ newline);
     Call (clGetDeviceIDs 1);
     Call (clGetDeviceInfo 0); Call (clGetDeviceInfo 0);
     Stdout (tab +++ " (1) : device" +++ newline)] in
  fst (run exact_rd exact_rf exact_exp w argv)
  = pre ++ Call (clCreateContext 1) :: [error_report (-6)] /\
  checked_call (clCreateContext 1) = true /\
  cl_status w (clCreateContext 1) <> CL_SUCCESS /\
  [error_report (-6)] = [error_report (cl_status w (clCreateContext 1))] /\
  snd (run exact_rd exact_rf exact_exp w argv) = Exited 1.
Proof.
  intros w argv pre.
  assert (H1 : fst (run exact_rd exact_rf exact_exp w argv)
               = pre ++ Call (clCreateContext 1) :: [error_report (-6)])
    by (unfold w, argv; rewrite run_context_fails; reflexivity).
  assert (H2 : checked_call (clCreateContext 1) = true) by reflexivity.
  assert (H3 : cl_status w (clCreateContext 1) <> CL_SUCCESS) by discriminate.
  split; [exact H1|]. split; [exact H2|]. split; [exact H3|].
  exact (checked_calls_are_fatal exact_rd exact_rf exact_exp w argv
           (clCreateContext 1) pre [error_report (-6)] H1 H2 H3).
Defined.

(** The run of the sample world in which the readback fails. *)
Lemma run_readback_fails :
  run exact_rd exact_rf exact_exp
      (sample_world readback_fails (Some sample_ppm)) ["blur"; "0"]%string
  = ([Call (clGetPlatformIDs 0);
      Stdout ("Found 1 platform(s)" +++ newline);
      Call (clGetPlatformIDs 1);
      Call (clGetPlatformInfo 0); Call (clGetPlatformInfo 0);
      Stdout (tab +++ " (1) : platform" +++ newline);
      Call (clGetDeviceIDs 0);
      Stdout ("Found 1 device(s)" +++ newline);
      Call (clGetDeviceIDs 1);
      Call (clGetDeviceInfo 0); Call (clGetDeviceInfo 0);
      Stdout (tab +++ " (1) : device" +++ newline);
      Call (clCreateContext 1);
      Stdout ("Context created" +++ newline);
      ReadFile "kernels/image.cl";
      Call (clCreateProgramWithSource "kernel source");
      Call (clBuildProgram 1 "-D RADIUS=0");
      Call (clCreateKernel "Filter");
      ReadFile "test.ppm";
      Call (clCreateImage2D 1 1 (Some ["a"; "b"; "c"; NUL]%char));
      Call (clCreateImage2D 1 1 None);
      Call (clCreateBuffer [1%R]);
      Call (clSetKernelArg 0 InputImage);
      Call (clSetKernelArg 1 FilterWeightsBuffer);
      Call (clSetKernelArg 2 OutputImage);
      Call clCreateCommandQueue;
      Call (clEnqueueNDRangeKernel 1 1);
      Call (clEnqueueReadImage 1 1);
      WriteFile "output.ppm" (SaveImage (mkImage [NUL; NUL; NUL] 1 1));
      Call (clReleaseMemObject OutputImage);
      Call (clReleaseMemObject FilterWeightsBuffer);
      Call (clReleaseMemObject InputImage);
      Call clReleaseCommandQueue;
      Call clReleaseKernel;
      Call clReleaseProgram;
      Call clReleaseContext],
     Exited 0).
Proof. vm_compute. reflexivity. Qed.

(** C5 as stated fails for the readback: its status is dropped.  When
    [clEnqueueReadImage] fails nothing is reported on the diagnostic stream,
    the output file is written (black in this world, where the failing call
    leaves the buffer as it was) and the process ends with status 0. *)
Lemma readback_failure_is_not_reported :
  cl_status (sample_world readback_fails (Some sample_ppm))
            (clEnqueueReadImage 1 1) <> CL_SUCCESS /\
  In (Call (clEnqueueReadImage 1 1))
     (fst (run exact_rd exact_rf exact_exp
               (sample_world readback_fails (Some sample_ppm))
               ["blur"; "0"]%string)) /\
  (forall text,
      ~ In (Stderr text)
           (fst (run exact_rd exact_rf exact_exp
                     (sample_world readback_fails (Some sample_ppm))
                     ["blur"; "0"]%string))) /\
  In (WriteFile "output.ppm" (SaveImage (mkImage [NUL; NUL; NUL] 1 1)))
     (fst (run exact_rd exact_rf exact_exp
               (sample_world readback_fails (Some sample_ppm))
               ["blur"; "0"]%string)) /\
  snd (run exact_rd exact_rf exact_exp
           (sample_world readback_fails (Some sample_ppm))
           ["blur"; "0"]%string) = Exited 0.
Proof.
  rewrite run_readback_fails. split; [discriminate|].
  split; [simpl; tauto|].
  split.
  - intros text Hin. simpl in Hin.
    repeat (destruct Hin as [Hin | Hin]; [discriminate Hin|]).
    exact Hin.
  - split; [simpl; tauto | reflexivity].
Qed.

(** ** [LoadImage]: the comment loop *)

Section CommentLoop.

Local Open Scope nat_scope.

Lemma read_line_shorter (b : string) :
  forall l rest, read_line b = (l, Some rest) -> String.length rest < String.length b.
Proof.
  induction b as [|c b IH]; simpl; intros l rest H.
  - discriminate H.
  - destruct (c =? "010")%char.
    + injection H as _ <-. lia.
    + destruct (read_line b) as [l' [rest'|]]; [|discriminate H].
      injection H as _ <-. specialize (IH l' rest' eq_refl). lia.
Qed.

(** Any fuel above [turns_left] gives the same result: the [None] of
    [skip_comments] in [LoadImage] is a loop that never ends, never a lack of
    fuel. *)
Lemma skip_comments_fuel (fuel1 : nat) :
  forall fuel2 s str,
    turns_left s <= fuel1 -> turns_left s <= fuel2 ->
    skip_comments fuel1 s str = skip_comments fuel2 s str.
Proof.
  induction fuel1 as [|fuel1 IH]; intros fuel2 s str H1 H2.
  - unfold turns_left in H1. destruct (good s); lia.
  - destruct fuel2 as [|fuel2]; [unfold turns_left in H2; destruct (good s); lia|].
    simpl. unfold getline. unfold turns_left in H1, H2.
    destruct (good s) eqn:Hgood.
    + destruct (read_line (buffer s)) as [l [rest|]] eqn:Hline.
      * pose proof (read_line_shorter _ _ _ Hline) as Hshort.
        assert (Hrec : skip_comments fuel1 (mkStream rest false false) l
                       = skip_comments fuel2 (mkStream rest false false) l)
          by (apply IH; unfold turns_left; simpl; lia).
        destruct l as [|c l']; [exact Hrec|].
        destruct (negb (c =? "#")%char); [reflexivity | exact Hrec].
      * assert (Hrec : skip_comments fuel1
                         (mkStream String.EmptyString true (is_empty l)) l
                       = skip_comments fuel2
                           (mkStream String.EmptyString true (is_empty l)) l)
          by (apply IH; unfold turns_left; simpl; lia).
        destruct l as [|c l']; [exact Hrec|].
        destruct (negb (c =? "#")%char); [reflexivity | exact Hrec].
    + destruct str as [|c str']; [reflexivity|].
      destruct (negb (c =? "#")%char); reflexivity.
Qed.

Lemma read_header_fuel (magic : string) (s1 : istream) (extra : nat) :
  skip_comments (String.length (buffer s1) + 2 + extra) s1 magic
  = skip_comments (String.length (buffer s1) + 2) s1 magic.
Proof.
  apply skip_comments_fuel; unfold turns_left; destruct (good s1); lia.
Qed.

End CommentLoop.

(** ** [main]: files with a bad header *)

Section BadHeader.

Variables rd rf cexp : R -> R.

(** For a radius in the defined range the filter is built and the [assert]
    holds. *)
Lemma make_filter_defined (filterSize : Z) :
  0 <= filterSize < 1073741824 ->
  exists k, make_filter rd rf cexp filterSize = ret k /\
            produce2dGaussianKernel rd rf cexp filterSize = Some k.
Proof.
  intros Hr. unfold make_filter.
  replace (filterSize <? 0) with false by (symmetry; apply Z.ltb_ge; lia).
  replace (in_int (2 * filterSize + 1)) with true
    by (symmetry; unfold in_int, INT_MIN, INT_MAX; apply andb_true_intro;
        split; apply Z.leb_le; lia).
  replace (to_uint filterSize) with filterSize
    by (symmetry; apply Z.mod_small; unfold UINT_MOD; lia).
  simpl orb. cbv iota.
  destruct (Z.eq_dec filterSize 0) as [-> | Hnz].
  - exists [[1%R]]. split; reflexivity.
  - assert (Hrange : radius_in_range filterSize) by (unfold radius_in_range; lia).
    rewrite (produce2dGaussianKernel_spec rd rf cexp filterSize Hrange).
    eexists. split; [|reflexivity].
    assert (Hpos : (0 < Z.to_nat (2 * filterSize + 1))%nat) by lia.
    rewrite (nth_map_seq _ _ _ _ Hpos).
    rewrite !length_map, !length_seq, Z2Nat.id by lia.
    rewrite Z.eqb_refl. reflexivity.
Qed.






End BadHeader.



Lemma deep_colour_is_bad : bad_max_color (Some deep_colour_ppm).
Proof.
  unfold bad_max_color. eexists. exists 65535.
  split; [vm_compute; reflexivity|].
  split; [reflexivity | discriminate].
Qed.



(** ** [main]: the argument *)

Section Argument.

Lemma read_digits_no_digit (s : string) :
  first_is_digit s = false ->
  read_digits s 0 false = (0, false, s).
Proof.
  destruct s as [|c t]; simpl; [reflexivity|].
  intros ->. reflexivity.
Qed.

Lemma atoi_without_number (s : string) :
  starts_with_number s = false -> atoi s = 0.
Proof.
  unfold atoi, starts_with_number, read_signed.
  destruct (skip_space s) as [|c t].
  - intros _. reflexivity.
  - destruct (c =? "-")%char; simpl orb; cbv iota.
    + intros H. rewrite (read_digits_no_digit t H). reflexivity.
    + destruct (c =? "+")%char; simpl orb; cbv iota.
      * intros H. rewrite (read_digits_no_digit t H). reflexivity.
      * intros H. rewrite (read_digits_no_digit (String.String c t) H).
        reflexivity.
Qed.

Lemma starts_with_bind {A B : Type} (e : event) (m : M A) (f : A -> M B) :
  starts_with e m -> starts_with e (bind m f).
Proof.
  intros [tr Htr]. destruct m as [tr0 [a | e0]]; simpl in Htr; subst tr0.
  - unfold bind. destruct (f a) as [tr' r]. exists (tr ++ tr'). reflexivity.
  - exists tr. reflexivity.
Qed.

Lemma create_context_starts (w : World) :
  starts_with (Call (clGetPlatformIDs 0)) (create_context w).
Proof.
  unfold create_context. apply starts_with_bind. exists []. reflexivity.
Qed.

End Argument.

(** C10, for the arguments in which [atoi] finds no number.  When exactly
    one argument is supplied and it does not begin, after optional white
    space and an optional sign, with a digit, [atoi] yields 0; the run is
    the run with argument "0": it goes straight to the enumeration of the
    platforms, without a usage or parse error, and the filter is the 1x1
    matrix [[1.0]]. *)
Theorem argument_without_number_runs_as_radius_0
    (rd rf cexp : R -> R) (w : World) (argv0 s : string) :
  starts_with_number s = false ->
  atoi s = 0 /\
  run rd rf cexp w [argv0; s] = run rd rf cexp w [argv0; "0"%string] /\
  (exists tr, fst (run rd rf cexp w [argv0; s]) = Call (clGetPlatformIDs 0) :: tr) /\
  make_filter rd rf cexp (atoi s) = ret [[1%R]].
Proof.
  intros H. pose proof (atoi_without_number s H) as Hs.
  split; [exact Hs|].
  assert (Hrun : run rd rf cexp w [argv0; s] = run rd rf cexp w [argv0; "0"%string]).
  { unfold run, main, read_arguments. rewrite Hs. reflexivity. }
  split; [exact Hrun|]. split.
  - rewrite Hrun. unfold run, main, read_arguments.
    change (atoi "0") with 0. change (in_int 0) with true. cbv iota.
    rewrite bind_ret_l.
    destruct (starts_with_bind (Call (clGetPlatformIDs 0)) (create_context w)
                (fun _ =>
                   filter <- make_filter rd rf cexp 0 ;;
                   create_kernel w 0 ;;
                   image <- load_input w ;;
                   convolve w filter image ;;
                   release_all w)
                (create_context_starts w)) as [tr Htr].
    exists tr. rewrite <- Htr.
    match goal with |- fst (match ?m with _ => _ end) = _ =>
      destruct m as [tr0 [[] | e]]; reflexivity end.
  - rewrite Hs. reflexivity.
Qed.

Lemma argument_without_number_runs_as_radius_0_witness :
  starts_with_number "abc" = false /\
  atoi "abc" = 0 /\
  run exact_rd exact_rf exact_exp (sample_world all_succeed (Some sample_ppm))
      ["blur"; "abc"]%string
  = run exact_rd exact_rf exact_exp (sample_world all_succeed (Some sample_ppm))
        ["blur"; "0"]%string /\
  (exists tr,
      fst (run exact_rd exact_rf exact_exp
               (sample_world all_succeed (Some sample_ppm))
               ["blur"; "abc"]%string)
      = Call (clGetPlatformIDs 0) :: tr) /\
  make_filter exact_rd exact_rf exact_exp (atoi "abc") = ret [[1%R]].
Proof.
  split; [reflexivity|].
  exact (argument_without_number_runs_as_radius_0 exact_rd exact_rf exact_exp
           (sample_world all_succeed (Some sample_ppm)) "blur" "abc" eq_refl).
Defined.

(** C10 as stated fails for "3abc": the string is not a number, yet [atoi]
    yields 3 and the filter built is 7x7, not the 1x1 identity. *)
Lemma non_numeric_argument_with_leading_digit :
  numeric_string "3abc" = false /\
  atoi "3abc" = 3 /\
  exists k,
    make_filter exact_rd exact_rf exact_exp (atoi "3abc") = ret k /\
    List.length k = 7%nat.
Proof.
  split; [reflexivity|]. split; [reflexivity|].
  change (atoi "3abc") with 3.
  destruct (make_filter_defined exact_rd exact_rf exact_exp 3 ltac:(lia))
    as (k & Hk & Hp).
  exists k. split; [exact Hk|].
  rewrite (produce2dGaussianKernel_spec exact_rd exact_rf exact_exp 3) in Hp
    by (unfold radius_in_range; lia).
  injection Hp as Hp. subst k. reflexivity.
Qed.

(** ** More on the kernel: symmetry, separability, positive weights *)

Section KernelCells.

Variables rd rf cexp : R -> R.

(** The matrix returned for a radius in range, read cell by cell. *)
Lemma kernel_cells (r : Z) :
  radius_in_range r ->
  exists k,
    produce2dGaussianKernel rd rf cexp r = Some k /\
    forall row col : nat,
      Z.of_nat row <= 2 * r -> Z.of_nat col <= 2 * r ->
      get_cell k row col = normalized_cell rd rf cexp r row col.
Proof.
  intros Hr.
  eexists. split; [apply produce2dGaussianKernel_spec; exact Hr|].
  intros row col Hrow Hcol.
  pose proof (index_in_side r row Hr Hrow) as Hrow'.
  pose proof (index_in_side r col Hr Hcol) as Hcol'.
  unfold get_cell.
  rewrite (nth_map_seq _ _ _ _ Hrow').
  apply nth_map_seq. exact Hcol'.
Qed.

Lemma product_transposed (r : Z) (row col : nat) :
  product rd rf cexp r row col = product rd rf cexp r col row.
Proof. unfold product, fmul. rewrite Rmult_comm. reflexivity. Qed.

Lemma normalized_cell_transposed (r : Z) (row col : nat) :
  normalized_cell rd rf cexp r row col = normalized_cell rd rf cexp r col row.
Proof. unfold normalized_cell. rewrite product_transposed. reflexivity. Qed.

Hypothesis rd_odd : forall x : R, rd (- x)%R = (- rd x)%R.

Lemma mirror_in_side (r : Z) (i : nat) :
  Z.of_nat i <= 2 * r -> Z.of_nat (mirror r i) <= 2 * r.
Proof. unfold mirror. lia. Qed.

Lemma gaussian_mirrored (r : Z) (sigma : R) (i : nat) :
  Z.of_nat i <= 2 * r ->
  gaussian rd rf cexp (IZR (Z.of_nat (mirror r i))) (IZR r) sigma
  = gaussian rd rf cexp (IZR (Z.of_nat i)) (IZR r) sigma.
Proof.
  intros Hi.
  rewrite !(gaussian_abs rd rf cexp rd_odd).
  replace (IZR (Z.of_nat (mirror r i)) - IZR r)%R
    with (- (IZR (Z.of_nat i) - IZR r))%R.
  - rewrite Rabs_Ropp. reflexivity.
  - unfold mirror. rewrite Nat2Z.inj_sub by lia.
    rewrite Z2Nat.id by lia. rewrite minus_IZR, mult_IZR. simpl IZR. lra.
Qed.

Lemma product_mirrored (r : Z) (row col : nat) :
  Z.of_nat row <= 2 * r -> Z.of_nat col <= 2 * r ->
  product rd rf cexp r (mirror r row) col = product rd rf cexp r row col /\
  product rd rf cexp r row (mirror r col) = product rd rf cexp r row col.
Proof.
  intros Hrow Hcol. unfold product.
  rewrite !gaussian_mirrored by assumption. split; reflexivity.
Qed.

Lemma normalized_cell_mirrored (r : Z) (row col : nat) :
  Z.of_nat row <= 2 * r -> Z.of_nat col <= 2 * r ->
  normalized_cell rd rf cexp r (mirror r row) col
  = normalized_cell rd rf cexp r row col /\
  normalized_cell rd rf cexp r row (mirror r col)
  = normalized_cell rd rf cexp r row col.
Proof.
  intros Hrow Hcol. unfold normalized_cell.
  destruct (product_mirrored r row col Hrow Hcol) as [-> ->].
  split; reflexivity.
Qed.

End KernelCells.

(** X1.  The matrix is symmetric: for every radius from 0 to 2^30 - 1 and
    whatever the rounding of the arithmetic, the entry at [row], [col] is the
    entry at [col], [row]. *)
Theorem kernel_is_symmetric (rd rf cexp : R -> R) (r : Z) :
  0 <= r < 1073741824 ->
  exists k,
    produce2dGaussianKernel rd rf cexp r = Some k /\
    forall row col : nat,
      Z.of_nat row <= 2 * r -> Z.of_nat col <= 2 * r ->
      get_cell k row col = get_cell k col row.
Proof.
  intros Hr. destruct (Z.eq_dec r 0) as [-> | Hnz].
  - exists [[1%R]]. split; [reflexivity|].
    intros row col Hrow Hcol.
    replace row with 0%nat by lia. replace col with 0%nat by lia. reflexivity.
  - destruct (kernel_cells rd rf cexp r) as (k & Hk & Hcell);
      [unfold radius_in_range; lia|].
    exists k. split; [exact Hk|].
    intros row col Hrow Hcol.
    rewrite !Hcell by assumption.
    apply normalized_cell_transposed.
Qed.

Lemma kernel_is_symmetric_witness :
  0 <= 1 < 1073741824 /\
  exists k,
    produce2dGaussianKernel exact_rd exact_rf exact_exp 1 = Some k /\
    forall row col : nat,
      Z.of_nat row <= 2 * 1 -> Z.of_nat col <= 2 * 1 ->
      get_cell k row col = get_cell k col row.
Proof.
  split; [lia | apply (kernel_is_symmetric exact_rd exact_rf exact_exp 1); lia].
Defined.

(** X2.  When rounding to [double] commutes with the change of sign (as
    rounding to nearest does), the matrix is unchanged by reflection about
    its middle row and about its middle column: the entry at [2r - row],
    [col] and the entry at [row], [2r - col] both equal the entry at [row],
    [col]. *)
Theorem kernel_is_mirror_symmetric (rd rf cexp : R -> R) (r : Z) :
  (forall x : R, rd (- x)%R = (- rd x)%R) ->
  0 <= r < 1073741824 ->
  exists k,
    produce2dGaussianKernel rd rf cexp r = Some k /\
    forall row col : nat,
      Z.of_nat row <= 2 * r -> Z.of_nat col <= 2 * r ->
      get_cell k (mirror r row) col = get_cell k row col /\
      get_cell k row (mirror r col) = get_cell k row col.
Proof.
  intros rd_odd Hr. destruct (Z.eq_dec r 0) as [-> | Hnz].
  - exists [[1%R]]. split; [reflexivity|].
    intros row col Hrow Hcol.
    replace row with 0%nat by lia. replace col with 0%nat by lia.
    split; reflexivity.
  - destruct (kernel_cells rd rf cexp r) as (k & Hk & Hcell);
      [unfold radius_in_range; lia|].
    exists k. split; [exact Hk|].
    intros row col Hrow Hcol.
    pose proof (mirror_in_side r row Hrow) as Hrow'.
    pose proof (mirror_in_side r col Hcol) as Hcol'.
    rewrite !Hcell by assumption.
    apply normalized_cell_mirrored; assumption.
Qed.

Lemma kernel_is_mirror_symmetric_witness :
  (forall x : R, exact_rd (- x)%R = (- exact_rd x)%R) /\
  0 <= 1 < 1073741824 /\
  exists k,
    produce2dGaussianKernel exact_rd exact_rf exact_exp 1 = Some k /\
    forall row col : nat,
      Z.of_nat row <= 2 * 1 -> Z.of_nat col <= 2 * 1 ->
      get_cell k (mirror 1 row) col = get_cell k row col /\
      get_cell k row (mirror 1 col) = get_cell k row col.
Proof.
  split; [reflexivity|].
  split; [lia|].
  apply (kernel_is_mirror_symmetric exact_rd exact_rf exact_exp 1);
    [reflexivity | lia].
Defined.

Section Separable.

Local Open Scope R_scope.

Lemma sum_map_scaled (a : R) (f : nat -> R) (l : list nat) :
  sum_list (map (fun i => a * f i) l) = a * sum_list (map f l).
Proof.
  induction l as [|i l IH]; simpl; [ring|]. rewrite IH. ring.
Qed.

Lemma sum_outer_product (a b : nat -> R) (cols : list nat) :
  forall rows,
    sum_list (flat_map (fun row => map (fun col => a row * b col) cols) rows)
    = sum_list (map a rows) * sum_list (map b cols).
Proof.
  induction rows as [|row rows IH]; simpl; [ring|].
  rewrite sum_list_app, IH, sum_map_scaled. ring.
Qed.

Lemma total_spec_square (r : Z) : total_spec r = weights_sum r * weights_sum r.
Proof.
  unfold total_spec, weights_sum, product_spec. cbv zeta.
  apply sum_outer_product.
Qed.

Lemma gaussian_spec_pos (x mu sigma : R) : 0 < gaussian_spec x mu sigma.
Proof. unfold gaussian_spec. apply exp_pos. Qed.

Lemma sum_list_pos (f : nat -> R) (l : list nat) :
  (forall i, 0 < f i) -> l <> [] -> 0 < sum_list (map f l).
Proof.
  intros Hf. induction l as [|i [|j l] IH]; intros Hne.
  - contradiction.
  - simpl. pose proof (Hf i). lra.
  - pose proof (IH ltac:(discriminate)) as Hrest.
    pose proof (Hf i). simpl in *. lra.
Qed.

Lemma weights_sum_pos (r : Z) : (0 <= r)%Z -> 0 < weights_sum r.
Proof.
  intros Hr. unfold weights_sum.
  apply sum_list_pos.
  - intros i. apply gaussian_spec_pos.
  - replace (Z.to_nat (2 * r + 1)) with (S (Z.to_nat (2 * r))) by lia.
    discriminate.
Qed.

Lemma kernel_spec_separable (r : Z) (row col : nat) :
  (0 <= r)%Z ->
  kernel_spec r row col = weight_spec r row * weight_spec r col.
Proof.
  intros Hr. unfold kernel_spec, weight_spec.
  rewrite total_spec_square. unfold product_spec.
  pose proof (weights_sum_pos r Hr).
  field. lra.
Qed.

End Separable.

(** X3.  Computed without rounding, the matrix is the outer product of the
    normalised one-dimensional Gaussian weights with themselves: the entry
    at [row], [col] is [w row * w col], where [w i] is the Gaussian at
    position [i] divided by the sum of the Gaussians at the [2r + 1]
    positions. *)
Theorem kernel_is_separable_without_rounding (r : Z) :
  radius_in_range r ->
  exists k,
    produce2dGaussianKernel exact_rd exact_rf exact_exp r = Some k /\
    forall row col : nat,
      Z.of_nat row <= 2 * r -> Z.of_nat col <= 2 * r ->
      get_cell k row col = (weight_spec r row * weight_spec r col)%R.
Proof.
  intros Hr.
  destruct (kernel_cells exact_rd exact_rf exact_exp r Hr) as (k & Hk & Hcell).
  exists k. split; [exact Hk|].
  intros row col Hrow Hcol.
  rewrite (Hcell row col Hrow Hcol), normalized_cell_exact.
  apply kernel_spec_separable. unfold radius_in_range in Hr. lia.
Qed.

Lemma kernel_is_separable_without_rounding_witness :
  radius_in_range 1 /\
  exists k,
    produce2dGaussianKernel exact_rd exact_rf exact_exp 1 = Some k /\
    forall row col : nat,
      Z.of_nat row <= 2 * 1 -> Z.of_nat col <= 2 * 1 ->
      get_cell k row col = (weight_spec 1 row * weight_spec 1 col)%R.
Proof.
  split; [unfold radius_in_range; lia|].
  apply (kernel_is_separable_without_rounding 1). unfold radius_in_range. lia.
Defined.

(** X4.  With round-to-nearest arithmetic every weight is strictly positive,
    for every radius up to 100000: no cell of the matrix is rounded down to
    zero. *)
Theorem kernel_entries_are_positive (rd rf cexp : R -> R) (r : Z) :
  float_environment rd rf cexp ->
  0 <= r <= 100000 ->
  exists k,
    produce2dGaussianKernel rd rf cexp r = Some k /\ entries_positive k.
Proof.
  intros env Hr. destruct (Z.eq_dec r 0) as [-> | Hnz].
  - exists [[1%R]]. split; [reflexivity|].
    repeat constructor. lra.
  - assert (Hr' : 1 <= r <= 100000) by lia.
    assert (Hrange : radius_in_range r) by (unfold radius_in_range; lia).
    eexists. split; [apply produce2dGaussianKernel_spec; exact Hrange|].
    apply Forall_forall. intros rw Hin.
    apply in_map_iff in Hin. destruct Hin as (row & <- & Hrow).
    apply Forall_forall. intros x Hin.
    apply in_map_iff in Hin. destruct Hin as (col & <- & Hcol).
    apply in_seq in Hrow. apply in_seq in Hcol.
    pose proof (product_range rd rf cexp env r row col Hr'
                  ltac:(lia) ltac:(lia)) as Hp.
    pose proof (total_bounds rd rf cexp env r Hr') as HS.
    cbv zeta in HS. destruct HS as (_ & _ & HS).
    pose proof (normalized_entry_bounds rd rf cexp env _ _ Hp HS) as [Hlow _].
    unfold normalized_cell.
    eapply Rlt_le_trans; [|exact Hlow].
    apply Rmult_lt_0_compat; [|lra].
    apply Rmult_lt_0_compat; [|apply Rinv_0_lt_compat; lra].
    unfold eps_float, eps_double. lra.
Qed.

Lemma kernel_entries_are_positive_witness :
  float_environment exact_rd exact_rf exact_exp /\
  0 <= 1 <= 100000 /\
  exists k,
    produce2dGaussianKernel exact_rd exact_rf exact_exp 1 = Some k /\
    entries_positive k.
Proof.
  split; [exact exact_environment|].
  split; [lia|].
  apply (kernel_entries_are_positive exact_rd exact_rf exact_exp 1);
    [exact exact_environment | lia].
Defined.

(** X5.  Computed without rounding, the entries of the matrix add up to
    exactly 1, for every radius from 0 to 2^30 - 1. *)
Theorem kernel_sums_to_1_without_rounding (r : Z) :
  0 <= r < 1073741824 ->
  exists k,
    produce2dGaussianKernel exact_rd exact_rf exact_exp r = Some k /\
    sum_matrix k = 1%R.
Proof.
  intros Hr. destruct (Z.eq_dec r 0) as [-> | Hnz].
  - exists [[1%R]]. split; [reflexivity|].
    unfold sum_matrix, sum_list. simpl. lra.
  - apply kernel_sum_exact. unfold radius_in_range. lia.
Qed.

Lemma kernel_sums_to_1_without_rounding_witness :
  0 <= 3 < 1073741824 /\
  exists k,
    produce2dGaussianKernel exact_rd exact_rf exact_exp 3 = Some k /\
    sum_matrix k = 1%R.
Proof.
  split; [lia | apply (kernel_sums_to_1_without_rounding 3); lia].
Defined.

(** X6.  The side of the matrix is computed in [unsigned int] and wraps:
    for a radius [r] from 2^31 to 2^31 + 2^30 - 1 the matrix returned is
    square of side [2 * (r - 2^31) + 1], not [2 * r + 1]. *)
Theorem kernel_side_wraps (rd rf cexp : R -> R) (r : Z) :
  2147483648 <= r < 3221225472 ->
  exists k,
    produce2dGaussianKernel rd rf cexp r = Some k /\
    square_of_side k (Z.to_nat (2 * (r - 2147483648) + 1)).
Proof.
  intros Hr.
  assert (Hside : to_uint (2 * r + 1) = 2 * (r - 2147483648) + 1).
  { unfold to_uint, UINT_MOD.
    replace (2 * r + 1) with (2 * (r - 2147483648) + 1 + 1 * 4294967296) by lia.
    rewrite Z.mod_add by lia. apply Z.mod_small. lia. }
  eexists. split.
  - apply produce2dGaussianKernel_general; [lia|].
    rewrite Hside. unfold INT_MAX. lia.
  - rewrite Hside. apply matrix_is_square.
Qed.

Lemma kernel_side_wraps_witness :
  2147483648 <= 2147483649 < 3221225472 /\
  exists k,
    produce2dGaussianKernel exact_rd exact_rf exact_exp 2147483649 = Some k /\
    square_of_side k (Z.to_nat (2 * (2147483649 - 2147483648) + 1)).
Proof.
  split; [lia|].
  apply (kernel_side_wraps exact_rd exact_rf exact_exp 2147483649). lia.
Defined.

(** X7.  [gaussian] is symmetric about [mu] and does not increase with
    the distance from [mu]: for a positive [sigma], and arithmetic whose
    roundings are monotone and commute with the change of sign, the values
    at [mu + d] and [mu - d] are equal, a point at least as far from [mu]
    as another gets at most its value, and no value is negative. *)
Theorem gaussian_is_even_and_unimodal
    (rd rf cexp : R -> R) (mu sigma : R) :
  (forall x y : R, (x <= y -> rd x <= rd y)%R) ->
  (forall x : R, rd (- x)%R = (- rd x)%R) ->
  (forall x y : R, (x <= y -> rf x <= rf y)%R) ->
  rf 0%R = 0%R ->
  (forall x y : R, (x <= y -> cexp x <= cexp y)%R) ->
  (forall x : R, (0 <= cexp x)%R) ->
  (0 < sigma)%R ->
  (forall d : R,
      gaussian rd rf cexp (mu + d) mu sigma = gaussian rd rf cexp (mu - d) mu sigma) /\
  (forall x1 x2 : R,
      (Rabs (x1 - mu) <= Rabs (x2 - mu))%R ->
      (gaussian rd rf cexp x2 mu sigma <= gaussian rd rf cexp x1 mu sigma)%R) /\
  (forall x : R, (0 <= gaussian rd rf cexp x mu sigma)%R).
Proof.
  intros rd_mono rd_odd rf_mono rf_zero cexp_mono cexp_nonneg Hsigma.
  split; [|split].
  - intros d. rewrite !(gaussian_abs rd rf cexp rd_odd).
    replace (mu - d - mu)%R with (- (mu + d - mu))%R by lra.
    rewrite Rabs_Ropp. reflexivity.
  - intros x1 x2 H.
    apply (gaussian_antitone rd rf cexp rd_mono rd_odd rf_mono cexp_mono);
      [apply Rlt_le|]; assumption.
  - intros x. apply (gaussian_nonneg rd rf cexp rf_mono rf_zero cexp_nonneg).
Qed.

Lemma gaussian_is_even_and_unimodal_witness :
  (forall x y : R, (x <= y -> exact_rd x <= exact_rd y)%R) /\
  (forall x : R, exact_rd (- x)%R = (- exact_rd x)%R) /\
  (forall x y : R, (x <= y -> exact_rf x <= exact_rf y)%R) /\
  exact_rf 0%R = 0%R /\
  (forall x y : R, (x <= y -> exact_exp x <= exact_exp y)%R) /\
  (forall x : R, (0 <= exact_exp x)%R) /\
  (0 < 1)%R /\
  (forall d : R,
      gaussian exact_rd exact_rf exact_exp (2 + d) 2 1
      = gaussian exact_rd exact_rf exact_exp (2 - d) 2 1) /\
  (forall x1 x2 : R,
      (Rabs (x1 - 2) <= Rabs (x2 - 2))%R ->
      (gaussian exact_rd exact_rf exact_exp x2 2 1
       <= gaussian exact_rd exact_rf exact_exp x1 2 1)%R) /\
  (forall x : R, (0 <= gaussian exact_rd exact_rf exact_exp x 2 1)%R).
Proof.
  pose proof exact_environment as env.
  split; [exact (rd_monotone _ _ _ env)|].
  split; [exact (rd_symmetric _ _ _ env)|].
  split; [exact (rf_monotone _ _ _ env)|].
  split; [reflexivity|].
  split; [exact (cexp_monotone _ _ _ env)|].
  split; [exact (cexp_nonnegative _ _ _ env)|].
  split; [lra|].
  apply (gaussian_is_even_and_unimodal exact_rd exact_rf exact_exp 2 1).
  - exact (rd_monotone _ _ _ env).
  - exact (rd_symmetric _ _ _ env).
  - exact (rf_monotone _ _ _ env).
  - reflexivity.
  - exact (cexp_monotone _ _ _ env).
  - exact (cexp_nonnegative _ _ _ env).
  - lra.
Defined.

(** X8.  The [assert] of [main] on the sizes of [filter] and of the kernel
    never fails, whatever the radius: the kernel always has as many entries
    as the array.  (For a negative radius, or one for which
    [2 * filterSize + 1] overflows, the array bound itself is undefined.) *)
Theorem filter_assertion_never_fails (rd rf cexp : R -> R) (filterSize : Z) :
  snd (make_filter rd rf cexp filterSize) <> Stop Aborted.
Proof.
  destruct ((filterSize <? 0) || negb (in_int (2 * filterSize + 1))) eqn:E.
  - unfold make_filter. rewrite E. discriminate.
  - apply orb_false_elim in E. destruct E as [Hneg Hint].
    apply Z.ltb_ge in Hneg. apply negb_false_iff in Hint.
    unfold in_int, INT_MAX in Hint. apply andb_prop in Hint.
    destruct Hint as [_ Hhi]. apply Z.leb_le in Hhi.
    destruct (make_filter_defined rd rf cexp filterSize ltac:(lia))
      as (k & -> & _).
    discriminate.
Qed.

(** ** More on channel padding *)

Section ChannelAdapterMore.

Local Open Scope nat_scope.

(** With one or two bytes left over, the loop of [RGBAtoRGB] reads past the
    end; with none or three it does not. *)
Lemma RGBAtoRGB_loop_partial (n : nat) :
  forall (pre suf dst : list ascii) (fuel : nat) (extra : nat),
    List.length suf = 4 * n + extra -> 1 <= extra <= 2 -> n < fuel ->
    RGBAtoRGB_loop fuel (pre ++ suf) (List.length pre) dst = None.
Proof.
  induction n as [|n IH]; intros pre suf dst fuel extra Hlen Hextra Hfuel.
  - destruct fuel as [|fuel]; [lia|].
    simpl RGBAtoRGB_loop.
    replace (List.length pre <? List.length (pre ++ suf)) with true
      by (symmetry; apply Nat.ltb_lt; rewrite length_app; lia).
    rewrite !nth_error_app_at.
    destruct suf as [|r [|g [|b rest]]]; simpl in *; try lia; reflexivity.
  - destruct suf as [|r [|g [|b [|a rest]]]]; simpl in Hlen; try lia.
    destruct fuel as [|fuel]; [lia|].
    simpl RGBAtoRGB_loop.
    replace (List.length pre <? List.length (pre ++ r :: g :: b :: a :: rest)) with true
      by (symmetry; apply Nat.ltb_lt; rewrite length_app; simpl; lia).
    rewrite !nth_error_app_at. simpl nth_error.
    replace (pre ++ r :: g :: b :: a :: rest) with ((pre ++ [r; g; b; a]) ++ rest)
      by (rewrite <- app_assoc; reflexivity).
    replace (List.length pre + 4) with (List.length (pre ++ [r; g; b; a]))
      by (rewrite length_app; reflexivity).
    apply (IH _ _ _ _ extra); lia.
Qed.

Lemma RGBAtoRGB_loop_defined (n : nat) :
  forall (pre suf dst : list ascii) (fuel : nat) (extra : nat),
    List.length suf = 4 * n + extra -> extra = 0 \/ extra = 3 -> n < fuel ->
    exists out, RGBAtoRGB_loop fuel (pre ++ suf) (List.length pre) dst = Some out.
Proof.
  induction n as [|n IH]; intros pre suf dst fuel extra Hlen Hextra Hfuel.
  - destruct fuel as [|fuel]; [lia|].
    destruct Hextra as [-> | ->].
    + destruct suf; [|discriminate]. rewrite app_nil_r.
      simpl. rewrite Nat.ltb_irrefl. eexists. reflexivity.
    + destruct suf as [|r [|g [|b [|a rest]]]]; simpl in Hlen; try lia.
      simpl RGBAtoRGB_loop.
      replace (List.length pre <? List.length (pre ++ [r; g; b])) with true
        by (symmetry; apply Nat.ltb_lt; rewrite length_app; simpl; lia).
      rewrite !nth_error_app_at. simpl nth_error.
      destruct fuel; simpl;
        replace (List.length pre + 4 <? List.length (pre ++ [r; g; b])) with false
          by (symmetry; apply Nat.ltb_ge; rewrite length_app; simpl; lia);
        eexists; reflexivity.
  - destruct suf as [|r [|g [|b [|a rest]]]]; simpl in Hlen; try lia.
    destruct fuel as [|fuel]; [lia|].
    simpl RGBAtoRGB_loop.
    replace (List.length pre <? List.length (pre ++ r :: g :: b :: a :: rest)) with true
      by (symmetry; apply Nat.ltb_lt; rewrite length_app; simpl; lia).
    rewrite !nth_error_app_at. simpl nth_error.
    replace (pre ++ r :: g :: b :: a :: rest) with ((pre ++ [r; g; b; a]) ++ rest)
      by (rewrite <- app_assoc; reflexivity).
    replace (List.length pre + 4) with (List.length (pre ++ [r; g; b; a]))
      by (rewrite length_app; reflexivity).
    apply (IH _ _ _ _ extra); lia.
Qed.

Lemma drop_alpha_length (n : nat) :
  forall l, List.length l = 4 * n -> List.length (drop_alpha l) = 3 * n.
Proof.
  induction n as [|n IH]; intros l Hl.
  - destruct l; [reflexivity | discriminate].
  - destruct (length4_inv _ _ _ Hl) as (r & g & b & a & rest & -> & Hrest).
    simpl. rewrite (IH rest Hrest). lia.
Qed.

Lemma drop_alpha_nth (n : nat) :
  forall l k, List.length l = 4 * n -> 4 * k < List.length l ->
    nth_error (drop_alpha l) (3 * k) = nth_error l (4 * k) /\
    nth_error (drop_alpha l) (3 * k + 1) = nth_error l (4 * k + 1) /\
    nth_error (drop_alpha l) (3 * k + 2) = nth_error l (4 * k + 2).
Proof.
  induction n as [|n IH]; intros l k Hl Hk.
  - lia.
  - destruct (length4_inv _ _ _ Hl) as (r & g & b & a & rest & -> & Hrest).
    destruct k as [|k].
    + simpl. auto.
    + replace (4 * S k) with (4 + 4 * k) by lia.
      replace (3 * S k) with (3 + 3 * k) by lia.
      simpl in Hk.
      specialize (IH rest k Hrest ltac:(lia)).
      exact IH.
Qed.

(** Padding what is left after the alpha bytes were dropped: the colour
    bytes are back in place and every alpha byte is 0. *)
Lemma pad_drop_alpha_nth (n : nat) :
  forall l k, List.length l = 4 * n -> k < List.length l ->
    nth_error (pad_alpha (drop_alpha l)) k
    = if k mod 4 =? 3 then Some NUL else nth_error l k.
Proof.
  induction n as [|n IH]; intros l k Hl Hk.
  - lia.
  - destruct (length4_inv _ _ _ Hl) as (r & g & b & a & rest & -> & Hrest).
    simpl drop_alpha. simpl pad_alpha.
    destruct k as [|[|[|[|k]]]]; try reflexivity.
    simpl in Hk.
    replace (S (S (S (S k))) mod 4) with (k mod 4)
      by (replace (S (S (S (S k)))) with (k + 1 * 4) by lia;
          rewrite Nat.Div0.mod_add; reflexivity).
    simpl nth_error. apply IH; [assumption | lia].
Qed.

Lemma multiple_of_4 (l : list ascii) :
  List.length l mod 4 = 0 -> exists n, List.length l = 4 * n.
Proof.
  intros H. exists (List.length l / 4).
  pose proof (Nat.div_mod_eq (List.length l) 4). lia.
Qed.

End ChannelAdapterMore.

(** X9.  [RGBtoRGBA] reads past the end of the pixel vector (undefined
    behaviour) exactly when the number of bytes is not a multiple of 3. *)
Theorem RGBtoRGBA_defined_iff (input : Image) :
  RGBtoRGBA input = None <-> (List.length (pixel input) mod 3 <> 0)%nat.
Proof.
  split.
  - intros Hnone Hmod. rewrite (RGBtoRGBA_pixels input Hmod) in Hnone.
    discriminate.
  - apply RGBtoRGBA_undefined.
Qed.

(** X10.  [RGBAtoRGB] reads past the end of the pixel vector exactly when
    one or two bytes are left over after the last whole pixel; three bytes
    left over are read within bounds. *)
Theorem RGBAtoRGB_defined_iff (input : Image) :
  RGBAtoRGB input = None <->
  (List.length (pixel input) mod 4 = 1 \/ List.length (pixel input) mod 4 = 2)%nat.
Proof.
  pose proof (Nat.div_mod_eq (List.length (pixel input)) 4) as Hdiv.
  pose proof (Nat.mod_upper_bound (List.length (pixel input)) 4 ltac:(lia)) as Hlt.
  set (n := (List.length (pixel input) / 4)%nat) in *.
  set (extra := (List.length (pixel input) mod 4)%nat) in *.
  unfold RGBAtoRGB.
  split.
  - intros Hnone.
    destruct (Nat.eq_dec extra 1) as [|H1]; [left; assumption|].
    destruct (Nat.eq_dec extra 2) as [|H2]; [right; assumption|].
    exfalso.
    destruct (Nat.eq_dec extra 0) as [H0|H0].
    + pose proof (RGBAtoRGB_pixels input n ltac:(lia)) as Hsome.
      unfold RGBAtoRGB in Hsome.
      destruct (RGBAtoRGB_loop _ _ _ _); discriminate.
    + destruct (RGBAtoRGB_loop_defined n [] (pixel input) []
                  (List.length (pixel input)) extra) as (out & Hout);
        [lia | lia | lia |].
      simpl in Hout. rewrite Hout in Hnone. discriminate.
  - intros Hextra.
    assert (E : RGBAtoRGB_loop (List.length (pixel input)) ([] ++ pixel input)
                  (List.length (@nil ascii)) [] = None)
      by (apply (RGBAtoRGB_loop_partial n _ _ _ _ extra); lia).
    simpl in E. rewrite E. reflexivity.
Qed.

(** X11.  For every 4-channel buffer (byte count a multiple of 4),
    [RGBAtoRGB] keeps width and height, produces three bytes for every four
    of the input, and copies the colour bytes of pixel [k] in order: output
    bytes [3k], [3k+1], [3k+2] are input bytes [4k], [4k+1], [4k+2].  The
    fourth byte of each pixel appears nowhere in the output. *)
Theorem RGBAtoRGB_layout (img : Image) :
  (List.length (pixel img) mod 4 = 0)%nat ->
  exists rgb,
    RGBAtoRGB img = Some rgb /\
    width rgb = width img /\
    height rgb = height img /\
    (4 * List.length (pixel rgb) = 3 * List.length (pixel img))%nat /\
    forall k, (4 * k < List.length (pixel img))%nat ->
      nth_error (pixel rgb) (3 * k) = nth_error (pixel img) (4 * k) /\
      nth_error (pixel rgb) (3 * k + 1) = nth_error (pixel img) (4 * k + 1) /\
      nth_error (pixel rgb) (3 * k + 2) = nth_error (pixel img) (4 * k + 2).
Proof.
  intros H. destruct (multiple_of_4 _ H) as (n & Hn).
  exists (mkImage (drop_alpha (pixel img)) (width img) (height img)).
  split; [apply (RGBAtoRGB_pixels _ n); assumption|].
  simpl. repeat split; try reflexivity.
  - rewrite (drop_alpha_length n _ Hn). lia.
  - apply (drop_alpha_nth n); assumption.
  - apply (drop_alpha_nth n); assumption.
  - apply (drop_alpha_nth n); assumption.
Qed.

Lemma RGBAtoRGB_layout_witness :
  let img := mkImage ["a"; "b"; "c"; "1"; "d"; "e"; "f"; "2"]%char 2 1 in
  (List.length (pixel img) mod 4 = 0)%nat /\
  exists rgb,
    RGBAtoRGB img = Some rgb /\
    width rgb = width img /\
    height rgb = height img /\
    (4 * List.length (pixel rgb) = 3 * List.length (pixel img))%nat /\
    forall k, (4 * k < List.length (pixel img))%nat ->
      nth_error (pixel rgb) (3 * k) = nth_error (pixel img) (4 * k) /\
      nth_error (pixel rgb) (3 * k + 1) = nth_error (pixel img) (4 * k + 1) /\
      nth_error (pixel rgb) (3 * k + 2) = nth_error (pixel img) (4 * k + 2).
Proof.
  split; [reflexivity|].
  apply (RGBAtoRGB_layout (mkImage ["a"; "b"; "c"; "1"; "d"; "e"; "f"; "2"]%char 2 1)).
  reflexivity.
Defined.

(** X12.  The conversions composed the other way round do not give back a
    4-channel image: [RGBtoRGBA] after [RGBAtoRGB] keeps size, width, height
    and every colour byte, and sets every alpha byte (indices congruent to 3
    modulo 4) to 0. *)
Theorem RGBtoRGBA_RGBAtoRGB_clears_alpha (img : Image) :
  (List.length (pixel img) mod 4 = 0)%nat ->
  exists rgb back,
    RGBAtoRGB img = Some rgb /\
    RGBtoRGBA rgb = Some back /\
    width back = width img /\
    height back = height img /\
    List.length (pixel back) = List.length (pixel img) /\
    forall k, (k < List.length (pixel img))%nat ->
      nth_error (pixel back) k
      = if (k mod 4 =? 3)%nat then Some NUL else nth_error (pixel img) k.
Proof.
  intros H. destruct (multiple_of_4 _ H) as (n & Hn).
  pose proof (drop_alpha_length n _ Hn) as Hdrop.
  exists (mkImage (drop_alpha (pixel img)) (width img) (height img)).
  exists (mkImage (pad_alpha (drop_alpha (pixel img))) (width img) (height img)).
  split; [apply (RGBAtoRGB_pixels _ n); assumption|].
  split.
  { rewrite RGBtoRGBA_pixels; [reflexivity|].
    simpl pixel. rewrite Hdrop, Nat.mul_comm. apply Nat.Div0.mod_mul. }
  simpl. repeat split.
  - rewrite (pad_alpha_length n _ Hdrop). lia.
  - intros k Hk. apply (pad_drop_alpha_nth n); assumption.
Qed.

Lemma RGBtoRGBA_RGBAtoRGB_clears_alpha_witness :
  let img := mkImage ["a"; "b"; "c"; "1"; "d"; "e"; "f"; "2"]%char 2 1 in
  (List.length (pixel img) mod 4 = 0)%nat /\
  exists rgb back,
    RGBAtoRGB img = Some rgb /\
    RGBtoRGBA rgb = Some back /\
    width back = width img /\
    height back = height img /\
    List.length (pixel back) = List.length (pixel img) /\
    forall k, (k < List.length (pixel img))%nat ->
      nth_error (pixel back) k
      = if (k mod 4 =? 3)%nat then Some NUL else nth_error (pixel img) k.
Proof.
  split; [reflexivity|].
  apply (RGBtoRGBA_RGBAtoRGB_clears_alpha
           (mkImage ["a"; "b"; "c"; "1"; "d"; "e"; "f"; "2"]%char 2 1)).
  reflexivity.
Defined.
(** ** Decimal numbers, printed and read back *)

Section Decimal.

Lemma read_digits_stop (rest : string) (acc : Z) (seen : bool) :
  first_is_digit rest = false -> read_digits rest acc seen = (acc, seen, rest).
Proof.
  destruct rest as [|c t]; simpl; [reflexivity|].
  intros ->. reflexivity.
Qed.

Lemma read_digits_step (c : ascii) (t : string) (acc : Z) (seen : bool) :
  isdigit c = true ->
  read_digits (String.String c t) acc seen
  = read_digits t (10 * acc + digit_value c) true.
Proof. intros H. simpl. rewrite H. reflexivity. Qed.

Lemma read_digits_uint_acc (rest : string) :
  first_is_digit rest = false ->
  forall (d : Decimal.uint) (p : positive),
    read_digits (NilEmpty.string_of_uint d +++ rest) (Z.pos p) true
    = (Z.pos (Pos.of_uint_acc d p), true, rest).
Proof.
  intros Hrest.
  induction d as [|d IH|d IH|d IH|d IH|d IH|d IH|d IH|d IH|d IH|d IH]; intros p;
    [apply read_digits_stop; exact Hrest | ..];
    cbn [NilEmpty.string_of_uint String.append];
    rewrite read_digits_step by reflexivity;
    cbn [Pos.of_uint_acc]; rewrite <- IH; f_equal;
    unfold digit_value.
  all: match goal with |- context [nat_of_ascii ?c] =>
         let n := eval vm_compute in (nat_of_ascii c) in
         change (nat_of_ascii c) with n end.
  all: rewrite ?Pos2Z.inj_add, ?Pos2Z.inj_mul; lia.
Qed.

Lemma read_digits_uint (rest : string) :
  first_is_digit rest = false ->
  forall d : Decimal.uint,
    read_digits (NilEmpty.string_of_uint d +++ rest) 0 true
    = (Z.of_N (Pos.of_uint d), true, rest).
Proof.
  intros Hrest.
  induction d as [|d IH|d IH|d IH|d IH|d IH|d IH|d IH|d IH|d IH|d IH];
    [apply read_digits_stop; exact Hrest | ..];
    cbn [NilEmpty.string_of_uint String.append];
    rewrite read_digits_step by reflexivity;
    [exact IH | ..];
    cbn [Pos.of_uint N.of_uint Z.of_N];
    rewrite <- (read_digits_uint_acc rest Hrest); reflexivity.
Qed.

End Decimal.

(** ** Text and streams *)

Section Text.

Local Open Scope nat_scope.

Lemma append_assoc (a b c : string) : (a +++ b) +++ c = a +++ b +++ c.
Proof. induction a as [|x a IH]; simpl; [reflexivity | rewrite IH; reflexivity]. Qed.

Lemma append_empty_r (a : string) : a +++ String.EmptyString = a.
Proof. induction a as [|x a IH]; simpl; [reflexivity | rewrite IH; reflexivity]. Qed.

Lemma append_length (a b : string) :
  String.length (a +++ b) = String.length a + String.length b.
Proof. induction a as [|x a IH]; simpl; [reflexivity | rewrite IH; reflexivity]. Qed.

Lemma no_newline_append (a b : string) :
  no_newline a = true -> no_newline b = true -> no_newline (a +++ b) = true.
Proof.
  intros Ha Hb. induction a as [|x a IH]; simpl in *; [exact Hb|].
  apply andb_prop in Ha. destruct Ha as [Hx Ha].
  rewrite Hx, (IH Ha). reflexivity.
Qed.

Lemma read_line_append (l rest : string) :
  no_newline l = true -> read_line (l +++ newline +++ rest) = (l, Some rest).
Proof.
  induction l as [|x l IH]; intros H; [reflexivity|].
  simpl in H. apply andb_prop in H. destruct H as [Hx Hl].
  apply negb_true_iff in Hx.
  change (read_line (String.String x l +++ newline +++ rest))
    with (if (x =? "010")%char then (String.EmptyString, Some (l +++ newline +++ rest))
          else let '(l', rest') := read_line (l +++ newline +++ rest) in
               (String.String x l', rest')).
  rewrite Hx, (IH Hl). reflexivity.
Qed.

Lemma read_line_last (l : string) :
  no_newline l = true -> read_line l = (l, None).
Proof.
  induction l as [|x l IH]; simpl; intros H; [reflexivity|].
  apply andb_prop in H. destruct H as [Hx Hl].
  apply negb_true_iff in Hx. rewrite Hx, (IH Hl). reflexivity.
Qed.

Lemma getline_line (l rest str : string) :
  no_newline l = true ->
  getline (mkStream (l +++ newline +++ rest) false false) str
  = (l, mkStream rest false false).
Proof.
  intros H. unfold getline, good.
  cbn [buffer eofbit failbit negb andb].
  rewrite (read_line_append l rest H). reflexivity.
Qed.

Lemma lines_length (ls : list string) :
  List.length ls <= String.length (lines ls).
Proof.
  induction ls as [|l ls IH]; simpl; [lia|].
  rewrite !append_length. simpl. lia.
Qed.

End Text.

(** ** The comment loop of [LoadImage] *)

Section CommentLines.

Local Open Scope nat_scope.

(** On a stream that is good, [getline] overwrites the string. *)
Lemma skip_comments_any_string (fuel : nat) (b str str' : string) :
  skip_comments fuel (mkStream b false false) str
  = skip_comments fuel (mkStream b false false) str'.
Proof. destruct fuel; reflexivity. Qed.

Lemma skip_comments_skip (fuel : nat) (l rest str : string) :
  skipped_line l = true ->
  skip_comments (S fuel) (mkStream (l +++ newline +++ rest) false false) str
  = skip_comments fuel (mkStream rest false false) l.
Proof.
  intros H. unfold skipped_line in H.
  apply andb_prop in H. destruct H as [Hnl Hhead].
  cbn [skip_comments]. rewrite (getline_line l rest str Hnl).
  destruct l as [|c t]; [reflexivity|].
  rewrite Hhead. reflexivity.
Qed.

Lemma skip_comments_stop (fuel : nat) (c : ascii) (t rest str : string) :
  no_newline (String.String c t) = true -> (c =? "#")%char = false ->
  skip_comments (S fuel)
    (mkStream (String.String c t +++ newline +++ rest) false false) str
  = Some (String.String c t, mkStream rest false false).
Proof.
  intros Hnl Hc.
  cbn [skip_comments]. rewrite (getline_line _ rest str Hnl).
  rewrite Hc. reflexivity.
Qed.

Lemma skip_comments_lines (ls : list string) :
  forallb skipped_line ls = true ->
  forall (fuel : nat) (body str : string),
    skip_comments (List.length ls + fuel)
      (mkStream (lines ls +++ body) false false) str
    = skip_comments fuel (mkStream body false false) str.
Proof.
  induction ls as [|l ls IH]; intros Hls fuel body str; [reflexivity|].
  simpl in Hls. apply andb_prop in Hls. destruct Hls as [Hl Hls].
  cbn [lines List.length Nat.add].
  rewrite !append_assoc.
  rewrite (skip_comments_skip _ l _ str Hl).
  rewrite (IH Hls). apply skip_comments_any_string.
Qed.

Lemma read_header_skips (ls : list string) (body magic : string) :
  forallb skipped_line ls = true ->
  read_header magic (mkStream (lines ls +++ body) false false)
  = read_header magic (mkStream body false false).
Proof.
  intros Hls. unfold read_header. cbn [buffer].
  pose proof (lines_length ls) as Hlen.
  rewrite (skip_comments_fuel _
             (List.length ls + (String.length (lines ls +++ body) + 2)))
    by (unfold turns_left; simpl; lia).
  rewrite (skip_comments_lines ls Hls).
  rewrite (skip_comments_fuel _ (String.length body + 2))
    by (unfold turns_left; simpl; rewrite ?append_length; lia).
  reflexivity.
Qed.

(** A last line without its newline that the loop skips as well: the end of
    the input is reached and nothing changes any more. *)
Lemma read_header_never_ends (last magic : string) :
  skipped_line last = true ->
  read_header magic (mkStream last false false) = None.
Proof.
  intros H. unfold skipped_line in H.
  apply andb_prop in H. destruct H as [Hnl Hhead].
  unfold read_header. cbn [buffer].
  replace (String.length last + 2) with (S (S (String.length last))) by lia.
  cbn [skip_comments]. unfold getline at 1. unfold good at 1.
  cbn [buffer eofbit failbit negb andb].
  rewrite (read_line_last last Hnl).
  destruct last as [|c t]; [reflexivity|].
  rewrite Hhead. unfold getline, good.
  cbn [buffer eofbit failbit negb andb]. rewrite Hhead. reflexivity.
Qed.

Lemma read_magic_P6 (rest : string) :
  read_magic (Some ("P6" +++ newline +++ rest))
  = ("P6"%string, mkStream (newline +++ rest) false false).
Proof. reflexivity. Qed.

Lemma LoadImage_after_magic (rest : string) :
  LoadImage (Some ("P6" +++ newline +++ rest))
  = match read_header "P6" (mkStream rest false false) with
    | None => halt Diverges
    | Some h =>
        match header_maxColor h with
        | None => halt Undefined
        | Some maxColor =>
            if negb (maxColor =? 255)%Z then halt (Exited 1) else read_pixels h
        end
    end.
Proof.
  unfold LoadImage. rewrite read_magic_P6.
  change (newline +++ rest) with (lines [String.EmptyString] +++ rest).
  rewrite (read_header_skips [String.EmptyString] rest "P6" eq_refl).
  reflexivity.
Qed.

End CommentLines.

(** X13.  Lines that are empty or start with '#', between the magic token
    and the line of the dimensions, are skipped: the file is read as if
    they were not there, whatever follows them. *)
Theorem LoadImage_skips_comments (ls : list string) (body : string) :
  forallb skipped_line ls = true ->
  LoadImage (Some ("P6" +++ newline +++ lines ls +++ body))
  = LoadImage (Some ("P6" +++ newline +++ body)).
Proof.
  intros Hls. rewrite !LoadImage_after_magic.
  rewrite (read_header_skips ls body "P6" Hls). reflexivity.
Qed.

Lemma LoadImage_skips_comments_witness :
  forallb skipped_line ["# made by hand"; ""; "#"]%string = true /\
  LoadImage (Some ("P6" +++ newline
                   +++ lines ["# made by hand"; ""; "#"]%string
                   +++ ("1 1" +++ newline +++ "255" +++ newline +++ "abc")))
  = LoadImage (Some ("P6" +++ newline
                     +++ ("1 1" +++ newline +++ "255" +++ newline +++ "abc"))).
Proof.
  split; [reflexivity|].
  apply (LoadImage_skips_comments ["# made by hand"; ""; "#"]%string).
  reflexivity.
Defined.

(** X14.  A file that ends inside the block of comments makes [LoadImage]
    loop for ever: when only empty lines and lines starting with '#' follow
    the magic token (the last of them with or without its newline), the end
    of the input is reached with a string the loop skips, [getline] fails
    from then on and leaves the string alone, and the loop has no exit for
    the end of the input. *)
Theorem LoadImage_loops_at_end_of_input (ls : list string) (last : string) :
  forallb skipped_line ls = true ->
  skipped_line last = true ->
  LoadImage (Some ("P6" +++ newline +++ lines ls +++ last)) = halt Diverges.
Proof.
  intros Hls Hlast. rewrite LoadImage_after_magic.
  rewrite (read_header_skips ls last "P6" Hls).
  rewrite (read_header_never_ends last "P6" Hlast). reflexivity.
Qed.

Lemma LoadImage_loops_at_end_of_input_witness :
  forallb skipped_line ["# only a comment"]%string = true /\
  skipped_line "" = true /\
  LoadImage (Some ("P6" +++ newline +++ lines ["# only a comment"]%string +++ ""))
  = halt Diverges.
Proof.
  split; [reflexivity|]. split; [reflexivity|].
  apply (LoadImage_loops_at_end_of_input ["# only a comment"]%string ""%string);
    reflexivity.
Defined.

(** ** Numbers in the header *)

Section Numerals.

(** The characters of a printed number: digits, after a '-' if any. *)
Lemma uint_chars (d : Decimal.uint) :
  no_newline (NilEmpty.string_of_uint d) = true /\
  (d <> Decimal.Nil ->
   exists c t, NilEmpty.string_of_uint d = String.String c t /\ isdigit c = true).
Proof.
  induction d as [|d IH|d IH|d IH|d IH|d IH|d IH|d IH|d IH|d IH|d IH];
    (split; [try reflexivity; simpl; apply IH | intros H; try contradiction]);
    eexists; eexists; split; reflexivity.
Qed.

Lemma show_Z_cases (z : Z) :
  exists d : Decimal.uint,
    d <> Decimal.Nil /\
    Z.of_N (Pos.of_uint d) = Z.abs z /\
    show_Z z = (if z <? 0 then String.String "-" (NilEmpty.string_of_uint d)
                else NilEmpty.string_of_uint d).
Proof.
  destruct z as [|p|p].
  - exists (Decimal.D0 Decimal.Nil). repeat split. discriminate.
  - exists (Pos.to_uint p).
    pose proof (DecimalPos.Unsigned.to_uint_nonnil p) as Hnn.
    split; [exact Hnn|]. split.
    + rewrite DecimalPos.Unsigned.of_to. reflexivity.
    + unfold show_Z. simpl. destruct (Pos.to_uint p); try reflexivity.
      contradiction.
  - exists (Pos.to_uint p).
    pose proof (DecimalPos.Unsigned.to_uint_nonnil p) as Hnn.
    split; [exact Hnn|]. split.
    + rewrite DecimalPos.Unsigned.of_to. reflexivity.
    + unfold show_Z. simpl. destruct (Pos.to_uint p); try reflexivity.
      contradiction.
Qed.

Lemma isdigit_not_space (c : ascii) : isdigit c = true -> isspace c = false.
Proof.
  unfold isdigit, isspace. intros H.
  apply andb_prop in H. destruct H as [H1 H2].
  apply Nat.leb_le in H1. apply Nat.leb_le in H2.
  apply orb_false_intro.
  - apply Nat.eqb_neq. lia.
  - apply andb_false_intro2. apply Nat.leb_gt. lia.
Qed.

Lemma isdigit_not_sign (c : ascii) :
  isdigit c = true ->
  (c =? "-")%char = false /\ (c =? "+")%char = false /\ (c =? "#")%char = false.
Proof.
  unfold isdigit. intros H.
  apply andb_prop in H. destruct H as [H1 H2].
  apply Nat.leb_le in H1. apply Nat.leb_le in H2.
  repeat split; apply Ascii.eqb_neq; intros ->; vm_compute in H1; lia.
Qed.

(** A printed number starts with a character that is neither white space
    nor '#', and holds no newline. *)
Lemma show_Z_head (z : Z) :
  exists c t,
    show_Z z = String.String c t /\
    isspace c = false /\ (c =? "#")%char = false.
Proof.
  destruct (show_Z_cases z) as (d & Hnn & _ & ->).
  destruct (uint_chars d) as [_ Hhead].
  destruct (Hhead Hnn) as (c & t & E & Hc).
  destruct (z <? 0).
  - eexists. eexists. split; [reflexivity|]. split; reflexivity.
  - exists c, t. split; [exact E|].
    split; [apply isdigit_not_space; exact Hc | apply isdigit_not_sign; exact Hc].
Qed.

Lemma show_Z_no_newline (z : Z) : no_newline (show_Z z) = true.
Proof.
  destruct (show_Z_cases z) as (d & _ & _ & ->).
  destruct (uint_chars d) as [Hnl _].
  destruct (z <? 0); [simpl; exact Hnl | exact Hnl].
Qed.

Lemma read_digits_first (c : ascii) (t : string) :
  isdigit c = true ->
  read_digits (String.String c t) 0 false = read_digits (String.String c t) 0 true.
Proof. intros H. rewrite !read_digits_step by exact H. reflexivity. Qed.

(** Reading back a printed number gives the number. *)
Lemma read_signed_show_Z (z : Z) (rest : string) :
  first_is_digit rest = false ->
  read_signed (show_Z z +++ rest) = (z, true, rest).
Proof.
  intros Hrest.
  destruct (show_Z_cases z) as (d & Hnn & Hval & ->).
  destruct (uint_chars d) as [_ Hhead].
  destruct (Hhead Hnn) as (c & t & E & Hc).
  pose proof (read_digits_uint rest Hrest d) as Hread.
  rewrite E in Hread. cbn [String.append] in Hread.
  rewrite <- (read_digits_first c _ Hc) in Hread.
  destruct (isdigit_not_sign c Hc) as (Hminus & Hplus & _).
  destruct (Z.ltb_spec z 0) as [Hneg | Hpos].
  - rewrite E. cbn [String.append read_signed].
    rewrite Ascii.eqb_refl, Hread, Hval.
    replace (- Z.abs z) with z by lia. reflexivity.
  - rewrite E. cbn [String.append read_signed].
    rewrite Hminus, Hplus, Hread, Hval.
    replace (Z.abs z) with z by lia. reflexivity.
Qed.

Lemma skip_space_show_Z (z : Z) (rest : string) :
  skip_space (show_Z z +++ rest) = show_Z z +++ rest /\
  is_empty (show_Z z +++ rest) = false.
Proof.
  destruct (show_Z_head z) as (c & t & E & Hspace & _).
  rewrite E. cbn [String.append skip_space is_empty].
  rewrite Hspace. split; reflexivity.
Qed.

(** [>>] reads back a number that [<<] has printed, when what follows is
    not a digit. *)
Lemma read_int_show_Z (z : Z) (rest : string) (v : option Z) :
  in_int z = true ->
  first_is_digit rest = false ->
  read_int (mkStream (show_Z z +++ rest) false false) v
  = (Some z, mkStream rest (is_empty rest) false).
Proof.
  intros Hz Hrest.
  destruct (skip_space_show_Z z rest) as [Hskip Hne].
  unfold read_int, sentry, good.
  cbn [buffer eofbit failbit negb andb].
  rewrite Hskip, Hne. cbn [buffer].
  rewrite (read_signed_show_Z z rest Hrest).
  unfold in_int in Hz. apply andb_prop in Hz. destruct Hz as [Hlo Hhi].
  apply Z.leb_le in Hlo. apply Z.leb_le in Hhi.
  cbn [negb].
  replace (INT_MAX <? z) with false by (symmetry; apply Z.ltb_ge; exact Hhi).
  replace (z <? INT_MIN) with false by (symmetry; apply Z.ltb_ge; exact Hlo).
  reflexivity.
Qed.

Lemma read_int_after_space (b : string) (v : option Z) :
  read_int (mkStream (" " +++ b) false false) v
  = read_int (mkStream b false false) v.
Proof. reflexivity. Qed.

End Numerals.

(** ** Files written by [SaveImage], read by [LoadImage] *)

Section SavedFiles.

Lemma read_bytes_length (n : nat) :
  forall s, List.length (read_bytes s n) = n.
Proof.
  induction n as [|n IH]; intros s; [reflexivity|].
  destruct s; simpl; rewrite IH; reflexivity.
Qed.

Lemma read_bytes_all (l : list ascii) (extra : string) :
  read_bytes (String.string_of_list_ascii l +++ extra) (List.length l) = l.
Proof.
  induction l as [|c l IH]; [reflexivity|].
  simpl. rewrite IH. reflexivity.
Qed.

Lemma read_bytes_empty (n : nat) :
  read_bytes String.EmptyString n = repeat NUL n.
Proof. induction n as [|n IH]; [reflexivity|]. simpl. rewrite IH. reflexivity. Qed.

Lemma read_bytes_short (l : list ascii) :
  forall n, (List.length l <= n)%nat ->
    read_bytes (String.string_of_list_ascii l) n
    = l ++ repeat NUL (n - List.length l).
Proof.
  induction l as [|c l IH]; intros n Hn.
  - simpl. rewrite Nat.sub_0_r. apply read_bytes_empty.
  - destruct n as [|n]; [simpl in Hn; lia|].
    simpl in *. rewrite IH by lia. reflexivity.
Qed.

Lemma skip_comments_dimensions (dims tail str : string) :
  no_newline dims = true ->
  (exists c t, dims = String.String c t /\ (c =? "#")%char = false) ->
  skip_comments (String.length (dims +++ newline +++ tail) + 2)
    (mkStream (dims +++ newline +++ tail) false false) str
  = Some (dims, mkStream tail false false).
Proof.
  intros Hnl (c & t & -> & Hc).
  rewrite Nat.add_comm. cbn [Nat.add].
  apply skip_comments_stop; assumption.
Qed.

(** The header [SaveImage] writes is read back as it was written, and the
    pixel vector is filled from what follows it. *)
Lemma LoadImage_saved (img : Image) (extra : string) :
  well_sized img ->
  LoadImage (Some (SaveImage img +++ extra))
  = ret (mkImage
           (read_bytes (String.string_of_list_ascii (pixel img) +++ extra)
                       (data_size img))
           (width img) (height img)).
Proof.
  intros (Hw & Hh & Hsize).
  unfold SaveImage. rewrite !append_assoc.
  rewrite LoadImage_after_magic.
  set (data := String.string_of_list_ascii (pixel img) +++ extra).
  set (tail := show_Z 255 +++ newline +++ data).
  set (dims := show_Z (width img) +++ " " +++ show_Z (height img)).
  replace (show_Z (width img) +++ " " +++ show_Z (height img) +++ newline
           +++ "255" +++ newline +++ data)
    with (dims +++ newline +++ tail)
    by (unfold dims, tail; rewrite !append_assoc; reflexivity).
  assert (Hnl : no_newline dims = true).
  { apply no_newline_append; [apply show_Z_no_newline|].
    apply (no_newline_append " "); [reflexivity | apply show_Z_no_newline]. }
  assert (Hhead : exists c t, dims = String.String c t /\ (c =? "#")%char = false).
  { destruct (show_Z_head (width img)) as (c & t & E & _ & Hhash).
    unfold dims. rewrite E. eexists. eexists. split; [reflexivity | exact Hhash]. }
  unfold read_header. cbn [buffer].
  rewrite (skip_comments_dimensions dims tail "P6" Hnl Hhead).
  unfold dims at 1.
  rewrite (read_int_show_Z (width img) (" " +++ show_Z (height img)) None Hw eq_refl).
  cbn [String.append is_empty].
  rewrite (read_int_after_space (show_Z (height img))).
  rewrite <- (append_empty_r (show_Z (height img))).
  rewrite (read_int_show_Z (height img) String.EmptyString None Hh eq_refl).
  unfold tail.
  rewrite (read_int_show_Z 255 (newline +++ data) None eq_refl eq_refl).
  cbn [header_maxColor Z.eqb Pos.eqb negb].
  unfold read_pixels. cbn [header_rest header_width header_height].
  change (is_empty (newline +++ data)) with false.
  change (newline +++ data) with (String.EmptyString +++ newline +++ data).
  rewrite (getline_line String.EmptyString data String.EmptyString eq_refl).
  assert (Hin : in_int (width img * height img) = true
                /\ in_int (width img * height img * 3) = true).
  { unfold in_int, INT_MIN, INT_MAX in *.
    split; apply andb_true_intro; split; apply Z.leb_le; lia. }
  destruct Hin as [-> ->].
  replace (width img * height img * 3 <? 0)%Z with false
    by (symmetry; apply Z.ltb_ge; lia).
  reflexivity.
Qed.

Lemma LoadImage_saved_exact (img : Image) (extra : string) :
  well_sized img ->
  List.length (pixel img) = data_size img ->
  LoadImage (Some (SaveImage img +++ extra)) = ret img.
Proof.
  intros Hsized Hlen. rewrite (LoadImage_saved img extra Hsized).
  rewrite <- Hlen, read_bytes_all. destruct img; reflexivity.
Qed.

End SavedFiles.

(** X15.  [LoadImage] reads back what [SaveImage] has written: for every
    image whose dimensions are [int]s and whose pixel vector holds exactly
    [width * height * 3] bytes (an [int] as well), loading the saved file
    gives the image itself, and bytes that follow the pixel data in the
    file are ignored. *)
Theorem LoadImage_SaveImage_roundtrip (img : Image) :
  well_sized img ->
  List.length (pixel img) = data_size img ->
  LoadImage (Some (SaveImage img)) = ret img /\
  forall extra : string, LoadImage (Some (SaveImage img +++ extra)) = ret img.
Proof.
  intros Hsized Hlen. split.
  - rewrite <- (append_empty_r (SaveImage img)).
    apply LoadImage_saved_exact; assumption.
  - intros extra. apply LoadImage_saved_exact; assumption.
Qed.

Lemma LoadImage_SaveImage_roundtrip_witness :
  well_sized two_pixels /\
  List.length (pixel two_pixels) = data_size two_pixels /\
  LoadImage (Some (SaveImage two_pixels)) = ret two_pixels /\
  forall extra : string,
    LoadImage (Some (SaveImage two_pixels +++ extra)) = ret two_pixels.
Proof.
  assert (Hsized : well_sized two_pixels).
  { split; [reflexivity|]. split; [reflexivity|].
    unfold two_pixels, INT_MAX. simpl. lia. }
  split; [exact Hsized|].
  split; [reflexivity|].
  apply (LoadImage_SaveImage_roundtrip two_pixels Hsized). reflexivity.
Defined.

(** X16.  A file with less pixel data than its header announces is not
    rejected: [LoadImage] returns an image of the announced size whose
    pixel vector is the data of the file followed by zero bytes. *)
Theorem LoadImage_pads_short_data (img : Image) :
  well_sized img ->
  (List.length (pixel img) <= data_size img)%nat ->
  LoadImage (Some (SaveImage img))
  = ret (mkImage
           (pixel img ++ repeat NUL (data_size img - List.length (pixel img)))
           (width img) (height img)).
Proof.
  intros Hsized Hlen.
  rewrite <- (append_empty_r (SaveImage img)).
  rewrite (LoadImage_saved img String.EmptyString Hsized).
  rewrite append_empty_r, (read_bytes_short _ _ Hlen). reflexivity.
Qed.

Lemma LoadImage_pads_short_data_witness :
  let img := mkImage ["a"; "b"; "c"; "d"]%char 2 1 in
  well_sized img /\
  (List.length (pixel img) <= data_size img)%nat /\
  LoadImage (Some (SaveImage img))
  = ret (mkImage
           (pixel img ++ repeat NUL (data_size img - List.length (pixel img)))
           (width img) (height img)).
Proof.
  assert (Hsized : well_sized (mkImage ["a"; "b"; "c"; "d"]%char 2 1)).
  { split; [reflexivity|]. split; [reflexivity|].
    unfold INT_MAX. simpl. lia. }
  split; [exact Hsized|].
  split; [simpl; unfold data_size; simpl; lia|].
  apply (LoadImage_pads_short_data (mkImage ["a"; "b"; "c"; "d"]%char 2 1) Hsized).
  simpl; unfold data_size; simpl; lia.
Defined.

Section LoadedImages.

Lemma read_int_in_int (s : istream) (v : Z) (s' : istream) :
  read_int s None = (Some v, s') -> in_int v = true.
Proof.
  unfold read_int.
  destruct (sentry s) as [[|] s1]; [|discriminate].
  destruct (read_signed (buffer s1)) as [[n seen] rest].
  destruct (negb seen); [intros H; injection H as <- _; reflexivity|].
  destruct (Z.ltb_spec INT_MAX n) as [Hhi|Hhi];
    [intros H; injection H as <- _; reflexivity|].
  destruct (Z.ltb_spec n INT_MIN) as [Hlo|Hlo];
    [intros H; injection H as <- _; reflexivity|].
  intros H. injection H as <- _.
  unfold in_int. apply andb_true_intro. split; apply Z.leb_le; assumption.
Qed.

Lemma read_header_in_int (magic : string) (s1 : istream) (h : header) :
  read_header magic s1 = Some h ->
  (forall w, header_width h = Some w -> in_int w = true) /\
  (forall w, header_height h = Some w -> in_int w = true).
Proof.
  unfold read_header.
  destruct (skip_comments _ s1 magic) as [[line s2]|]; [|discriminate].
  destruct (read_int (mkStream line false false) None) as [w str1] eqn:Ew.
  destruct (read_int str1 None) as [ht str2] eqn:Eh.
  destruct (read_int s2 None) as [m s3].
  intros H. injection H as <-. cbn [header_width header_height].
  split; intros v ->.
  - exact (read_int_in_int _ _ _ Ew).
  - exact (read_int_in_int _ _ _ Eh).
Qed.

Lemma read_pixels_sized (h : header) (tr : list event) (img : Image) :
  read_pixels h = (tr, Continue img) ->
  tr = [] /\
  header_width h = Some (width img) /\
  header_height h = Some (height img) /\
  0 <= width img * height img * 3 <= INT_MAX /\
  List.length (pixel img) = data_size img.
Proof.
  unfold read_pixels.
  destruct (getline (header_rest h) String.EmptyString) as [l s4].
  destruct (header_width h) as [w|]; [|discriminate].
  destruct (header_height h) as [ht|]; [|discriminate].
  destruct (in_int (w * ht)); [|discriminate].
  destruct (in_int (w * ht * 3)) eqn:E3; [|discriminate].
  cbn [negb orb].
  destruct (Z.ltb_spec (w * ht * 3) 0) as [Hneg|Hpos]; [discriminate|].
  intros H. injection H as <- <-.
  unfold in_int in E3. apply andb_prop in E3. destruct E3 as [_ Hhi].
  apply Z.leb_le in Hhi.
  cbn [width height pixel]. unfold data_size. cbn [width height].
  repeat split; try assumption.
  destruct (good s4); [apply read_bytes_length | apply repeat_length].
Qed.

Lemma LoadImage_sized (content : option string) (tr : list event) (img : Image) :
  LoadImage content = (tr, Continue img) ->
  tr = [] /\ well_sized img /\ List.length (pixel img) = data_size img.
Proof.
  unfold LoadImage.
  destruct (read_magic content) as [magic s1].
  destruct (negb (String.eqb magic "P6")); [discriminate|].
  destruct (read_header magic s1) as [h|] eqn:Eh; [|discriminate].
  destruct (header_maxColor h) as [maxColor|]; [|discriminate].
  destruct (negb (maxColor =? 255)); [discriminate|].
  intros H.
  destruct (read_pixels_sized h tr img H) as (Htr & Hw & Hh & Hsize & Hlen).
  destruct (read_header_in_int magic s1 h Eh) as [Hwi Hhi].
  split; [exact Htr|]. split; [|exact Hlen].
  split; [exact (Hwi _ Hw)|]. split; [exact (Hhi _ Hh) | exact Hsize].
Qed.

End LoadedImages.

(** X17.  Every image [LoadImage] returns has dimensions that are [int]s
    and a pixel vector of exactly [width * height * 3] bytes, however much
    data the file holds; so the conversion [RGBtoRGBA] that [main] applies
    to it never reads out of bounds and yields [width * height * 4]
    bytes. *)
Theorem LoadImage_size_invariant
    (content : option string) (tr : list event) (img : Image) :
  LoadImage content = (tr, Continue img) ->
  well_sized img /\
  Z.of_nat (List.length (pixel img)) = width img * height img * 3 /\
  exists rgba,
    RGBtoRGBA img = Some rgba /\
    Z.of_nat (List.length (pixel rgba)) = width img * height img * 4.
Proof.
  intros H.
  destruct (LoadImage_sized content tr img H) as (_ & Hsized & Hlen).
  destruct Hsized as (Hw & Hh & Hsize).
  split; [repeat split; tauto|].
  assert (Hpixels : Z.of_nat (List.length (pixel img)) = width img * height img * 3)
    by (rewrite Hlen; unfold data_size; lia).
  split; [exact Hpixels|].
  assert (Hn : List.length (pixel img) = (3 * Z.to_nat (width img * height img))%nat)
    by lia.
  exists (mkImage (pad_alpha (pixel img)) (width img) (height img)).
  split.
  - apply RGBtoRGBA_pixels. rewrite Hn, Nat.mul_comm. apply Nat.Div0.mod_mul.
  - cbn [pixel]. rewrite (pad_alpha_length _ _ Hn). lia.
Qed.

Lemma LoadImage_size_invariant_witness :
  let img := mkImage ["a"; "b"; "c"]%char 1 1 in
  LoadImage (Some sample_ppm) = ([], Continue img) /\
  well_sized img /\
  Z.of_nat (List.length (pixel img)) = width img * height img * 3 /\
  exists rgba,
    RGBtoRGBA img = Some rgba /\
    Z.of_nat (List.length (pixel rgba)) = width img * height img * 4.
Proof.
  assert (H : LoadImage (Some sample_ppm)
              = ([], Continue (mkImage ["a"; "b"; "c"]%char 1 1)))
    by (vm_compute; reflexivity).
  split; [exact H|].
  exact (LoadImage_size_invariant (Some sample_ppm) []
           (mkImage ["a"; "b"; "c"]%char 1 1) H).
Defined.
(** ** Runs of [main] *)

Section Runs.

Lemma bind_steps {A B : Type} (m : M A) (f : A -> M B)
    (tr1 tr2 : list event) (a : A) (r : step B) :
  m = (tr1, Continue a) -> f a = (tr2, r) -> bind m f = (tr1 ++ tr2, r).
Proof. intros -> E. unfold bind. rewrite E. reflexivity. Qed.

End Runs.

Section RunsOfMain.

Variables rd rf cexp : R -> R.

Lemma fst_run (w : World) (argv : list string) :
  fst (run rd rf cexp w argv) = fst (main rd rf cexp w argv).
Proof. unfold run. destruct (main rd rf cexp w argv) as [tr [a|e]]; reflexivity. Qed.

Lemma run_returns (w : World) (argv : list string) (tr : list event) :
  main rd rf cexp w argv = (tr, Continue tt) ->
  run rd rf cexp w argv = (tr, Exited 0).
Proof. intros E. unfold run. rewrite E. reflexivity. Qed.

Lemma run_stops (w : World) (argv : list string) (tr : list event) (e : ending) :
  main rd rf cexp w argv = (tr, Stop e) ->
  run rd rf cexp w argv = (tr, e).
Proof. intros E. unfold run. rewrite E. reflexivity. Qed.

Lemma read_arguments_one (argv0 s : string) :
  in_int (atoi s) = true -> read_arguments [argv0; s] = ret (atoi s).
Proof. intros H. unfold read_arguments. rewrite H. reflexivity. Qed.

End RunsOfMain.

(** X18.  With any number of arguments other than one, the program prints
    the usage line, naming itself as it was called, and exits with status 1
    before it does anything else. *)
Theorem wrong_argument_count_prints_usage
    (rd rf cexp : R -> R) (w : World) (argv0 : string) (arguments : list string) :
  List.length arguments <> 1%nat ->
  run rd rf cexp w (argv0 :: arguments)
  = ([Stdout ("Usage: " +++ argv0 +++ " <filter size>" +++ newline)], Exited 1).
Proof.
  intros H. destruct arguments as [|a [|b rest]];
    [reflexivity | contradiction | reflexivity].
Qed.

Lemma wrong_argument_count_prints_usage_witness :
  List.length ["3"; "4"]%string <> 1%nat /\
  run exact_rd exact_rf exact_exp (sample_world all_succeed (Some sample_ppm))
      ("blur" :: ["3"; "4"])%string
  = ([Stdout ("Usage: " +++ "blur" +++ " <filter size>" +++ newline)], Exited 1).
Proof.
  split; [discriminate|].
  apply (wrong_argument_count_prints_usage exact_rd exact_rf exact_exp
           (sample_world all_succeed (Some sample_ppm)) "blur" ["3"; "4"]%string).
  discriminate.
Defined.

(** X19.  When the runtime reports no platform, the program says so on the
    diagnostic stream and exits with status 1: the first query is its only
    call to the runtime, and the radius plays no part. *)
Theorem no_platform_is_fatal
    (rd rf cexp : R -> R) (w : World) (argv0 s : string) :
  in_int (atoi s) = true ->
  platformIdCount w = 0%nat ->
  run rd rf cexp w [argv0; s]
  = ([Call (clGetPlatformIDs 0);
      Stderr ("No OpenCL platform found" +++ newline)],
     Exited 1).
Proof.
  intros Hs Hnone.
  apply run_stops. unfold main.
  rewrite (read_arguments_one argv0 s Hs), bind_ret_l.
  unfold create_context. rewrite Hnone. reflexivity.
Qed.

Lemma no_platform_is_fatal_witness :
  let w := mkWorld 0 (fun _ => ""%string) 0 (fun _ => ""%string) all_succeed
                   ""%string None (fun _ => NUL) (fun _ => NUL) in
  in_int (atoi "2") = true /\
  platformIdCount w = 0%nat /\
  run exact_rd exact_rf exact_exp w ["blur"; "2"]%string
  = ([Call (clGetPlatformIDs 0);
      Stderr ("No OpenCL platform found" +++ newline)],
     Exited 1).
Proof.
  split; [reflexivity|]. split; [reflexivity|].
  apply (no_platform_is_fatal exact_rd exact_rf exact_exp
           (mkWorld 0 (fun _ => ""%string) 0 (fun _ => ""%string) all_succeed
                    ""%string None (fun _ => NUL) (fun _ => NUL)) "blur" "2");
    reflexivity.
Defined.

Section Enumeration.

Variable w : World.

(** The loop that lists the platforms. *)
Lemma platform_loop_returns (l : list nat) :
  exists tr,
    for_each l (fun i =>
      name <- GetPlatformName w i ;;
      emit (Stdout (tab +++ " ("%string +++ show_Z (Z.of_nat i + 1) +++ ") : "%string
                    +++ name +++ newline)))
    = (tr, Continue tt) /\
    forallb platform_query tr = true /\
    forall i, In i l -> In (Stdout (listing_line i (platformName w i))) tr.
Proof.
  induction l as [|i l (tr & E & Hq & Hin)].
  - exists []. split; [reflexivity|]. split; [reflexivity|]. intros i [].
  - exists ([Call (clGetPlatformInfo i); Call (clGetPlatformInfo i);
             Stdout (listing_line i (platformName w i))] ++ tr).
    split; [|split].
    + cbn [for_each].
      apply (bind_steps _ _ _ _ tt); [reflexivity | exact E].
    + simpl. exact Hq.
    + intros j [<- | Hj].
      * simpl. auto.
      * apply in_or_app. right. apply Hin. exact Hj.
Qed.

Lemma device_loop_returns (l : list nat) :
  exists tr,
    for_each l (fun i =>
      name <- GetDeviceName w i ;;
      emit (Stdout (tab +++ " ("%string +++ show_Z (Z.of_nat i + 1) +++ ") : "%string
                    +++ name +++ newline)))
    = (tr, Continue tt) /\
    forallb not_write tr = true /\
    forall i, In i l -> In (Stdout (listing_line i (deviceName w i))) tr.
Proof.
  induction l as [|i l (tr & E & Hq & Hin)].
  - exists []. split; [reflexivity|]. split; [reflexivity|]. intros i [].
  - exists ([Call (clGetDeviceInfo i); Call (clGetDeviceInfo i);
             Stdout (listing_line i (deviceName w i))] ++ tr).
    split; [|split].
    + cbn [for_each].
      apply (bind_steps _ _ _ _ tt); [reflexivity | exact E].
    + simpl. exact Hq.
    + intros j [<- | Hj].
      * simpl. auto.
      * apply in_or_app. right. apply Hin. exact Hj.
Qed.

(** [create_context] up to the query for the number of devices. *)
Lemma create_context_platforms (tr : list event) (r : step unit) :
  platformIdCount w <> 0%nat ->
  create_context_devices w = (tr, r) ->
  exists pre,
    create_context w = (pre ++ tr, r) /\
    forallb platform_query pre = true /\
    forall i, (i < platformIdCount w)%nat ->
              In (Stdout (listing_line i (platformName w i))) pre.
Proof.
  intros Hsome Erest.
  destruct (platform_loop_returns (seq 0 (platformIdCount w)))
    as (loop & Eloop & Hq & Hin).
  exists ([Call (clGetPlatformIDs 0)]
          ++ [Stdout ("Found "%string +++ show_Z (Z.of_nat (platformIdCount w))
                      +++ " platform(s)"%string +++ newline)]
          ++ [Call (clGetPlatformIDs (platformIdCount w))]
          ++ loop).
  split; [|split].
  - unfold create_context.
    rewrite <- !app_assoc.
    apply (bind_steps _ _ _ _ (cl_status w (clGetPlatformIDs 0))); [reflexivity|].
    apply (bind_steps _ _ _ _ tt).
    { apply Nat.eqb_neq in Hsome. rewrite Hsome. reflexivity. }
    apply (bind_steps _ _ _ _ (cl_status w (clGetPlatformIDs (platformIdCount w))));
      [reflexivity|].
    apply (bind_steps _ _ _ _ tt); [exact Eloop|].
    exact Erest.
  - simpl. exact Hq.
  - intros i Hi. apply in_or_app. right. apply in_or_app. right.
    apply in_or_app. right. apply Hin. apply in_seq. lia.
Qed.

Lemma in_fst_bind_l {A B : Type} (e : event) (m : M A) (f : A -> M B) :
  In e (fst m) -> In e (fst (bind m f)).
Proof.
  destruct m as [tr [a|x]]; simpl; intros H; [|exact H].
  destruct (f a) as [tr' r]. simpl. apply in_or_app. left. exact H.
Qed.

Lemma in_fst_bind_r {A B : Type} (e : event) (m : M A) (f : A -> M B)
    (tr : list event) (a : A) :
  m = (tr, Continue a) -> In e (fst (f a)) -> In e (fst (bind m f)).
Proof.
  intros -> H. simpl. destruct (f a) as [tr' r]. simpl in *.
  apply in_or_app. right. exact H.
Qed.

Lemma create_context_devices_listed (i : nat) :
  (i < deviceIdCount w)%nat ->
  In (Stdout (listing_line i (deviceName w i))) (fst (create_context_devices w)).
Proof.
  intros Hi.
  destruct (device_loop_returns (seq 0 (deviceIdCount w)))
    as (loop & Eloop & _ & Hin).
  unfold create_context_devices.
  replace (deviceIdCount w =? 0)%nat with false
    by (symmetry; apply Nat.eqb_neq; lia).
  eapply in_fst_bind_r; [reflexivity|].
  eapply in_fst_bind_r; [reflexivity|].
  eapply in_fst_bind_r; [reflexivity|].
  apply in_fst_bind_l. rewrite Eloop. apply Hin. apply in_seq. lia.
Qed.

Lemma create_context_devices_none :
  deviceIdCount w = 0%nat ->
  create_context_devices w
  = ([Call (clGetDeviceIDs 0);
      Stderr ("No OpenCL devices found" +++ newline)],
     Stop (Exited 1)).
Proof. intros H. unfold create_context_devices. rewrite H. reflexivity. Qed.

End Enumeration.

(** X20.  When the first platform reports no device, the program lists the
    platforms (each one has its numbered line with its name on the standard
    output), says that no device was found on the diagnostic stream and
    exits with status 1: up to there it has only queried the platforms and
    printed, so no context is created and no file is opened. *)
Theorem no_device_is_fatal
    (rd rf cexp : R -> R) (w : World) (argv0 s : string) :
  in_int (atoi s) = true ->
  platformIdCount w <> 0%nat ->
  deviceIdCount w = 0%nat ->
  exists pre,
    run rd rf cexp w [argv0; s]
    = (pre ++ [Call (clGetDeviceIDs 0);
               Stderr ("No OpenCL devices found" +++ newline)],
       Exited 1) /\
    forallb platform_query pre = true /\
    (forall i, (i < platformIdCount w)%nat ->
       In (Stdout (listing_line i (platformName w i))) pre).
Proof.
  intros Hs Hsome Hnone.
  destruct (create_context_platforms w _ _ Hsome
              (create_context_devices_none w Hnone))
    as (pre & E & Hq & Hlisted).
  exists pre. split; [|split; [exact Hq | exact Hlisted]].
  apply run_stops. unfold main.
  rewrite (read_arguments_one argv0 s Hs), bind_ret_l.
  rewrite E. reflexivity.
Qed.

Lemma no_device_is_fatal_witness :
  let w := mkWorld 1 (fun _ => "platform"%string) 0 (fun _ => ""%string)
                   all_succeed ""%string None (fun _ => NUL) (fun _ => NUL) in
  in_int (atoi "2") = true /\
  platformIdCount w <> 0%nat /\
  deviceIdCount w = 0%nat /\
  exists pre,
    run exact_rd exact_rf exact_exp w ["blur"; "2"]%string
    = (pre ++ [Call (clGetDeviceIDs 0);
               Stderr ("No OpenCL devices found" +++ newline)],
       Exited 1) /\
    forallb platform_query pre = true /\
    (forall i, (i < platformIdCount w)%nat ->
       In (Stdout (listing_line i (platformName w i))) pre).
Proof.
  split; [reflexivity|]. split; [discriminate|]. split; [reflexivity|].
  apply (no_device_is_fatal exact_rd exact_rf exact_exp
           (mkWorld 1 (fun _ => "platform"%string) 0 (fun _ => ""%string)
                    all_succeed ""%string None (fun _ => NUL) (fun _ => NUL)) "blur" "2");
    [reflexivity | discriminate | reflexivity].
Defined.

(** X21.  Every platform is listed on the standard output, numbered from
    1, with the name the runtime reports for it: platform [i] (counted from
    0) appears as the line made of a tab, " (", [i + 1], ") : " and the
    name. *)
Theorem platforms_are_listed
    (rd rf cexp : R -> R) (w : World) (argv0 s : string) (i : nat) :
  in_int (atoi s) = true ->
  (i < platformIdCount w)%nat ->
  In (Stdout (listing_line i (platformName w i)))
     (fst (run rd rf cexp w [argv0; s])).
Proof.
  intros Hs Hi.
  rewrite fst_run. unfold main.
  rewrite (read_arguments_one argv0 s Hs), bind_ret_l.
  destruct (create_context_devices w) as [tr r] eqn:ED.
  destruct (create_context_platforms w tr r ltac:(lia) ED) as (pre & E & _ & Hin).
  apply in_fst_bind_l. rewrite E. apply in_or_app. left. apply Hin. exact Hi.
Qed.

Lemma platforms_are_listed_witness :
  let w := sample_world all_succeed (Some sample_ppm) in
  in_int (atoi "0") = true /\
  (0 < platformIdCount w)%nat /\
  In (Stdout (listing_line 0 (platformName w 0)))
     (fst (run exact_rd exact_rf exact_exp w ["blur"; "0"]%string)).
Proof.
  split; [reflexivity|]. split; [simpl; lia|].
  apply (platforms_are_listed exact_rd exact_rf exact_exp
           (sample_world all_succeed (Some sample_ppm)) "blur" "0" 0);
    [reflexivity | simpl; lia].
Defined.

(** X22.  When there is a platform, every device of the first platform is
    listed in the same way, with the name the runtime reports for it. *)
Theorem devices_are_listed
    (rd rf cexp : R -> R) (w : World) (argv0 s : string) (i : nat) :
  in_int (atoi s) = true ->
  platformIdCount w <> 0%nat ->
  (i < deviceIdCount w)%nat ->
  In (Stdout (listing_line i (deviceName w i)))
     (fst (run rd rf cexp w [argv0; s])).
Proof.
  intros Hs Hsome Hi.
  rewrite fst_run. unfold main.
  rewrite (read_arguments_one argv0 s Hs), bind_ret_l.
  destruct (create_context_devices w) as [tr r] eqn:ED.
  destruct (create_context_platforms w tr r Hsome ED) as (pre & E & _ & _).
  apply in_fst_bind_l. rewrite E. apply in_or_app. right.
  pose proof (create_context_devices_listed w i Hi) as Hin.
  rewrite ED in Hin. exact Hin.
Qed.

Lemma devices_are_listed_witness :
  let w := sample_world all_succeed (Some sample_ppm) in
  in_int (atoi "0") = true /\
  platformIdCount w <> 0%nat /\
  (0 < deviceIdCount w)%nat /\
  In (Stdout (listing_line 0 (deviceName w 0)))
     (fst (run exact_rd exact_rf exact_exp w ["blur"; "0"]%string)).
Proof.
  split; [reflexivity|]. split; [discriminate|]. split; [simpl; lia|].
  apply (devices_are_listed exact_rd exact_rf exact_exp
           (sample_world all_succeed (Some sample_ppm)) "blur" "0" 0);
    [reflexivity | discriminate | simpl; lia].
Defined.

(** ** The output file *)

Section OutputDiscipline.

Variables rd rf cexp : R -> R.

Lemma writes_output_bind {A B : Type} (m : M A) (f : A -> M B) :
  holds not_write not_exit_0 m ->
  (forall a, writes_output (f a)) ->
  writes_output (bind m f).
Proof.
  destruct m as [tr [a | e]]; intros [Hm1 Hm2] Hf.
  - rewrite (bind_continue _ f tr a eq_refl).
    specialize (Hf a). unfold writes_output in *. simpl in *.
    destruct (snd (f a)) as [b | e].
    + destruct Hf as (pre & content & post & E & Hpre & Hpost).
      exists (tr ++ pre), content, post. split; [|split].
      * rewrite E, app_assoc. reflexivity.
      * rewrite forallb_app, Hm1, Hpre. reflexivity.
      * exact Hpost.
    + destruct Hf as [Hquiet He]. split; [|exact He].
      rewrite forallb_app, Hm1, Hquiet. reflexivity.
  - rewrite (bind_stop _ f tr e eq_refl). unfold writes_output. simpl in *.
    split; assumption.
Qed.

Lemma writes_output_write (content : string) (w : World) :
  writes_output (emit (WriteFile "output.ppm" content) ;; release_all w).
Proof.
  unfold writes_output. simpl.
  exists [], content, (map Call release_calls). repeat split.
Qed.

Lemma read_arguments_no_write (argv : list string) :
  holds not_write not_exit_0 (read_arguments argv).
Proof. unfold read_arguments. holds_walk. Qed.

Lemma create_context_writes_nothing (w : World) :
  holds not_write not_exit_0 (create_context w).
Proof. unfold create_context, GetPlatformName, GetDeviceName. holds_walk. Qed.

Lemma make_filter_no_write (filterSize : Z) :
  holds not_write not_exit_0 (make_filter rd rf cexp filterSize).
Proof. unfold make_filter. holds_walk. Qed.

Lemma create_kernel_writes_nothing (w : World) (filterSize : Z) :
  holds not_write not_exit_0 (create_kernel w filterSize).
Proof. unfold create_kernel, LoadKernel, CreateProgram. holds_walk. Qed.

Lemma load_input_no_write (w : World) :
  holds not_write not_exit_0 (load_input w).
Proof.
  unfold load_input.
  apply holds_bind; [holds_walk | intros _].
  apply holds_bind; [apply LoadImage_quiet | intros loaded].
  holds_walk.
Qed.

Ltac writes_step :=
  apply writes_output_bind; [solve [holds_walk] | intros].

Lemma convolve_writes_output (w : World) (filter : kernel_type) (image : Image) :
  writes_output (convolve w filter image ;; release_all w).
Proof.
  unfold convolve.
  repeat (cbv zeta; rewrite <- bind_assoc; writes_step).
  cbv zeta.
  match goal with |- context [RGBAtoRGB ?x] => destruct (RGBAtoRGB x) end.
  - apply writes_output_write.
  - unfold writes_output. simpl. split; reflexivity.
Qed.

Lemma main_writes_output (w : World) (argv : list string) :
  writes_output (main rd rf cexp w argv).
Proof.
  unfold main.
  apply writes_output_bind; [apply read_arguments_no_write | intros filterSize].
  apply writes_output_bind; [apply create_context_writes_nothing | intros _].
  apply writes_output_bind; [apply make_filter_no_write | intros filter].
  apply writes_output_bind; [apply create_kernel_writes_nothing | intros _].
  apply writes_output_bind; [apply load_input_no_write | intros image].
  apply convolve_writes_output.
Qed.

End OutputDiscipline.

(** X23.  The output file is written exactly on the runs that exit with
    status 0.  A run that ends in any other way has written no file; a run
    that exits with status 0 has written one file, [output.ppm], once. *)
Theorem output_is_written_exactly_on_exit_0
    (rd rf cexp : R -> R) (w : World) (argv : list string) :
  if not_exit_0 (snd (run rd rf cexp w argv))
  then forallb not_write (fst (run rd rf cexp w argv)) = true
  else written_once (fst (run rd rf cexp w argv)).
Proof.
  pose proof (main_writes_output rd rf cexp w argv) as H.
  unfold writes_output in H. unfold run.
  destruct (main rd rf cexp w argv) as [tr [a | e]]; simpl in *.
  - exact H.
  - destruct H as [Hquiet He]. rewrite He. exact Hquiet.
Qed.

(** ** Runs in which every checked call succeeds *)

Section SuccessfulRuns.

Variables rd rf cexp : R -> R.
Variable w : World.

Hypothesis checked_ok : all_checked_succeed w.

Lemma checked_call_succeeds {B : Type} (c : cl_call) (k : unit -> M B)
    (tr : list event) (r : step B) :
  checked_call c = true ->
  k tt = (tr, r) ->
  (error <- call w c ;; x <- CheckError error ;; k x) = (Call c :: tr, r).
Proof.
  intros Hc E.
  apply (bind_steps _ _ [Call c] tr (cl_status w c)); [reflexivity|].
  rewrite (checked_ok c Hc).
  change (CheckError CL_SUCCESS) with (@ret unit tt).
  rewrite bind_ret_l. exact E.
Qed.

Lemma checked_call_succeeds_last (c : cl_call) :
  checked_call c = true ->
  (error <- call w c ;; CheckError error) = ([Call c], Continue tt).
Proof.
  intros Hc.
  apply (bind_steps _ _ [Call c] [] (cl_status w c)); [reflexivity|].
  rewrite (checked_ok c Hc). reflexivity.
Qed.

Lemma unchecked_call {B : Type} (c : cl_call) (k : Z -> M B)
    (tr : list event) (r : step B) :
  k (cl_status w c) = (tr, r) ->
  bind (call w c) k = (Call c :: tr, r).
Proof.
  intros E. apply (bind_steps _ _ [Call c] tr (cl_status w c)); [reflexivity | exact E].
Qed.

Lemma create_context_succeeds :
  platformIdCount w <> 0%nat ->
  deviceIdCount w <> 0%nat ->
  exists tr,
    create_context w = (tr, Continue tt) /\ forallb not_write tr = true.
Proof.
  intros Hp Hd.
  destruct (device_loop_returns w (seq 0 (deviceIdCount w)))
    as (loop & Eloop & Hq & _).
  assert (ED : create_context_devices w
               = (Call (clGetDeviceIDs 0)
                  :: [Stdout ("Found "%string +++ show_Z (Z.of_nat (deviceIdCount w))
                              +++ " device(s)"%string +++ newline)]
                  ++ Call (clGetDeviceIDs (deviceIdCount w))
                  :: loop
                  ++ Call (clCreateContext (deviceIdCount w))
                  :: [Stdout ("Context created"%string +++ newline)],
                  Continue tt)).
  { unfold create_context_devices.
    apply unchecked_call.
    apply (bind_steps _ _ _ _ tt).
    { apply Nat.eqb_neq in Hd. rewrite Hd. reflexivity. }
    apply unchecked_call.
    apply (bind_steps _ _ _ _ tt); [exact Eloop|].
    apply checked_call_succeeds; reflexivity. }
  destruct (create_context_platforms w _ _ Hp ED) as (pre & E & Hpre & _).
  eexists. split; [exact E|].
  rewrite forallb_app. apply andb_true_intro. split.
  - clear -Hpre. induction pre as [|e pre IH]; [reflexivity|].
    simpl in *. apply andb_prop in Hpre. destruct Hpre as [He Hpre].
    rewrite (IH Hpre). destruct e as [c| | | |]; try discriminate; reflexivity.
  - simpl. rewrite forallb_app, Hq. reflexivity.
Qed.

Lemma create_kernel_succeeds (filterSize : Z) :
  create_kernel w filterSize
  = ([ReadFile "kernels/image.cl";
      Call (clCreateProgramWithSource (kernel_source w));
      Call (clBuildProgram (deviceIdCount w) ("-D RADIUS=" +++ show_Z filterSize));
      Call (clCreateKernel "Filter")],
     Continue tt).
Proof.
  unfold create_kernel, LoadKernel, CreateProgram.
  apply (bind_steps _ _ [ReadFile "kernels/image.cl"%string] _ (kernel_source w));
    [reflexivity|].
  apply (bind_steps _ _ [Call (clCreateProgramWithSource (kernel_source w))] _ tt);
    [apply checked_call_succeeds_last; reflexivity|].
  cbv zeta.
  apply checked_call_succeeds; [reflexivity|].
  apply checked_call_succeeds_last. reflexivity.
Qed.

Lemma read_back_length (c : cl_call) (host : list ascii) :
  List.length (read_back w c host) = List.length host.
Proof. unfold read_back. rewrite length_map, length_seq. reflexivity. Qed.

Lemma read_back_success (c : cl_call) (host : list ascii) :
  cl_status w c = CL_SUCCESS ->
  read_back w c host = map (device_pixels w) (seq 0 (List.length host)).
Proof. intros H. unfold read_back. rewrite H. reflexivity. Qed.

Lemma read_back_failure (c : cl_call) (host : list ascii) :
  cl_status w c <> CL_SUCCESS ->
  read_back w c host = map (failed_pixels w) (seq 0 (List.length host)).
Proof.
  intros H. unfold read_back. apply Z.eqb_neq in H. rewrite H. reflexivity.
Qed.

(** [convolve] on an image of [n] pixels of four bytes. *)
Lemma convolve_succeeds (filter : kernel_type) (image : Image) (n : nat) :
  List.length (pixel image) = (4 * n)%nat ->
  convolve w filter image
  = ([Call (clCreateImage2D (width image) (height image) (Some (pixel image)));
      Call (clCreateImage2D (width image) (height image) None);
      Call (clCreateBuffer (concat filter));
      Call (clSetKernelArg 0 InputImage);
      Call (clSetKernelArg 1 FilterWeightsBuffer);
      Call (clSetKernelArg 2 OutputImage);
      Call clCreateCommandQueue;
      Call (clEnqueueNDRangeKernel (width image) (height image));
      Call (clEnqueueReadImage (width image) (height image));
      WriteFile "output.ppm"
        (SaveImage
           (mkImage
              (drop_alpha
                 (read_back w (clEnqueueReadImage (width image) (height image))
                            (repeat NUL (4 * n))))
              (width image) (height image)))],
     Continue tt).
Proof.
  intros Hn. unfold convolve.
  apply checked_call_succeeds; [reflexivity|].
  apply checked_call_succeeds; [reflexivity|].
  apply checked_call_succeeds; [reflexivity|].
  apply unchecked_call. apply unchecked_call. apply unchecked_call.
  apply checked_call_succeeds; [reflexivity|].
  apply checked_call_succeeds; [reflexivity|].
  cbv zeta. cbn [width height pixel].
  apply unchecked_call.
  rewrite (RGBAtoRGB_pixels _ n)
    by (cbn [pixel]; rewrite read_back_length, repeat_length; exact Hn).
  cbn [width height pixel]. rewrite Hn. reflexivity.
Qed.

Lemma load_input_succeeds (img : Image) :
  LoadImage (test_ppm w) = ret img ->
  load_input w
  = ([ReadFile "test.ppm"],
     Continue (mkImage (pad_alpha (pixel img)) (width img) (height img))) /\
  List.length (pad_alpha (pixel img)) = (4 * pixel_count img)%nat.
Proof.
  intros Hload.
  destruct (LoadImage_sized _ _ _ Hload) as (_ & (_ & _ & Hsize) & Hlen).
  assert (Hn : List.length (pixel img) = (3 * pixel_count img)%nat)
    by (rewrite Hlen; unfold data_size, pixel_count; lia).
  split; [|apply pad_alpha_length; exact Hn].
  unfold load_input.
  apply (bind_steps _ _ [ReadFile "test.ppm"%string] [] tt); [reflexivity|].
  rewrite Hload, bind_ret_l.
  rewrite RGBtoRGBA_pixels
    by (rewrite Hn, Nat.mul_comm; apply Nat.Div0.mod_mul).
  reflexivity.
Qed.

(** The run, phase by phase. *)
Lemma run_succeeds (argv0 s : string) (img : Image) :
  0 <= atoi s < 1073741824 ->
  platformIdCount w <> 0%nat ->
  deviceIdCount w <> 0%nat ->
  LoadImage (test_ppm w) = ret img ->
  exists pre tr1 k,
    run rd rf cexp w [argv0; s]
    = (pre ++ WriteFile "output.ppm"
                (SaveImage
                   (mkImage
                      (drop_alpha
                         (read_back w (clEnqueueReadImage (width img) (height img))
                                    (repeat NUL (4 * pixel_count img))))
                      (width img) (height img)))
           :: map Call release_calls,
       Exited 0) /\
    forallb not_write pre = true /\
    produce2dGaussianKernel rd rf cexp (atoi s) = Some k /\
    pre = tr1
          ++ [ReadFile "kernels/image.cl";
              Call (clCreateProgramWithSource (kernel_source w));
              Call (clBuildProgram (deviceIdCount w)
                      ("-D RADIUS=" +++ show_Z (atoi s)));
              Call (clCreateKernel "Filter")]
          ++ [ReadFile "test.ppm"]
          ++ [Call (clCreateImage2D (width img) (height img)
                      (Some (pad_alpha (pixel img))));
              Call (clCreateImage2D (width img) (height img) None);
              Call (clCreateBuffer (concat k));
              Call (clSetKernelArg 0 InputImage);
              Call (clSetKernelArg 1 FilterWeightsBuffer);
              Call (clSetKernelArg 2 OutputImage);
              Call clCreateCommandQueue;
              Call (clEnqueueNDRangeKernel (width img) (height img));
              Call (clEnqueueReadImage (width img) (height img))].
Proof.
  intros Hs Hp Hd Hload.
  destruct (create_context_succeeds Hp Hd) as (tr1 & E1 & H1).
  destruct (make_filter_defined rd rf cexp (atoi s) Hs) as (k & Ek & Hk).
  destruct (load_input_succeeds img Hload) as [E3 Hlen].
  pose proof (convolve_succeeds k
                (mkImage (pad_alpha (pixel img)) (width img) (height img))
                (pixel_count img) Hlen) as E4.
  cbn [width height pixel] in E4.
  eexists. exists tr1, k.
  split; [|split; [|split; [exact Hk | reflexivity]]].
  - apply run_returns. unfold main.
    rewrite read_arguments_one
      by (unfold in_int, INT_MIN, INT_MAX; apply andb_true_intro;
          split; apply Z.leb_le; lia).
    rewrite bind_ret_l.
    rewrite <- !app_assoc.
    apply (bind_steps _ _ _ _ tt _ E1).
    rewrite Ek, bind_ret_l.
    apply (bind_steps _ _ _ _ tt _ (create_kernel_succeeds (atoi s))).
    apply (bind_steps _ _ _ _ _ _ E3).
    rewrite (bind_steps _ _ _ _ tt _ E4 eq_refl).
    reflexivity.
  - rewrite forallb_app, H1. reflexivity.
Qed.

End SuccessfulRuns.

Section OutputPixels.

Local Open Scope nat_scope.

Lemma drop_alpha_repeat (n : nat) :
  drop_alpha (repeat NUL (4 * n)) = repeat NUL (3 * n).
Proof.
  induction n as [|n IH]; [reflexivity|].
  replace (4 * S n) with (4 + 4 * n) by lia.
  replace (3 * S n) with (3 + 3 * n) by lia.
  change (repeat NUL (4 + 4 * n))
    with (NUL :: NUL :: NUL :: NUL :: repeat NUL (4 * n)).
  change (repeat NUL (3 + 3 * n)) with (NUL :: NUL :: NUL :: repeat NUL (3 * n)).
  cbn [drop_alpha]. rewrite IH. reflexivity.
Qed.

Lemma nth_error_map_seq {B : Type} (f : nat -> B) (n j : nat) :
  j < n -> nth_error (map f (seq 0 n)) j = Some (f j).
Proof.
  intros Hj. rewrite nth_error_map, nth_error_seq.
  replace (j <? n) with true by (symmetry; apply Nat.ltb_lt; exact Hj).
  reflexivity.
Qed.

Lemma map_seq_constant {B : Type} (f : nat -> B) (c : B) (n : nat) :
  (forall i, i < n -> f i = c) -> map f (seq 0 n) = repeat c n.
Proof.
  intros H. transitivity (map (fun _ : nat => c) (seq 0 n)).
  - apply map_ext_in. intros i Hi. apply in_seq in Hi. apply H. lia.
  - rewrite map_const, length_seq. reflexivity.
Qed.

Lemma drop_alpha_device (f : nat -> ascii) (n k c : nat) :
  k < n -> c < 3 ->
  nth_error (drop_alpha (map f (seq 0 (4 * n)))) (3 * k + c) = Some (f (4 * k + c)).
Proof.
  intros Hk Hc.
  assert (Hlen : List.length (map f (seq 0 (4 * n))) = 4 * n)
    by (rewrite length_map, length_seq; reflexivity).
  destruct (drop_alpha_nth n _ k Hlen ltac:(lia)) as (H0 & H1 & H2).
  destruct c as [|[|[|c]]]; [| | |lia].
  - rewrite !Nat.add_0_r, H0. apply nth_error_map_seq. lia.
  - rewrite H1. apply nth_error_map_seq. lia.
  - rewrite H2. apply nth_error_map_seq. lia.
Qed.

End OutputPixels.

(** X24.  A run in which the platform and a device are found, every
    checked call and the readback succeed and [test.ppm] loads, exits with
    status 0 after it has written [output.ppm] and released everything.
    The file has the width and height of the input and three bytes for each
    of its pixels: byte [c] of pixel [k] is byte [4k + c] of what the device
    returned, the fourth byte of each pixel being dropped. *)
Theorem successful_run_writes_device_pixels
    (rd rf cexp : R -> R) (w : World) (argv0 s : string) (img : Image) :
  0 <= atoi s < 1073741824 ->
  platformIdCount w <> 0%nat ->
  deviceIdCount w <> 0%nat ->
  all_checked_succeed w ->
  cl_status w (clEnqueueReadImage (width img) (height img)) = CL_SUCCESS ->
  LoadImage (test_ppm w) = ret img ->
  exists pre out,
    run rd rf cexp w [argv0; s]
    = (pre ++ WriteFile "output.ppm"
                (SaveImage (mkImage out (width img) (height img)))
           :: map Call release_calls,
       Exited 0) /\
    forallb not_write pre = true /\
    List.length out = (3 * pixel_count img)%nat /\
    forall k c, (k < pixel_count img)%nat -> (c < 3)%nat ->
      nth_error out (3 * k + c) = Some (device_pixels w (4 * k + c)).
Proof.
  intros Hs Hp Hd Hok Hread Hload.
  destruct (run_succeeds rd rf cexp w Hok argv0 s img Hs Hp Hd Hload)
    as (pre & _ & _ & Erun & Hpre & _).
  rewrite (read_back_success w _ _ Hread), repeat_length in Erun.
  exists pre. eexists. split; [exact Erun|]. split; [exact Hpre|]. split.
  - apply drop_alpha_length. rewrite length_map, length_seq. reflexivity.
  - intros k c Hk Hc. apply drop_alpha_device; assumption.
Qed.

Lemma sample_image_loads :
  LoadImage (test_ppm (sample_world all_succeed (Some sample_ppm)))
  = ret (mkImage ["a"; "b"; "c"]%char 1 1).
Proof. vm_compute. reflexivity. Qed.

Lemma successful_run_writes_device_pixels_witness :
  let w := sample_world all_succeed (Some sample_ppm) in
  let img := mkImage ["a"; "b"; "c"]%char 1 1 in
  0 <= atoi "0" < 1073741824 /\
  platformIdCount w <> 0%nat /\
  deviceIdCount w <> 0%nat /\
  all_checked_succeed w /\
  cl_status w (clEnqueueReadImage (width img) (height img)) = CL_SUCCESS /\
  LoadImage (test_ppm w) = ret img /\
  exists pre out,
    run exact_rd exact_rf exact_exp w ["blur"; "0"]%string
    = (pre ++ WriteFile "output.ppm"
                (SaveImage (mkImage out (width img) (height img)))
           :: map Call release_calls,
       Exited 0) /\
    forallb not_write pre = true /\
    List.length out = (3 * pixel_count img)%nat /\
    forall k c, (k < pixel_count img)%nat -> (c < 3)%nat ->
      nth_error out (3 * k + c) = Some (device_pixels w (4 * k + c)).
Proof.
  assert (Hs : 0 <= atoi "0" < 1073741824) by (vm_compute; split; congruence).
  assert (Hok : all_checked_succeed (sample_world all_succeed (Some sample_ppm)))
    by (intros c _; reflexivity).
  split; [exact Hs|]. split; [discriminate|]. split; [discriminate|].
  split; [exact Hok|]. split; [reflexivity|].
  split; [exact sample_image_loads|].
  apply (successful_run_writes_device_pixels exact_rd exact_rf exact_exp
           (sample_world all_succeed (Some sample_ppm)) "blur" "0"
           (mkImage ["a"; "b"; "c"]%char 1 1));
    [exact Hs | discriminate | discriminate | exact Hok | reflexivity
     | exact sample_image_loads].
Defined.

(** X25.  When the readback fails and every checked call succeeds, the run
    still exits with status 0 and writes [output.ppm] with the width and
    height of the input.  The pixel bytes are those the failing call left in
    the buffer, which had been filled with zeros, the fourth byte of each
    pixel being dropped; so when the failing call left the buffer untouched
    (which the interface does not promise), every byte of the pixel data
    written is 0. *)
Theorem failed_readback_still_writes_output
    (rd rf cexp : R -> R) (w : World) (argv0 s : string) (img : Image) :
  0 <= atoi s < 1073741824 ->
  platformIdCount w <> 0%nat ->
  deviceIdCount w <> 0%nat ->
  all_checked_succeed w ->
  cl_status w (clEnqueueReadImage (width img) (height img)) <> CL_SUCCESS ->
  LoadImage (test_ppm w) = ret img ->
  exists pre out,
    run rd rf cexp w [argv0; s]
    = (pre ++ WriteFile "output.ppm"
                (SaveImage (mkImage out (width img) (height img)))
           :: map Call release_calls,
       Exited 0) /\
    forallb not_write pre = true /\
    List.length out = (3 * pixel_count img)%nat /\
    (forall k c, (k < pixel_count img)%nat -> (c < 3)%nat ->
       nth_error out (3 * k + c) = Some (failed_pixels w (4 * k + c))) /\
    ((forall i, (i < 4 * pixel_count img)%nat -> failed_pixels w i = NUL) ->
     out = repeat NUL (3 * pixel_count img)).
Proof.
  intros Hs Hp Hd Hok Hread Hload.
  destruct (run_succeeds rd rf cexp w Hok argv0 s img Hs Hp Hd Hload)
    as (pre & _ & _ & Erun & Hpre & _).
  rewrite (read_back_failure w _ _ Hread), repeat_length in Erun.
  exists pre. eexists. split; [exact Erun|]. split; [exact Hpre|].
  split; [|split].
  - apply drop_alpha_length. rewrite length_map, length_seq. reflexivity.
  - intros k c Hk Hc. apply drop_alpha_device; assumption.
  - intros Huntouched.
    rewrite (map_seq_constant _ NUL _ Huntouched). apply drop_alpha_repeat.
Qed.

Lemma readback_fails_checked :
  all_checked_succeed (sample_world readback_fails (Some sample_ppm)).
Proof. intros c Hc. destruct c; try discriminate Hc; reflexivity. Qed.

Lemma failed_readback_still_writes_output_witness :
  let w := sample_world readback_fails (Some sample_ppm) in
  let img := mkImage ["a"; "b"; "c"]%char 1 1 in
  0 <= atoi "0" < 1073741824 /\
  platformIdCount w <> 0%nat /\
  deviceIdCount w <> 0%nat /\
  all_checked_succeed w /\
  cl_status w (clEnqueueReadImage (width img) (height img)) <> CL_SUCCESS /\
  LoadImage (test_ppm w) = ret img /\
  exists pre out,
    run exact_rd exact_rf exact_exp w ["blur"; "0"]%string
    = (pre ++ WriteFile "output.ppm"
                (SaveImage (mkImage out (width img) (height img)))
           :: map Call release_calls,
       Exited 0) /\
    forallb not_write pre = true /\
    List.length out = (3 * pixel_count img)%nat /\
    (forall k c, (k < pixel_count img)%nat -> (c < 3)%nat ->
       nth_error out (3 * k + c) = Some (failed_pixels w (4 * k + c))) /\
    ((forall i, (i < 4 * pixel_count img)%nat -> failed_pixels w i = NUL) ->
     out = repeat NUL (3 * pixel_count img)).
Proof.
  assert (Hs : 0 <= atoi "0" < 1073741824) by (vm_compute; split; congruence).
  assert (Hread : cl_status (sample_world readback_fails (Some sample_ppm))
                    (clEnqueueReadImage 1 1) <> CL_SUCCESS) by discriminate.
  split; [exact Hs|]. split; [discriminate|]. split; [discriminate|].
  split; [exact readback_fails_checked|]. split; [exact Hread|].
  split; [exact sample_image_loads|].
  apply (failed_readback_still_writes_output exact_rd exact_rf exact_exp
           (sample_world readback_fails (Some sample_ppm)) "blur" "0"
           (mkImage ["a"; "b"; "c"]%char 1 1));
    [exact Hs | discriminate | discriminate | exact readback_fails_checked
     | exact Hread | exact sample_image_loads].
Defined.

(** X26.  The file written by such a run is an image file that [LoadImage]
    itself reads back: loading the content of [output.ppm] gives an image
    with the width and the height of the input and three bytes for each of
    its pixels. *)
Theorem output_file_can_be_loaded
    (rd rf cexp : R -> R) (w : World) (argv0 s : string) (img : Image) :
  0 <= atoi s < 1073741824 ->
  platformIdCount w <> 0%nat ->
  deviceIdCount w <> 0%nat ->
  all_checked_succeed w ->
  LoadImage (test_ppm w) = ret img ->
  exists content out,
    In (WriteFile "output.ppm" content) (fst (run rd rf cexp w [argv0; s])) /\
    LoadImage (Some content) = ret (mkImage out (width img) (height img)) /\
    List.length out = (3 * pixel_count img)%nat.
Proof.
  intros Hs Hp Hd Hok Hload.
  destruct (run_succeeds rd rf cexp w Hok argv0 s img Hs Hp Hd Hload)
    as (pre & _ & _ & Erun & _).
  destruct (LoadImage_sized _ _ _ Hload) as (_ & (Hw & Hh & Hsize) & _).
  match type of Erun with
  | _ = (_ ++ WriteFile _ (SaveImage (mkImage ?o _ _)) :: _, _) => set (out := o) in *
  end.
  assert (Hout : List.length out = (3 * pixel_count img)%nat).
  { unfold out. apply drop_alpha_length.
    rewrite read_back_length, repeat_length. reflexivity. }
  exists (SaveImage (mkImage out (width img) (height img))), out.
  split; [|split; [|exact Hout]].
  - rewrite Erun. cbn [fst]. apply in_or_app. right. left. reflexivity.
  - rewrite <- (append_empty_r (SaveImage _)).
    apply LoadImage_saved_exact.
    + repeat split; assumption || (cbn [width height]; lia).
    + cbn [pixel]. rewrite Hout. unfold data_size, pixel_count.
      cbn [width height]. lia.
Qed.

Lemma output_file_can_be_loaded_witness :
  let w := sample_world all_succeed (Some sample_ppm) in
  let img := mkImage ["a"; "b"; "c"]%char 1 1 in
  0 <= atoi "0" < 1073741824 /\
  platformIdCount w <> 0%nat /\
  deviceIdCount w <> 0%nat /\
  all_checked_succeed w /\
  LoadImage (test_ppm w) = ret img /\
  exists content out,
    In (WriteFile "output.ppm" content)
       (fst (run exact_rd exact_rf exact_exp w ["blur"; "0"]%string)) /\
    LoadImage (Some content) = ret (mkImage out (width img) (height img)) /\
    List.length out = (3 * pixel_count img)%nat.
Proof.
  assert (Hs : 0 <= atoi "0" < 1073741824) by (vm_compute; split; congruence).
  assert (Hok : all_checked_succeed (sample_world all_succeed (Some sample_ppm)))
    by (intros c _; reflexivity).
  split; [exact Hs|]. split; [discriminate|]. split; [discriminate|].
  split; [exact Hok|]. split; [exact sample_image_loads|].
  apply (output_file_can_be_loaded exact_rd exact_rf exact_exp
           (sample_world all_succeed (Some sample_ppm)) "blur" "0"
           (mkImage ["a"; "b"; "c"]%char 1 1));
    [exact Hs | discriminate | discriminate | exact Hok | exact sample_image_loads].
Defined.

(** X27.  What the device is given on such a run, for an input image of
    positive width and height (the conversions of the dimensions to
    [size_t] then keep their values, and the pixel vector is not empty):
    the source of [kernels/image.cl] as it was read, the build option that
    defines [RADIUS] as the radius, the input image padded to four bytes a
    pixel with its width and height, an output image of the same width and
    height, the weights of the kernel for that radius row after row, and a
    dispatch over width times height work items. *)
Theorem device_receives_radius_image_and_weights
    (rd rf cexp : R -> R) (w : World) (argv0 s : string) (img : Image) :
  0 <= atoi s < 1073741824 ->
  platformIdCount w <> 0%nat ->
  deviceIdCount w <> 0%nat ->
  all_checked_succeed w ->
  LoadImage (test_ppm w) = ret img ->
  0 < width img ->
  0 < height img ->
  exists k rgba,
    produce2dGaussianKernel rd rf cexp (atoi s) = Some k /\
    RGBtoRGBA img = Some rgba /\
    pixel rgba <> [] /\
    forall c,
      In c [clCreateProgramWithSource (kernel_source w);
            clBuildProgram (deviceIdCount w) ("-D RADIUS=" +++ show_Z (atoi s));
            clCreateImage2D (width img) (height img) (Some (pixel rgba));
            clCreateImage2D (width img) (height img) None;
            clCreateBuffer (concat k);
            clEnqueueNDRangeKernel (width img) (height img)] ->
      In (Call c) (fst (run rd rf cexp w [argv0; s])).
Proof.
  intros Hs Hp Hd Hok Hload Hwidth Hheight.
  destruct (run_succeeds rd rf cexp w Hok argv0 s img Hs Hp Hd Hload)
    as (pre & tr1 & k & Erun & _ & Hk & Epre).
  destruct (LoadImage_sized _ _ _ Hload) as (_ & (_ & _ & Hsize) & Hlen).
  exists k, (mkImage (pad_alpha (pixel img)) (width img) (height img)).
  split; [exact Hk|]. split; [|split].
  - apply RGBtoRGBA_pixels.
    replace (List.length (pixel img)) with (pixel_count img * 3)%nat
      by (rewrite Hlen; unfold data_size, pixel_count; lia).
    apply Nat.Div0.mod_mul.
  - cbn [pixel].
    assert (Hthree : (3 <= List.length (pixel img))%nat)
      by (rewrite Hlen; unfold data_size; nia).
    destruct (pixel img) as [|r [|g [|b rest]]]; simpl in Hthree; try lia.
    discriminate.
  - intros c Hc. rewrite Erun, Epre. cbn [fst pixel].
    apply in_or_app. left. apply in_or_app. right.
    simpl in Hc. simpl.
    repeat (destruct Hc as [<- | Hc]; [tauto|]). contradiction.
Qed.

Lemma device_receives_radius_image_and_weights_witness :
  let w := sample_world all_succeed (Some sample_ppm) in
  let img := mkImage ["a"; "b"; "c"]%char 1 1 in
  0 <= atoi "0" < 1073741824 /\
  platformIdCount w <> 0%nat /\
  deviceIdCount w <> 0%nat /\
  all_checked_succeed w /\
  LoadImage (test_ppm w) = ret img /\
  0 < width img /\
  0 < height img /\
  exists k rgba,
    produce2dGaussianKernel exact_rd exact_rf exact_exp (atoi "0") = Some k /\
    RGBtoRGBA img = Some rgba /\
    pixel rgba <> [] /\
    forall c,
      In c [clCreateProgramWithSource (kernel_source w);
            clBuildProgram (deviceIdCount w) ("-D RADIUS=" +++ show_Z (atoi "0"));
            clCreateImage2D (width img) (height img) (Some (pixel rgba));
            clCreateImage2D (width img) (height img) None;
            clCreateBuffer (concat k);
            clEnqueueNDRangeKernel (width img) (height img)] ->
      In (Call c)
         (fst (run exact_rd exact_rf exact_exp w ["blur"; "0"]%string)).
Proof.
  assert (Hs : 0 <= atoi "0" < 1073741824) by (vm_compute; split; congruence).
  assert (Hok : all_checked_succeed (sample_world all_succeed (Some sample_ppm)))
    by (intros c _; reflexivity).
  split; [exact Hs|]. split; [discriminate|]. split; [discriminate|].
  split; [exact Hok|]. split; [exact sample_image_loads|].
  split; [reflexivity|]. split; [reflexivity|].
  apply (device_receives_radius_image_and_weights exact_rd exact_rf exact_exp
           (sample_world all_succeed (Some sample_ppm)) "blur" "0"
           (mkImage ["a"; "b"; "c"]%char 1 1));
    [exact Hs | discriminate | discriminate | exact Hok | exact sample_image_loads
     | reflexivity | reflexivity].
Defined.

(** ** Runs that end with an exit status *)

Section ExitStatus.

Variables rd rf cexp : R -> R.
Variable w : World.

Lemma holds_bind_value {A B : Type} (P : event -> bool) (Q : ending -> bool)
    (m : M A) (f : A -> M B) :
  holds P Q m ->
  (forall tr a, m = (tr, Continue a) -> holds P Q (f a)) ->
  holds P Q (bind m f).
Proof.
  destruct m as [tr [a | e]]; intros [Hm1 Hm2] Hf.
  - rewrite (bind_continue _ f tr a eq_refl).
    destruct (Hf tr a eq_refl) as [Hf1 Hf2]. split; simpl.
    + rewrite forallb_app. simpl in Hm1. rewrite Hm1, Hf1. reflexivity.
    + exact Hf2.
  - rewrite (bind_stop _ f tr e eq_refl). split; assumption.
Qed.

Lemma load_input_exits_1 :
  loads_or_rejects (test_ppm w) ->
  holds any_event is_exit_1 (load_input w) /\
  forall tr image,
    load_input w = (tr, Continue image) ->
    exists n, List.length (pixel image) = (4 * n)%nat.
Proof.
  unfold loads_or_rejects, load_input. intros Hload.
  destruct (LoadImage (test_ppm w)) as [tr0 [img | e]] eqn:E.
  - destruct (LoadImage_sized _ _ _ E) as (-> & (_ & _ & Hsize) & Hlen).
    assert (Hn : List.length (pixel img) = (3 * pixel_count img)%nat)
      by (rewrite Hlen; unfold data_size, pixel_count; lia).
    rewrite (bind_steps _ _ [ReadFile "test.ppm"%string]
               [] tt (Continue (mkImage (pad_alpha (pixel img)) (width img) (height img)))
               eq_refl).
    + split; [split; reflexivity|].
      intros tr image H. injection H as _ <-.
      exists (pixel_count img). apply pad_alpha_length. exact Hn.
    + change (@pair (list event) (step Image) [] (Continue img)) with (ret img).
      rewrite bind_ret_l.
      rewrite RGBtoRGBA_pixels
        by (rewrite Hn, Nat.mul_comm; apply Nat.Div0.mod_mul).
      reflexivity.
  - simpl in Hload. subst e.
    pose proof (LoadImage_quiet any_event (test_ppm w)) as [Hq _].
    rewrite E in Hq. simpl in Hq.
    rewrite (bind_steps _ _ [ReadFile "test.ppm"%string] tr0 tt (Stop (Exited 1))
               eq_refl eq_refl).
    split; [split; [exact Hq | reflexivity]|].
    intros tr image H. discriminate H.
Qed.

Lemma convolve_exits_1 (filter : kernel_type) (image : Image) (n : nat) :
  List.length (pixel image) = (4 * n)%nat ->
  holds any_event is_exit_1 (convolve w filter image).
Proof.
  intros Hn. unfold convolve.
  repeat (cbv zeta; apply holds_bind; [solve [holds_walk] | intros]).
  cbv zeta.
  rewrite (RGBAtoRGB_pixels _ n)
    by (cbn [pixel]; rewrite read_back_length, repeat_length; exact Hn).
  holds_walk.
Qed.

Lemma main_exits_1 (argv : list string) :
  arguments_defined argv ->
  loads_or_rejects (test_ppm w) ->
  holds any_event is_exit_1 (main rd rf cexp w argv).
Proof.
  intros Hargs Hload. unfold main.
  assert (Hrest : forall filterSize,
             0 <= filterSize < 1073741824 ->
             holds any_event is_exit_1
               (create_context w ;;
                filter <- make_filter rd rf cexp filterSize ;;
                create_kernel w filterSize ;;
                image <- load_input w ;;
                convolve w filter image ;;
                release_all w)).
  { intros filterSize Hr.
    apply holds_bind;
      [unfold create_context, GetPlatformName, GetDeviceName; holds_walk | intros _].
    destruct (make_filter_defined rd rf cexp filterSize Hr) as (k & -> & _).
    rewrite bind_ret_l.
    apply holds_bind;
      [unfold create_kernel, LoadKernel, CreateProgram; holds_walk | intros _].
    destruct (load_input_exits_1 Hload) as [Hinput Hsize].
    apply holds_bind_value; [exact Hinput | intros tr image E].
    destruct (Hsize tr image E) as (n & Hn).
    apply holds_bind; [apply (convolve_exits_1 k image n Hn) | intros _].
    unfold release_all. holds_walk. }
  destruct argv as [|argv0 [|s [|extra rest]]].
  - contradiction.
  - split; reflexivity.
  - simpl in Hargs.
    rewrite read_arguments_one
      by (unfold in_int, INT_MIN, INT_MAX; apply andb_true_intro;
          split; apply Z.leb_le; lia).
    rewrite bind_ret_l. apply Hrest. exact Hargs.
  - split; reflexivity.
Qed.

End ExitStatus.

(** X28.  For arguments [main] is defined on (a usage error, or a radius
    from 0 to 2^30 - 1) and an input file that [LoadImage] either loads or
    rejects, every run ends with exit status 0 or 1, whatever the runtime
    answers: nothing undefined is reached, nothing aborts and no loop runs
    for ever.  (Memory is not bounded here: no allocation fails.) *)
Theorem run_exits_with_0_or_1
    (rd rf cexp : R -> R) (w : World) (argv : list string) :
  arguments_defined argv ->
  loads_or_rejects (test_ppm w) ->
  snd (run rd rf cexp w argv) = Exited 0 \/ snd (run rd rf cexp w argv) = Exited 1.
Proof.
  intros Hargs Hload.
  destruct (main_exits_1 rd rf cexp w argv Hargs Hload) as [_ H].
  unfold run. destruct (main rd rf cexp w argv) as [tr [a | e]]; simpl in *.
  - left. reflexivity.
  - right. destruct e as [[|[| |]|]| | |]; try discriminate H. reflexivity.
Qed.

Lemma run_exits_with_0_or_1_witness :
  let w := sample_world dispatch_fails (Some sample_ppm) in
  arguments_defined ["blur"; "2"]%string /\
  loads_or_rejects (test_ppm w) /\
  (snd (run exact_rd exact_rf exact_exp w ["blur"; "2"]%string) = Exited 0 \/
   snd (run exact_rd exact_rf exact_exp w ["blur"; "2"]%string) = Exited 1).
Proof.
  assert (Hargs : arguments_defined ["blur"; "2"]%string)
    by (vm_compute; split; congruence).
  assert (Hload : loads_or_rejects
                    (test_ppm (sample_world dispatch_fails (Some sample_ppm))))
    by (vm_compute; exact I).
  split; [exact Hargs|]. split; [exact Hload|].
  exact (run_exits_with_0_or_1 exact_rd exact_rf exact_exp
           (sample_world dispatch_fails (Some sample_ppm))
           ["blur"; "2"]%string Hargs Hload).
Defined.
(** ** The embedding on small inputs *)

Example atoi_examples :
  atoi "42" = 42 /\ atoi "  -7x" = -7 /\ atoi "+15" = 15 /\
  atoi "abc" = 0 /\ atoi "-" = 0 /\ atoi "" = 0.
Proof. repeat split. Qed.

Example RGBtoRGBA_two_pixels :
  RGBtoRGBA two_pixels
  = Some (mkImage ["a"; "b"; "c"; NUL; "d"; "e"; "f"; NUL]%char 2 1).
Proof. reflexivity. Qed.

Example RGBAtoRGB_two_pixels :
  RGBAtoRGB (mkImage ["a"; "b"; "c"; "1"; "d"; "e"; "f"; "2"]%char 2 1)
  = Some two_pixels.
Proof. reflexivity. Qed.

Example RGBtoRGBA_partial_pixel :
  RGBtoRGBA (mkImage ["a"; "b"; "c"; "d"]%char 1 1) = None.
Proof. reflexivity. Qed.

Example LoadImage_sample :
  LoadImage (Some sample_ppm) = ret (mkImage ["a"; "b"; "c"]%char 1 1).
Proof. vm_compute. reflexivity. Qed.

Example LoadImage_with_comments :
  LoadImage (Some ("P6" +++ newline +++ "# made by hand" +++ newline
                   +++ "#" +++ newline +++ "2 1" +++ newline
                   +++ "255" +++ newline +++ "abcdef"))
  = ret two_pixels.
Proof. vm_compute. reflexivity. Qed.

(** Fewer bytes than the header announces: the rest stays zero. *)
Example LoadImage_short_data :
  LoadImage (Some ("P6" +++ newline +++ "2 1" +++ newline
                   +++ "255" +++ newline +++ "abcd"))
  = ret (mkImage ["a"; "b"; "c"; "d"; NUL; NUL]%char 2 1).
Proof. vm_compute. reflexivity. Qed.

(** A file that ends after the magic token keeps the comment loop going. *)
Example LoadImage_only_magic :
  LoadImage (Some ("P6" +++ newline)) = halt Diverges.
Proof. vm_compute. reflexivity. Qed.

Example LoadImage_missing_file : LoadImage None = halt (Exited 1).
Proof. reflexivity. Qed.

Example SaveImage_sample :
  SaveImage (mkImage ["a"; "b"; "c"]%char 1 1) = sample_ppm.
Proof. reflexivity. Qed.

Example run_without_argument :
  run exact_rd exact_rf exact_exp (sample_world all_succeed (Some sample_ppm))
      ["blur"]%string
  = ([Stdout ("Usage: blur <filter size>" +++ newline)], Exited 1).
Proof. reflexivity. Qed.

Example run_without_platform :
  run exact_rd exact_rf exact_exp
      (mkWorld 0 (fun _ => ""%string) 0 (fun _ => ""%string) all_succeed
               ""%string None (fun _ => NUL) (fun _ => NUL))
      ["blur"; "2"]%string
  = ([Call (clGetPlatformIDs 0);
      Stderr ("No OpenCL platform found" +++ newline)],
     Exited 1).
Proof. reflexivity. Qed.

(** A complete run: one platform, one device, every call succeeds. *)
Example run_all_succeed :
  run exact_rd exact_rf exact_exp
      (sample_world all_succeed (Some sample_ppm)) ["blur"; "0"]%string
  = ([Call (clGetPlatformIDs 0);
      Stdout ("Found 1 platform(s)" +++ newline);
      Call (clGetPlatformIDs 1);
      Call (clGetPlatformInfo 0); Call (clGetPlatformInfo 0);
      Stdout (tab +++ " (1) : platform" +++ newline);
      Call (clGetDeviceIDs 0);
      Stdout ("Found 1 device(s)" +++ newline);
      Call (clGetDeviceIDs 1);
      Call (clGetDeviceInfo 0); Call (clGetDeviceInfo 0);
      Stdout (tab +++ " (1) : device" +++ newline);
      Call (clCreateContext 1);
      Stdout ("Context created" +++ newline);
      ReadFile "kernels/image.cl";
      Call (clCreateProgramWithSource "kernel source");
      Call (clBuildProgram 1 "-D RADIUS=0");
      Call (clCreateKernel "Filter");
      ReadFile "test.ppm";
      Call (clCreateImage2D 1 1 (Some ["a"; "b"; "c"; NUL]%char));
      Call (clCreateImage2D 1 1 None);
      Call (clCreateBuffer [1%R]);
      Call (clSetKernelArg 0 InputImage);
      Call (clSetKernelArg 1 FilterWeightsBuffer);
      Call (clSetKernelArg 2 OutputImage);
      Call clCreateCommandQueue;
      Call (clEnqueueNDRangeKernel 1 1);
      Call (clEnqueueReadImage 1 1);
      WriteFile "output.ppm" (SaveImage (mkImage ["x"; "x"; "x"]%char 1 1))]
     ++ map Call release_calls,
     Exited 0).
Proof. vm_compute. reflexivity. Qed.

(** Radius 1 without rounding: the centre weighs
    [1 / (1 + 4 exp (-2) + 4 exp (-4))]. *)
Example kernel_spec_radius_1_centre :
  kernel_spec 1 1 1 = (1 / (1 + 4 * exp (-2) + 4 * exp (-4)))%R.
Proof.
  unfold kernel_spec, total_spec, product_spec, gaussian_spec.
  simpl. 
  replace (-0.5 * ((0 - 1) / (1 / 2) * ((0 - 1) / (1 / 2) * 1)))%R with (-2)%R by lra.
  replace (-0.5 * ((1 - 1) / (1 / 2) * ((1 - 1) / (1 / 2) * 1)))%R with 0%R by lra.
  replace (-0.5 * ((2 - 1) / (1 / 2) * ((2 - 1) / (1 / 2) * 1)))%R with (-2)%R by lra.
  rewrite exp_0.
  replace (exp (-4)) with (exp (-2) * exp (-2))%R
    by (rewrite <- exp_plus; f_equal; lra).
  pose proof (exp_pos (-2)).
  field. nra.
Qed.

